(** * Kyokon ingredient-vocabulary pipeline: a shallow embedding

    The three scripts of the repository are embedded as Rocq functions:

    - [scripts/build-synonym-clusters.py]       (module [Builder]),
    - [scripts/merge-clusters-to-ontology.py]   (module [Merger]),
    - [scripts/expand-ontology-from-clusters.py] (module [Expander]).

    Python [str] values are modelled as Rocq [string]s (sequences of 8-bit
    characters); the text primitives of module [Py] follow Python's
    behaviour on ASCII text.  Python [int]s are [Z].  JSON objects are
    records whose optional keys are [option] fields; Python [dict]s used
    as lookup tables are [gmap]s, [set]s are [gset]s, and dictionaries
    whose iteration order is observable are association lists. *)

From Stdlib Require Import ZArith Lia List String Ascii Bool Permutation.
From stdpp Require Import base option list gmap strings.

Local Open Scope string_scope.
Local Open Scope Z_scope.
Local Open Scope list_scope.

(** ** Python text primitives (ASCII) *)

Module Py.

Definition chars (s : string) : list ascii := list_ascii_of_string s.
Definition str (l : list ascii) : string := string_of_list_ascii l.

Definition code (c : ascii) : N := N_of_ascii c.

Definition in_range (lo hi : N) (c : ascii) : bool :=
  ((lo <=? code c) && (code c <=? hi))%N.

(** [str.isspace] on ASCII: TAB, LF, VT, FF, CR, FS, GS, RS, US, SPACE.
    The regular-expression class [\s] on [str] patterns is the same. *)
Definition is_space (c : ascii) : bool :=
  in_range 9 13 c || in_range 28 31 c || in_range 32 32 c.

Definition is_upper (c : ascii) : bool := in_range 65 90 c.
Definition is_lower (c : ascii) : bool := in_range 97 122 c.
Definition is_digit (c : ascii) : bool := in_range 48 57 c.
Definition is_hyphen (c : ascii) : bool := in_range 45 45 c.

Definition lower_char (c : ascii) : ascii :=
  if is_upper c then ascii_of_N (code c + 32) else c.

(** [s.lower()] *)
Definition lower (s : string) : string := str (map lower_char (chars s)).

Fixpoint lstrip_chars (p : ascii -> bool) (l : list ascii) : list ascii :=
  match l with
  | [] => []
  | c :: l' => if p c then lstrip_chars p l' else l
  end.

Definition strip_chars (p : ascii -> bool) (l : list ascii) : list ascii :=
  rev (lstrip_chars p (rev (lstrip_chars p l))).

(** [s.strip()] *)
Definition strip (s : string) : string := str (strip_chars is_space (chars s)).

(** [re.sub("[^...]", "", s)]: delete every character outside the class. *)
Definition sub_delete (keep : ascii -> bool) (l : list ascii) : list ascii :=
  List.filter keep l.

(** [re.sub("[^...]", " ", s)]: blank every character outside the class. *)
Definition sub_blank (keep : ascii -> bool) (l : list ascii) : list ascii :=
  map (fun c => if keep c then c else " "%char) l.

(** [re.sub("[class]+", r, s)]: every maximal run of characters of the
    class is replaced by the single character [r]; [in_run] records that
    the previous character belonged to the class. *)
Fixpoint sub_runs (p : ascii -> bool) (r : ascii) (in_run : bool)
    (l : list ascii) : list ascii :=
  match l with
  | [] => []
  | c :: l' =>
      if p c then
        if in_run then sub_runs p r true l' else r :: sub_runs p r true l'
      else c :: sub_runs p r false l'
  end.

(** [s.split()]: the maximal runs of non-whitespace characters; [cur]
    holds the current run, reversed. *)
Fixpoint split_ws (cur : list ascii) (l : list ascii) : list (list ascii) :=
  match l with
  | [] => match cur with [] => [] | _ => [rev cur] end
  | c :: l' =>
      if is_space c then
        match cur with
        | [] => split_ws [] l'
        | _ => rev cur :: split_ws [] l'
        end
      else split_ws (c :: cur) l'
  end.

Definition split (s : string) : list string := map str (split_ws [] (chars s)).

(** [sep.join(parts)] *)
Fixpoint join (sep : string) (parts : list string) : string :=
  match parts with
  | [] => ""
  | [p] => p
  | p :: rest => p +:+ sep +:+ join sep rest
  end.

(** [len(s)] *)
Definition len (s : string) : nat := String.length s.

(** Stable insertion sort by an integer key, ascending: the order that
    [list.sort(key=...)] produces. *)
Section SortBy.
Context {A : Type} (le : A -> A -> bool).

Fixpoint insert_sorted (x : A) (l : list A) : list A :=
  match l with
  | [] => [x]
  | y :: l' => if le x y then x :: l else y :: insert_sorted x l'
  end.

Fixpoint sort_by (l : list A) : list A :=
  match l with
  | [] => []
  | x :: l' => insert_sorted x (sort_by l')
  end.
End SortBy.

(** [sorted(l)] on strings: code-point order. *)
Definition sorted (l : list string) : list string := sort_by String.leb l.

End Py.

(** ** Data model: the JSON records exchanged by the scripts *)

(** A member of a cluster group: [{"name", "count", "base", "form"}]. *)
Module Member.
Record t := mk { name : string; count : Z; base : list string; form : list string }.
End Member.

(** An alias of an emitted cluster: [{"name", "count"}]. *)
Module Alias.
Record t := mk { name : string; count : Z }.
End Alias.

(** An emitted cluster of [synonym-clusters.json]. *)
Module Cluster.
Record t := mk {
  canonical : string;
  count : Z;
  base : list string;
  form : string;
  aliases : list Alias.t;
  totalUsage : Z
}.
End Cluster.

(** A record of [unmatched-clusters.json]. *)
Module Unmatched.
Record t := mk { canonical : string; count : Z; aliases : list string }.
End Unmatched.

(** A provisional catalogue candidate; the score is carried as the text of
    its JSON number (no claim depends on its numeric value). *)
Module Candidate.
Record t := mk { description : string; category : option string; matchScore : string }.
End Candidate.

(** An ontology entry.  Keys that may be absent from the JSON object are
    [option] fields; ["fdcCandidate"] may be absent, [null] or an object.
    The other keys of an entry (["fdc"], ["equivalenceClass"], ...) are
    neither read nor written by the scripts and are left out. *)
Module Entry.
Record t := mk {
  slug : string;
  displayName : string;
  surfaceForms : option (list string);
  confirmTokens : option (list (list string));
  recipeCount : option Z;
  fdcCandidate : option (option Candidate.t)
}.

(** [e.get("surfaceForms", [])] *)
Definition forms (e : t) : list string := default [] (surfaceForms e).
End Entry.

(** ** build-synonym-clusters.py *)

Module Builder.

Definition FORM_MODIFIERS : gset string := list_to_set [
  "powder"; "powdered"; "ground"; "granulated"; "granules"; "flakes"; "flaked";
  "minced"; "chopped"; "diced"; "sliced"; "shredded"; "grated"; "crushed";
  "whole"; "halved"; "quartered"; "cubed"; "mashed"; "pureed";
  "fresh"; "dried"; "dry"; "frozen"; "canned"; "pickled"; "smoked"; "cured";
  "roasted"; "toasted";
  "raw"; "cooked"; "uncooked"; "blanched"; "peeled"; "seeded"; "pitted";
  "boneless"; "skinless"; "melted"; "softened";
  "large"; "medium"; "small"; "baby"; "mini"; "jumbo"; "thin"; "thick";
  "organic"; "natural"; "pure"; "real"; "imitation"; "low-fat"; "nonfat";
  "unsalted"; "salted"; "sweetened"; "unsweetened" ].

Definition LEMMAS : gmap string string := list_to_map [
  ("powdered", "powder"); ("granulated", "granules"); ("flaked", "flakes");
  ("dried", "dry"); ("roasted", "roast"); ("toasted", "toast");
  ("smoked", "smoke"); ("minced", "mince"); ("chopped", "chop");
  ("diced", "dice"); ("sliced", "slice"); ("shredded", "shred");
  ("grated", "grate"); ("crushed", "crush"); ("peeled", "peel");
  ("seeded", "seed"); ("pitted", "pit"); ("halved", "half");
  ("quartered", "quarter"); ("cubed", "cube"); ("mashed", "mash");
  ("pureed", "puree"); ("cloves", "clove"); ("heads", "head");
  ("bulbs", "bulb"); ("stalks", "stalk"); ("leaves", "leaf");
  ("sprigs", "sprig"); ("bunches", "bunch"); ("ribs", "rib");
  ("ears", "ear"); ("strips", "strip"); ("pieces", "piece") ].

Definition UNIT_WORDS : gset string := list_to_set [
  "clove"; "cloves"; "head"; "heads"; "bulb"; "bulbs"; "stalk"; "stalks";
  "leaf"; "leaves"; "sprig"; "sprigs"; "bunch"; "bunches"; "rib"; "ribs";
  "ear"; "ears"; "strip"; "strips"; "piece"; "pieces"; "slice"; "slices";
  "cup"; "cups"; "tablespoon"; "tablespoons"; "teaspoon"; "teaspoons";
  "pound"; "pounds"; "ounce"; "ounces"; "can"; "cans"; "package"; "packages" ].

(** The character class [[a-z0-9\s-]]. *)
Definition token_char (c : ascii) : bool :=
  Py.is_lower c || Py.is_digit c || Py.is_space c || Py.is_hyphen c.

Definition tokenize (text : string) : list string :=
  List.filter (fun t => (2 <=? Py.len t)%nat)
    (Py.split (Py.str (Py.sub_blank token_char (Py.chars (Py.lower text))))).

Definition lemmatize (word : string) : string := default word (LEMMAS !! word).

(** The classification of one token, parametric in the two vocabularies
    and the lemma function; [acc] is the pair [(base, form)]. *)
Definition classify_with (forms units : gset string) (lem : string -> string)
    (acc : list string * list string) (t : string) : list string * list string :=
  let lemma := lem t in
  if bool_decide (t ∈ forms) || bool_decide (lemma ∈ forms) then
    (acc.1, acc.2 ++ [lemma])
  else if bool_decide (t ∉ units) then (acc.1 ++ [t], acc.2)
  else acc.

(** The body of the loop of [extract_base_and_form]. *)
Definition classify_step : list string * list string -> string -> list string * list string :=
  classify_with FORM_MODIFIERS UNIT_WORDS lemmatize.

Definition extract_base_and_form (ingredient : string) : list string * list string :=
  fold_left classify_step (tokenize ingredient) ([], []).

Definition make_cluster_key (base form : list string) : string :=
  let base_key := match base with [] => "_empty_" | _ => Py.join "+" (Py.sorted base) end in
  let form_key := match form with [] => "base" | _ => Py.join "+" (Py.sorted form) end in
  base_key +:+ "|" +:+ form_key.

(** [clusters[key].append(m)] on a [defaultdict(list)]: keys keep their
    insertion order. *)
Fixpoint append_member (key : string) (m : Member.t)
    (clusters : list (string * list Member.t)) : list (string * list Member.t) :=
  match clusters with
  | [] => [(key, [m])]
  | (k, ms) :: rest =>
      if String.eqb k key then (k, ms ++ [m]) :: rest
      else (k, ms) :: append_member key m rest
  end.

(** [clusters.get(key)] *)
Fixpoint members_of (key : string) (clusters : list (string * list Member.t))
    : option (list Member.t) :=
  match clusters with
  | [] => None
  | (k, ms) :: rest => if String.eqb k key then Some ms else members_of key rest
  end.

(** The member that one item of [freq.items()] contributes, with its
    cluster key; [None] when the loop body ends in [continue] (count below
    [--min-freq], or no base token). *)
Definition keyed_member (min_freq : Z) (item : string * Z) : option (string * Member.t) :=
  let '(ing, count) := item in
  if count <? min_freq then None
  else
    let '(base, form) := extract_base_and_form ing in
    match base with
    | [] => None
    | _ => Some (make_cluster_key base form, Member.mk ing count base form)
    end.

(** One iteration of the grouping loop. *)
Definition group_step (min_freq : Z) (clusters : list (string * list Member.t))
    (item : string * Z) : list (string * list Member.t) :=
  match keyed_member min_freq item with
  | Some (key, m) => append_member key m clusters
  | None => clusters
  end.

Definition group_clusters (freq : list (string * Z)) (min_freq : Z)
    : list (string * list Member.t) :=
  fold_left (group_step min_freq) freq [].

(** [members.sort(key=lambda x: -x["count"])] *)
Definition sort_members (members : list Member.t) : list Member.t :=
  Py.sort_by (fun x y => - Member.count x <=? - Member.count y) members.

(** [sum(m["count"] for m in members)] *)
Definition sum_counts (members : list Member.t) : Z :=
  fold_left (fun acc m => acc + Member.count m) members 0.

Definition to_alias (m : Member.t) : Alias.t :=
  Alias.mk (Member.name m) (Member.count m).

(** The body of the loop over [clusters.items()]: [None] when the group
    is skipped.  A group is never empty; [members[0]] of an empty list
    would raise, which the first branch stands for. *)
Definition emit (members : list Member.t) : option Cluster.t :=
  match sort_members members with
  | [] => None
  | canonical :: rest =>
      if (length members =? 1)%nat && (Member.count canonical <? 50) then None
      else
        let cluster :=
          Cluster.mk (Member.name canonical) (Member.count canonical)
            (Member.base canonical)
            (match Member.form canonical with
             | [] => "base"
             | f => Py.join "+" f
             end)
            (map to_alias (List.filter (fun m => 5 <=? Member.count m) rest))
            (sum_counts (canonical :: rest)) in
        match Cluster.aliases cluster with
        | [] => if 50 <=? Member.count canonical then Some cluster else None
        | _ => Some cluster
        end
  end.

(** [output_clusters.sort(key=lambda x: -x["totalUsage"])] *)
Definition sort_output (cs : list Cluster.t) : list Cluster.t :=
  Py.sort_by (fun x y => - Cluster.totalUsage x <=? - Cluster.totalUsage y) cs.

(** The clusters written to [synonym-clusters.json]. *)
Definition build_clusters (freq : list (string * Z)) (min_freq : Z) : list Cluster.t :=
  sort_output (omap emit (map snd (group_clusters freq min_freq))).

(** [freq[key] += 1] on a [Counter]: a key seen for the first time is
    appended with count 1, so the keys keep the order of first occurrence. *)
Fixpoint counter_incr (key : string) (freq : list (string * Z)) : list (string * Z) :=
  match freq with
  | [] => [(key, 1)]
  | (k, n) :: rest =>
      if String.eqb k key then (k, n + 1) :: rest else (k, n) :: counter_incr key rest
  end.

(** The body of the loop over the ingredients of one row. *)
Definition count_ingredient (freq : list (string * Z)) (ing : string) : list (string * Z) :=
  let norm := Py.strip (Py.lower ing) in
  if (1 <? Py.len norm)%nat then counter_incr norm freq else freq.

(** [load_ingredients], from the rows that follow the header.  A row is
    [None] when it has fewer than 11 columns or its ingredients column does
    not evaluate (the row is skipped); otherwise it is the decoded list of
    ingredient strings.  A decoded value with an element that is not a
    string raises at that element, inside the [try]: such a row stands
    here as the strings before that element.  Reading the file and
    decoding a column are not modelled. *)
Definition load_ingredients (rows : list (option (list string))) : list (string * Z) :=
  fold_left
    (fun freq row =>
       match row with
       | Some ingredients => fold_left count_ingredient ingredients freq
       | None => freq
       end)
    rows [].

End Builder.

(** ** merge-clusters-to-ontology.py *)

(** The [stats] dictionary of the merger. *)
Module Stats.
Record t := mk {
  surface_forms_added : nat;
  confirm_tokens_added : nat;
  recipe_counts_added : nat;
  new_entries_created : nat;
  clusters_matched : nat;
  clusters_unmatched : nat
}.

Definition zero : t := mk 0 0 0 0 0 0.

Definition add_surface_forms (n : nat) (s : t) : t :=
  mk (surface_forms_added s + n) (confirm_tokens_added s) (recipe_counts_added s)
     (new_entries_created s) (clusters_matched s) (clusters_unmatched s).
Definition add_confirm_tokens (n : nat) (s : t) : t :=
  mk (surface_forms_added s) (confirm_tokens_added s + n) (recipe_counts_added s)
     (new_entries_created s) (clusters_matched s) (clusters_unmatched s).
Definition add_recipe_counts (n : nat) (s : t) : t :=
  mk (surface_forms_added s) (confirm_tokens_added s) (recipe_counts_added s + n)
     (new_entries_created s) (clusters_matched s) (clusters_unmatched s).
Definition incr_matched (s : t) : t :=
  mk (surface_forms_added s) (confirm_tokens_added s) (recipe_counts_added s)
     (new_entries_created s) (S (clusters_matched s)) (clusters_unmatched s).
Definition incr_unmatched (s : t) : t :=
  mk (surface_forms_added s) (confirm_tokens_added s) (recipe_counts_added s)
     (new_entries_created s) (clusters_matched s) (S (clusters_unmatched s)).
End Stats.

Module Merger.

(** The character class [[a-z0-9\s-]]. *)
Definition slug_char (c : ascii) : bool :=
  Py.is_lower c || Py.is_digit c || Py.is_space c || Py.is_hyphen c.

Definition slugify (text : string) : string :=
  let s := Py.chars (Py.strip (Py.lower text)) in
  let s := Py.sub_delete slug_char s in
  let s := Py.sub_runs Py.is_space "-"%char false s in
  let s := Py.sub_runs Py.is_hyphen "-"%char false s in
  Py.str (Py.strip_chars Py.is_hyphen s).

(** The mutable state of [main]: the entry objects (the list [ontology];
    an entry is identified by its position), the two indexes, the
    statistics and the unmatched output.  [slug_to_entry] holds
    references to the entry objects, that is, positions. *)
Record state := mkState {
  ontology : list Entry.t;
  slug_to_entry : gmap string nat;
  surface_to_slug : gmap string string;
  stats : Stats.t;
  unmatched_clusters : list Unmatched.t
}.

(** [{e["slug"]: e for e in ontology}], from position [i] on. *)
Fixpoint index_slugs (i : nat) (ontology : list Entry.t) (m : gmap string nat)
    : gmap string nat :=
  match ontology with
  | [] => m
  | e :: rest => index_slugs (S i) rest (<[Entry.slug e := i]> m)
  end.

(** [for sf in e.get("surfaceForms", []): surface_to_slug[sf.lower()] = e["slug"]] *)
Definition index_forms (m : gmap string string) (e : Entry.t) : gmap string string :=
  fold_left (fun m sf => <[Py.lower sf := Entry.slug e]> m) (Entry.forms e) m.

Definition index_surfaces (ontology : list Entry.t) : gmap string string :=
  fold_left index_forms ontology ∅.

Definition init (ontology : list Entry.t) : state :=
  mkState ontology (index_slugs 0 ontology ∅) (index_surfaces ontology) Stats.zero [].

(** [all_forms = [canonical] + [a["name"] for a in aliases]] *)
Definition all_forms (c : Cluster.t) : list string :=
  Cluster.canonical c :: map Alias.name (Cluster.aliases c).

(** Step 3 of the match: the first alias found in the surface index. *)
Fixpoint match_alias (index : gmap string string) (aliases : list Alias.t)
    : option string :=
  match aliases with
  | [] => None
  | alias :: rest =>
      match index !! Py.lower (Alias.name alias) with
      | Some s => Some s
      | None => match_alias index rest
      end
  end.

(** The value of [matched_slug] after the three attempts. *)
Definition find_match (st : state) (c : Cluster.t) : option string :=
  match surface_to_slug st !! Py.lower (Cluster.canonical c) with
  | Some s => Some s
  | None =>
      let cluster_slug := slugify (Cluster.canonical c) in
      if bool_decide (is_Some (slug_to_entry st !! cluster_slug)) then Some cluster_slug
      else match_alias (surface_to_slug st) (Cluster.aliases c)
  end.

(** One iteration of the loop that adds surface forms; the accumulator is
    the ["surfaceForms"] key of the entry, [existing_forms] and the
    number of forms added. *)
Definition add_form (acc : option (list string) * gset string * nat) (form : string)
    : option (list string) * gset string * nat :=
  let '(sfs, existing_forms, added) := acc in
  if bool_decide (Py.lower form ∈ existing_forms) then acc
  else (Some (default [] sfs ++ [form]), {[Py.lower form]} ∪ existing_forms, S added).

(** [synonym_table[key]], the table given by its items in order. *)
Fixpoint table_get (table : list (string * list (list string))) (key : string)
    : option (list (list string)) :=
  match table with
  | [] => None
  | (k, v) :: rest => if String.eqb k key then Some v else table_get rest key
  end.

(** The update of a matched entry (the body of [if matched_slug:] between
    the lookup of [entry] and the update of [surface_to_slug]). *)
Definition merge_entry (synonym_table : list (string * list (list string)))
    (c : Cluster.t) (e : Entry.t) (s : Stats.t) : Entry.t * Stats.t :=
  let existing_forms : gset string := list_to_set (map Py.lower (Entry.forms e)) in
  let '(sfs, _, added) :=
    fold_left add_form (all_forms c) (Entry.surfaceForms e, existing_forms, 0%nat) in
  let s := Stats.add_surface_forms added s in
  let set_count :=
    match Entry.recipeCount e with
    | None => true
    | Some r => r <? Cluster.totalUsage c
    end in
  let rc := if set_count then Some (Cluster.totalUsage c) else Entry.recipeCount e in
  let s := if set_count then Stats.add_recipe_counts 1 s else s in
  let '(ct, s) :=
    match table_get synonym_table (Py.lower (Cluster.canonical c)), Entry.confirmTokens e with
    | Some confirm_tokens, None => (Some confirm_tokens, Stats.add_confirm_tokens 1 s)
    | _, _ => (Entry.confirmTokens e, s)
    end in
  (Entry.mk (Entry.slug e) (Entry.displayName e) sfs ct rc (Entry.fdcCandidate e), s).

(** [for form in all_forms: surface_to_slug[form.lower()] = matched_slug] *)
Definition register_forms (matched_slug : string) (c : Cluster.t)
    (index : gmap string string) : gmap string string :=
  fold_left (fun m form => <[Py.lower form := matched_slug]> m) (all_forms c) index.

Definition unmatched_record (c : Cluster.t) : Unmatched.t :=
  Unmatched.mk (Cluster.canonical c) (Cluster.totalUsage c)
    (map Alias.name (take 5 (Cluster.aliases c))).

(** The [else] branch of [if matched_slug:]. *)
Definition route_unmatched (st : state) (c : Cluster.t) : state :=
  mkState (ontology st) (slug_to_entry st) (surface_to_slug st)
    (Stats.incr_unmatched (stats st))
    (unmatched_clusters st ++ [unmatched_record c]).

(** The body of the loop over the clusters.  The result is [None] when
    [slug_to_entry[matched_slug]] raises [KeyError] (or the reference is
    dangling, which no state reached from [init] allows).  A matched slug
    that is the empty string is falsy and takes the [else] branch. *)
Definition process_cluster (synonym_table : list (string * list (list string)))
    (st : state) (c : Cluster.t) : option state :=
  match find_match st c with
  | Some matched_slug =>
      if String.eqb matched_slug "" then Some (route_unmatched st c)
      else
        i ← slug_to_entry st !! matched_slug;
        entry ← ontology st !! i;
        let '(entry', s) := merge_entry synonym_table c entry (Stats.incr_matched (stats st)) in
        Some (mkState (<[i := entry']> (ontology st)) (slug_to_entry st)
                (register_forms matched_slug c (surface_to_slug st))
                s (unmatched_clusters st))
  | None => Some (route_unmatched st c)
  end.

(** The body of the loop over [synonym_table.items()]. *)
Definition confirm_step (st : state) (item : string * list (list string))
    : option state :=
  let '(key, tokens) := item in
  match surface_to_slug st !! key with
  | Some slug =>
      if String.eqb slug "" then Some st
      else
        match slug_to_entry st !! slug with
        | Some i =>
            entry ← ontology st !! i;
            match Entry.confirmTokens entry with
            | None =>
                Some (mkState
                        (<[i := Entry.mk (Entry.slug entry) (Entry.displayName entry)
                                 (Entry.surfaceForms entry) (Some tokens)
                                 (Entry.recipeCount entry) (Entry.fdcCandidate entry)]>
                           (ontology st))
                        (slug_to_entry st) (surface_to_slug st)
                        (Stats.add_confirm_tokens 1 (stats st))
                        (unmatched_clusters st))
            | Some _ => Some st
            end
        | None => Some st
        end
  | None => Some st
  end.

(** A loop whose body may raise. *)
Fixpoint foldM {A B : Type} (f : A -> B -> option A) (a : A) (l : list B) : option A :=
  match l with
  | [] => Some a
  | b :: rest => a' ← f a b; foldM f a' rest
  end.

(** [ontology.sort(key=lambda e: e["slug"])] *)
Definition sort_ontology (ontology : list Entry.t) : list Entry.t :=
  Py.sort_by (fun x y => String.leb (Entry.slug x) (Entry.slug y)) ontology.

(** [unmatched_clusters.sort(key=lambda x: -x["count"])] *)
Definition sort_unmatched (us : list Unmatched.t) : list Unmatched.t :=
  Py.sort_by (fun x y => - Unmatched.count x <=? - Unmatched.count y) us.

(** The state after the two loops of [main]. *)
Definition run (clusters : list Cluster.t)
    (synonym_table : list (string * list (list string)))
    (ontology : list Entry.t) : option state :=
  st ← foldM (process_cluster synonym_table) (init ontology) clusters;
  foldM confirm_step st synonym_table.

(** What a run produces: the ontology written to
    [ingredient-ontology-v2.json], the clusters of
    [unmatched-clusters.json] and the statistics. *)
Record result := mkResult {
  merged : list Entry.t;
  unmatched : list Unmatched.t;
  final_stats : Stats.t
}.

Definition merge (clusters : list Cluster.t)
    (synonym_table : list (string * list (list string)))
    (ontology : list Entry.t) : option result :=
  st ← run clusters synonym_table ontology;
  Some (mkResult (sort_ontology (Merger.ontology st))
          (sort_unmatched (unmatched_clusters st)) (stats st)).

(** The character class [[a-z0-9\s]] of the merger's [tokenize]. *)
Definition word_char (c : ascii) : bool :=
  Py.is_lower c || Py.is_digit c || Py.is_space c.

Definition tokenize (text : string) : list string :=
  List.filter (fun t => (2 <=? Py.len t)%nat)
    (Py.split (Py.str (Py.sub_blank word_char (Py.chars (Py.lower text))))).

(** The figures of the final report:
    [sum(1 for e in ontology if "confirmTokens" in e)],
    [sum(1 for e in ontology if "recipeCount" in e)] and
    [sum(len(e.get("surfaceForms", [])) for e in ontology)]. *)
Definition with_confirm (ontology : list Entry.t) : nat :=
  length (List.filter (fun e => bool_decide (is_Some (Entry.confirmTokens e))) ontology).

Definition with_recipe_count (ontology : list Entry.t) : nat :=
  length (List.filter (fun e => bool_decide (is_Some (Entry.recipeCount e))) ontology).

Definition total_surface_forms (ontology : list Entry.t) : nat :=
  fold_left (fun acc e => (acc + length (Entry.forms e))%nat) ontology 0%nat.

End Merger.

(** ** expand-ontology-from-clusters.py *)

Module Expander.

(** [" ".join(text.lower().strip().split())] *)
Definition normalize_surface (text : string) : string :=
  Py.join " " (Py.split (Py.strip (Py.lower text))).

Definition slug_char (c : ascii) : bool :=
  Py.is_lower c || Py.is_digit c || Py.is_space c || Py.is_hyphen c.

Definition slugify (text : string) : string :=
  let s := Py.chars (Py.strip (Py.lower text)) in
  let s := Py.sub_delete slug_char s in
  let s := Py.sub_runs Py.is_space "-"%char false s in
  Py.str (Py.strip_chars Py.is_hyphen s).

(** [s.title()] on ASCII: a letter that follows a letter is lowercased,
    any other letter is uppercased. *)
Fixpoint title_chars (previous_is_cased : bool) (l : list ascii) : list ascii :=
  match l with
  | [] => []
  | c :: l' =>
      if Py.is_lower c then
        (if previous_is_cased then c else ascii_of_N (Py.code c - 32))
          :: title_chars true l'
      else if Py.is_upper c then
        (if previous_is_cased then Py.lower_char c else c) :: title_chars true l'
      else c :: title_chars false l'
  end.

Definition title (s : string) : string := Py.str (title_chars false (Py.chars s)).

(** [existing_slugs = {e["slug"] for e in ontology}] *)
Definition existing_slugs (ontology : list Entry.t) : gset string :=
  list_to_set (map Entry.slug ontology).

(** The set of the lowercased surface forms of all entries. *)
Definition existing_surfaces (ontology : list Entry.t) : gset string :=
  list_to_set (map Py.lower (concat (map Entry.forms ontology))).

(** The alias fallback of the candidate lookup. *)
Fixpoint alias_candidate (fdc_candidates : gmap string Candidate.t)
    (aliases : list string) : option Candidate.t :=
  match aliases with
  | [] => None
  | alias :: rest =>
      match fdc_candidates !! Py.lower alias with
      | Some m => Some m
      | None => alias_candidate fdc_candidates rest
      end
  end.

(** One iteration of the loop that assembles the surface forms; the
    accumulator is [(surface_forms, seen)]. *)
Definition add_alias (surfaces : gset string) (acc : list string * gset string)
    (alias : string) : list string * gset string :=
  let norm_alias := normalize_surface alias in
  if bool_decide (norm_alias ∉ acc.2) && bool_decide (norm_alias ∉ surfaces) then
    (acc.1 ++ [norm_alias], {[norm_alias]} ∪ acc.2)
  else acc.

(** The accumulators of the loop over the clusters. *)
Record acc := mkAcc {
  new_entries : list Entry.t;
  skipped_existing : nat;
  skipped_no_fdc : nat
}.

(** The body of the loop over the clusters; [slugs] and [surfaces] are
    the two sets computed from the ontology before the loop. *)
Definition expand_step (slugs surfaces : gset string)
    (fdc_candidates : gmap string Candidate.t)
    (a : acc) (cluster : Unmatched.t) : acc :=
  let canonical := Unmatched.canonical cluster in
  let aliases := Unmatched.aliases cluster in
  let slug := slugify canonical in
  if bool_decide (slug ∈ slugs) then
    mkAcc (new_entries a) (S (skipped_existing a)) (skipped_no_fdc a)
  else if bool_decide (normalize_surface canonical ∈ surfaces) then
    mkAcc (new_entries a) (S (skipped_existing a)) (skipped_no_fdc a)
  else
    let fdc_match :=
      match fdc_candidates !! Py.lower canonical with
      | Some m => Some m
      | None => alias_candidate fdc_candidates aliases
      end in
    let first := normalize_surface canonical in
    let surface_forms := (fold_left (add_alias surfaces) aliases ([first], {[first]})).1 in
    let entry :=
      Entry.mk slug (title canonical) (Some surface_forms) None
        (Some (Unmatched.count cluster)) (Some fdc_match) in
    mkAcc (new_entries a ++ [entry]) (skipped_existing a)
      (match fdc_match with Some _ => skipped_no_fdc a | None => S (skipped_no_fdc a) end).

(** The accumulators after the loop, over the clusters that pass the
    [--min-count] filter. *)
Definition process (clusters : list Unmatched.t)
    (fdc_candidates : gmap string Candidate.t)
    (ontology : list Entry.t) (min_count : Z) : acc :=
  fold_left
    (expand_step (existing_slugs ontology) (existing_surfaces ontology) fdc_candidates)
    (List.filter (fun c => min_count <=? Unmatched.count c) clusters)
    (mkAcc [] 0 0).

(** [new_entries.sort(key=lambda x: -x["recipeCount"])]; every new entry
    carries a recipe count. *)
Definition sort_new (es : list Entry.t) : list Entry.t :=
  Py.sort_by
    (fun x y => - default 0 (Entry.recipeCount x) <=? - default 0 (Entry.recipeCount y))
    es.

Definition sort_ontology (ontology : list Entry.t) : list Entry.t :=
  Py.sort_by (fun x y => String.leb (Entry.slug x) (Entry.slug y)) ontology.

(** The ontology written back by a run that is not a dry run. *)
Definition expand (clusters : list Unmatched.t)
    (fdc_candidates : gmap string Candidate.t)
    (ontology : list Entry.t) (min_count : Z) : list Entry.t :=
  sort_ontology
    (ontology ++ sort_new (new_entries (process clusters fdc_candidates ontology min_count))).

Definition LEMMAS : gmap string string := list_to_map [
  ("powdered", "powder"); ("granulated", "granule"); ("flaked", "flake");
  ("dried", "dry"); ("roasted", "roast"); ("toasted", "toast"); ("smoked", "smoke");
  ("minced", "mince"); ("chopped", "chop"); ("diced", "dice"); ("sliced", "slice");
  ("shredded", "shred"); ("grated", "grate"); ("crushed", "crush"); ("peeled", "peel");
  ("seeded", "seed"); ("pitted", "pit"); ("halved", "half"); ("quartered", "quarter");
  ("cubed", "cube"); ("mashed", "mash"); ("pureed", "puree"); ("melted", "melt");
  ("softened", "soften"); ("frozen", "freeze"); ("canned", "can"); ("pickled", "pickle");
  ("cloves", "clove"); ("heads", "head"); ("bulbs", "bulb"); ("stalks", "stalk");
  ("leaves", "leaf"); ("sprigs", "sprig"); ("bunches", "bunch"); ("ribs", "rib");
  ("potatoes", "potato"); ("tomatoes", "tomato"); ("onions", "onion");
  ("carrots", "carrot"); ("peppers", "pepper"); ("apples", "apple");
  ("eggs", "egg"); ("breasts", "breast"); ("thighs", "thigh"); ("chops", "chop");
  ("steaks", "steak"); ("berries", "berry"); ("cherries", "cherry");
  ("strawberries", "strawberry"); ("blueberries", "blueberry"); ("beans", "bean");
  ("peas", "pea"); ("nuts", "nut"); ("seeds", "seed"); ("flakes", "flake");
  ("chips", "chip"); ("crumbs", "crumb"); ("noodles", "noodle"); ("tortillas", "tortilla");
  ("olives", "olive"); ("mushrooms", "mushroom"); ("oranges", "orange");
  ("lemons", "lemon"); ("limes", "lime") ].

Definition lemmatize (word : string) : string := default word (LEMMAS !! word).

(** The character class [[a-z0-9\s]] of the expander's [tokenize]. *)
Definition word_char (c : ascii) : bool :=
  Py.is_lower c || Py.is_digit c || Py.is_space c.

(** [tokenize]: the set of the lemmas of the tokens. *)
Definition tokenize (text : string) : gset string :=
  list_to_set
    (map lemmatize
       (List.filter (fun t => (2 <=? Py.len t)%nat)
          (Py.split (Py.str (Py.sub_blank word_char (Py.chars (Py.lower text))))))).

(** An item of [needs_review] or [no_match] in [synonym-gaps.json].  The
    value of ["score"] is carried as the text of its JSON value, [None]
    when the key is absent. *)
Record gap_item := mkGap {
  ingredient : string;
  bestCandidate : option string;
  candidateCategory : option string;
  score : option string
}.

Section FdcFoods.

(** [float(v)] for the JSON value written [v]: the text of the resulting
    float, or [None] when the call raises ([TypeError] on [null], a list
    or an object, [ValueError] on a string that is not a number).  The
    conversion is Python's own and is left as a parameter. *)
Variable to_float : string -> option string.

(** The body of the loop of [load_fdc_foods]: an item without a candidate
    (absent, [null] or the empty string) is passed over.  The result is
    [None] when building the candidate raises: [item["score"]] on a
    missing key, or [float] on a value that does not convert. *)
Definition add_candidate (fdc_candidates : gmap string Candidate.t) (item : gap_item)
    : option (gmap string Candidate.t) :=
  let ing := Py.lower (ingredient item) in
  match bestCandidate item with
  | Some d =>
      if String.eqb d "" then Some fdc_candidates
      else
        raw ← score item;
        f ← to_float raw;
        Some (<[ing := Candidate.mk d (candidateCategory item) f]> fdc_candidates)
  | None => Some fdc_candidates
  end.

(** [load_fdc_foods]; [None] when it raises, which ends the run. *)
Definition load_fdc_foods (needs_review no_match : list gap_item)
    : option (gmap string Candidate.t) :=
  Merger.foldM add_candidate ∅ (needs_review ++ no_match).

End FdcFoods.

End Expander.

(** ** Notions used in the statements *)

Module Spec.

(** The cluster key of an ingredient string. *)
Definition cluster_key_of (ing : string) : string :=
  Builder.make_cluster_key (Builder.extract_base_and_form ing).1
    (Builder.extract_base_and_form ing).2.

(** The member that an item contributes to the group of key [k]. *)
Definition member_for (k : string) (min_freq : Z) (item : string * Z) : option Member.t :=
  match Builder.keyed_member min_freq item with
  | Some (k', m) => if String.eqb k' k then Some m else None
  | None => None
  end.

(** The members of the group of key [k], in the order of the input. *)
Definition group_of (k : string) (min_freq : Z) (freq : list (string * Z)) : list Member.t :=
  omap (member_for k min_freq) freq.

(** The form test of the classification rule. *)
Definition is_form (t : string) : bool :=
  bool_decide (t ∈ Builder.FORM_MODIFIERS)
  || bool_decide (Builder.lemmatize t ∈ Builder.FORM_MODIFIERS).

(** A token that is neither a form modifier nor a unit word. *)
Definition is_base (t : string) : bool :=
  negb (is_form t) && bool_decide (t ∉ Builder.UNIT_WORDS).

(** The references of a merger state are sound: [slug_to_entry] maps a
    slug to the position of an entry with that slug, and the surface
    index only holds slugs that [slug_to_entry] knows. *)
Definition refs_ok (st : Merger.state) : Prop :=
  (forall s i, Merger.slug_to_entry st !! s = Some i ->
     exists e, Merger.ontology st !! i = Some e /\ Entry.slug e = s)
  /\ (forall k s, Merger.surface_to_slug st !! k = Some s ->
        is_Some (Merger.slug_to_entry st !! s)).

(** [e'] is [e] up to confirm tokens that [e] lacked. *)
Definition tokens_only (e e' : Entry.t) : Prop :=
  Entry.slug e' = Entry.slug e
  /\ Entry.displayName e' = Entry.displayName e
  /\ Entry.surfaceForms e' = Entry.surfaceForms e
  /\ Entry.recipeCount e' = Entry.recipeCount e
  /\ Entry.fdcCandidate e' = Entry.fdcCandidate e
  /\ (is_Some (Entry.confirmTokens e) -> Entry.confirmTokens e' = Entry.confirmTokens e).

(** [e] with its confirm tokens set. *)
Definition with_tokens (tokens : list (list string)) (e : Entry.t) : Entry.t :=
  Entry.mk (Entry.slug e) (Entry.displayName e) (Entry.surfaceForms e) (Some tokens)
    (Entry.recipeCount e) (Entry.fdcCandidate e).

(** The slugify rule in the words of the specification, after the
    lowercasing: strip the characters outside [[a-z0-9]], whitespace and
    hyphen, collapse whitespace runs to single hyphens, collapse repeated
    hyphens, trim leading and trailing hyphens. *)
Definition rule_steps (l : list ascii) : list ascii :=
  Py.strip_chars Py.is_hyphen
    (Py.sub_runs Py.is_hyphen "-"%char false
       (Py.sub_runs Py.is_space "-"%char false (Py.sub_delete Merger.slug_char l))).

(** The slugify rule of the specification. *)
Definition slugify_rule (text : string) : string :=
  Py.str (rule_steps (Py.chars (Py.lower text))).

(** The lowercased names (canonical and aliases) of a cluster. *)
Definition names_lower (c : Cluster.t) : list string := map Py.lower (Merger.all_forms c).

(** The lowercased surface forms of an entry. *)
Definition lower_forms (e : Entry.t) : list string := map Py.lower (Entry.forms e).

(** The matched slug as the test [if matched_slug:] sees it: the empty
    string counts as no match. *)
Definition effective (m : option string) : option string :=
  match m with
  | Some s => if String.eqb s "" then None else Some s
  | None => None
  end.

(** The slug that a cluster matches against the indexes of an ontology. *)
Definition matched (o : list Entry.t) (c : Cluster.t) : option string :=
  effective (Merger.find_match (Merger.init o) c).

(** The entry already holds everything that merging the cluster would
    add to it. *)
Definition absorbs (table : list (string * list (list string))) (c : Cluster.t)
    (e : Entry.t) : Prop :=
  (forall k, k ∈ names_lower c -> k ∈ lower_forms e)
  /\ (exists r, Entry.recipeCount e = Some r /\ Cluster.totalUsage c <= r)
  /\ (is_Some (Merger.table_get table (Py.lower (Cluster.canonical c))) ->
      is_Some (Entry.confirmTokens e)).

(** [e'] is a later version of the entry [e]: the merger only adds. *)
Definition grows (e e' : Entry.t) : Prop :=
  Entry.slug e' = Entry.slug e
  /\ (forall k, k ∈ lower_forms e -> k ∈ lower_forms e')
  /\ (forall r, Entry.recipeCount e = Some r ->
        exists r', Entry.recipeCount e' = Some r' /\ r <= r')
  /\ (is_Some (Entry.confirmTokens e) -> is_Some (Entry.confirmTokens e')).

(** The surface index after the clusters [cs] are processed, when every
    cluster matches as it does against the ontology [o]. *)
Definition replay (o : list Entry.t) (cs : list Cluster.t) (index : gmap string string)
    : gmap string string :=
  fold_left
    (fun idx c =>
       match matched o c with
       | Some s => Merger.register_forms s c idx
       | None => idx
       end)
    cs index.

(** Unambiguous inputs of the merger: no surface form belongs to two
    entries or occurs twice in one (case-insensitively), and no name occurs
    in two clusters or twice in one (case-insensitively). *)
Definition distinct_forms (o : list Entry.t) : Prop := NoDup (concat (map lower_forms o)).
Definition distinct_names (cs : list Cluster.t) : Prop := NoDup (concat (map names_lower cs)).

(** A list in the order that [sort_by le] produces. *)
Fixpoint ordered {A : Type} (le : A -> A -> bool) (l : list A) : Prop :=
  match l with
  | [] => True
  | x :: l' => match l' with [] => True | y :: _ => le x y = true end /\ ordered le l'
  end.

(** The state of the first run after the clusters [P]: entries have only
    grown, each lowercased form of an entry comes from the input entry or
    from a cluster matched to it, every matched cluster is absorbed by its
    entry, and the surface index is the replayed one. *)
Definition run1_inv (o : list Entry.t) (table : list (string * list (list string)))
    (P : list Cluster.t) (st : Merger.state) : Prop :=
  refs_ok st
  /\ Merger.slug_to_entry st = Merger.slug_to_entry (Merger.init o)
  /\ Forall2 grows o (Merger.ontology st)
  /\ (forall i e' k,
        Merger.ontology st !! i = Some e' -> k ∈ lower_forms e' ->
        (exists e, o !! i = Some e /\ k ∈ lower_forms e)
        \/ (exists c, c ∈ P /\ k ∈ names_lower c
                      /\ matched o c = Some (Entry.slug e')))
  /\ (forall c s,
        c ∈ P -> matched o c = Some s ->
        exists i e', Merger.slug_to_entry st !! s = Some i
                     /\ Merger.ontology st !! i = Some e' /\ absorbs table c e')
  /\ Merger.surface_to_slug st = replay o P (Merger.index_surfaces o).

(** The entry that [slug_to_entry] refers to for the slug [s]: the last
    entry of the list with that slug. *)
Definition pointed (o : list Entry.t) (s : string) : option Entry.t :=
  last (List.filter (fun e => String.eqb (Entry.slug e) s) o).

(** What the first run guarantees of the merged ontology [o1]. *)
Definition run1_post (o : list Entry.t) (table : list (string * list (list string)))
    (cs : list Cluster.t) (o1 : list Entry.t) : Prop :=
  (forall s, s ∈ map Entry.slug o1 <-> s ∈ map Entry.slug o)
  /\ (forall e1 k,
        e1 ∈ o1 -> k ∈ lower_forms e1 ->
        (exists e, e ∈ o /\ Entry.slug e = Entry.slug e1 /\ k ∈ lower_forms e)
        \/ (exists c, c ∈ cs /\ k ∈ names_lower c
                      /\ matched o c = Some (Entry.slug e1)))
  /\ (forall e k,
        e ∈ o -> k ∈ lower_forms e ->
        exists e1, e1 ∈ o1 /\ Entry.slug e1 = Entry.slug e /\ k ∈ lower_forms e1)
  /\ (forall c s e1,
        c ∈ cs -> matched o c = Some s -> pointed o1 s = Some e1 ->
        absorbs table c e1)
  /\ (forall key tokens s e1,
        (key, tokens) ∈ table ->
        replay o cs (Merger.index_surfaces o) !! key = Some s -> s <> "" ->
        pointed o1 s = Some e1 -> is_Some (Entry.confirmTokens e1))
  /\ Merger.sort_ontology o1 = o1.

(** The state of the second run after the clusters [P]: nothing has
    changed but the surface index. *)
Definition run2_inv (o o1 : list Entry.t) (P : list Cluster.t) (st : Merger.state) : Prop :=
  refs_ok st
  /\ Merger.ontology st = o1
  /\ Merger.slug_to_entry st = Merger.slug_to_entry (Merger.init o1)
  /\ Merger.surface_to_slug st = replay o P (Merger.index_surfaces o1)
  /\ Stats.surface_forms_added (Merger.stats st) = 0%nat
  /\ Stats.confirm_tokens_added (Merger.stats st) = 0%nat
  /\ Stats.recipe_counts_added (Merger.stats st) = 0%nat.

(** *** Text shapes *)

(** The characters [[a-z0-9-]] of a builder token or of a slug. *)
Definition token_class (c : ascii) : bool :=
  Py.is_lower c || Py.is_digit c || Py.is_hyphen c.

(** The characters [[a-z0-9]]. *)
Definition alnum (c : ascii) : bool := Py.is_lower c || Py.is_digit c.

(** A token as the tokenizers produce it: at least two characters, all of
    the class [p]. *)
Definition token_of (p : ascii -> bool) (t : string) : Prop :=
  (2 <= Py.len t)%nat /\ Forall (fun c => p c = true) (Py.chars t).

(** A word of [s.split()]: not empty and free of whitespace. *)
Definition word (w : list ascii) : Prop :=
  w <> [] /\ Forall (fun c => Py.is_space c = false) w.

(** No two adjacent characters of the class [p]; [prev] tells whether the
    character before the list belongs to the class. *)
Fixpoint runs_free (p : ascii -> bool) (prev : bool) (l : list ascii) : bool :=
  match l with
  | [] => true
  | c :: l' => negb (prev && p c) && runs_free p (p c) l'
  end.

(** Only characters of [[a-z0-9-]], and no hyphen at either end. *)
Definition slug_trimmed (l : list ascii) : Prop :=
  Forall (fun c => token_class c = true) l
  /\ head l <> Some "-"%char /\ last l <> Some "-"%char.

(** A trimmed slug without a doubled hyphen. *)
Definition slug_shaped (l : list ascii) : Prop :=
  slug_trimmed l /\ runs_free Py.is_hyphen false l = true.

(** *** The corpus reader *)

(** The spelling under which [load_ingredients] counts an ingredient. *)
Definition norm (ing : string) : string := Py.strip (Py.lower ing).

(** The ingredient strings of the rows that decode, in order. *)
Definition ingredients_of (rows : list (option (list string))) : list string :=
  concat (omap id rows).

(** The number of ingredient strings of the corpus counted under [key]. *)
Definition occurrences (rows : list (option (list string))) (key : string) : nat :=
  length (List.filter (fun ing => String.eqb (norm ing) key) (ingredients_of rows)).

(** [freq.get(key)] *)
Fixpoint freq_get (key : string) (freq : list (string * Z)) : option Z :=
  match freq with
  | [] => None
  | (k, n) :: rest => if String.eqb k key then Some n else freq_get key rest
  end.

(** *** The merger, on arbitrary inputs *)

(** [e'] is [e] after merges: slug, display name and candidate are
    unchanged, surface forms are only appended, a confirm-token set that
    is present is kept, and the recipe count never decreases. *)
Definition extends (e e' : Entry.t) : Prop :=
  Entry.slug e' = Entry.slug e
  /\ Entry.displayName e' = Entry.displayName e
  /\ Entry.fdcCandidate e' = Entry.fdcCandidate e
  /\ Entry.forms e `prefix_of` Entry.forms e'
  /\ (forall t, Entry.confirmTokens e = Some t -> Entry.confirmTokens e' = Some t)
  /\ (forall r, Entry.recipeCount e = Some r ->
        exists r', Entry.recipeCount e' = Some r' /\ r <= r').

(** The figures of the final report agree with the counters: the entries
    [l] against the input entries [o] and the statistics [s]. *)
Definition tally (o l : list Entry.t) (s : Stats.t) : Prop :=
  Merger.total_surface_forms l
    = (Merger.total_surface_forms o + Stats.surface_forms_added s)%nat
  /\ Merger.with_confirm l = (Merger.with_confirm o + Stats.confirm_tokens_added s)%nat
  /\ (Merger.with_recipe_count o <= Merger.with_recipe_count l)%nat
  /\ (Merger.with_recipe_count l
      <= Merger.with_recipe_count o + Stats.recipe_counts_added s)%nat.

(** The cluster counters after the clusters [P]. *)
Definition ledger (P : list Cluster.t) (st : Merger.state) : Prop :=
  (Stats.clusters_matched (Merger.stats st) + Stats.clusters_unmatched (Merger.stats st)
   = length P)%nat
  /\ length (Merger.unmatched_clusters st) = Stats.clusters_unmatched (Merger.stats st)
  /\ Stats.new_entries_created (Merger.stats st) = 0%nat
  /\ (Stats.recipe_counts_added (Merger.stats st)
      <= Stats.clusters_matched (Merger.stats st))%nat
  /\ Merger.unmatched_clusters st `sublist_of` map Merger.unmatched_record P.

(** No cluster of [P] is lost: it is in the unmatched output or an entry
    absorbs it. *)
Definition conserved (table : list (string * list (list string))) (P : list Cluster.t)
    (l : list Entry.t) (us : list Unmatched.t) : Prop :=
  forall c, c ∈ P ->
    Merger.unmatched_record c ∈ us \/ exists e, (e ∈ l) /\ absorbs table c e.

(** *** The expander *)

(** The test on which the expander skips a cluster. *)
Definition skips (slugs surfaces : gset string) (c : Unmatched.t) : bool :=
  bool_decide (Expander.slugify (Unmatched.canonical c) ∈ slugs)
  || bool_decide (Expander.normalize_surface (Unmatched.canonical c) ∈ surfaces).

(** The entry that the expander builds for a cluster it does not skip. *)
Definition new_entry (surfaces : gset string) (fdc_candidates : gmap string Candidate.t)
    (c : Unmatched.t) : Entry.t :=
  let first := Expander.normalize_surface (Unmatched.canonical c) in
  Entry.mk (Expander.slugify (Unmatched.canonical c)) (Expander.title (Unmatched.canonical c))
    (Some (fold_left (Expander.add_alias surfaces) (Unmatched.aliases c) ([first], {[first]})).1)
    None (Some (Unmatched.count c))
    (Some match fdc_candidates !! Py.lower (Unmatched.canonical c) with
          | Some m => Some m
          | None => Expander.alias_candidate fdc_candidates (Unmatched.aliases c)
          end).

(** An entry created without a catalogue candidate. *)
Definition no_fdc (e : Entry.t) : bool :=
  match Entry.fdcCandidate e with Some None => true | _ => false end.

(** [item.get("bestCandidate")] is truthy. *)
Definition has_candidate (item : Expander.gap_item) : bool :=
  match Expander.bestCandidate item with
  | Some d => negb (String.eqb d "")
  | None => false
  end.

(** The candidate built from an item: its description, its category and
    its converted score; [None] when the score is missing or does not
    convert. *)
Definition stored (to_float : string -> option string) (item : Expander.gap_item)
    : option Candidate.t :=
  d ← Expander.bestCandidate item;
  f ← Expander.score item ≫= to_float;
  Some (Candidate.mk d (Expander.candidateCategory item) f).

(** Text of 7-bit characters, on which [str.title()] and [str.lower()]
    act on the letters [A-Z] and [a-z] only. *)
Definition ascii_text (s : string) : Prop :=
  Forall (fun c => (Py.code c <? 128)%N = true) (Py.chars s).

End Spec.

(** * Properties *)

(** ** Sorting *)

Section SortFacts.
Context {A : Type} (le : A -> A -> bool).

Lemma insert_sorted_perm (x : A) (l : list A) : Py.insert_sorted le x l ≡ₚ x :: l.
Proof.
  induction l as [|y l IH]; simpl; [done|].
  destruct (le x y); [done|].
  rewrite IH. apply Permutation_swap.
Qed.

Lemma sort_by_perm (l : list A) : Py.sort_by le l ≡ₚ l.
Proof.
  induction l as [|x l IH]; simpl; [done|].
  by rewrite insert_sorted_perm, IH.
Qed.

Lemma sort_by_length (l : list A) : length (Py.sort_by le l) = length l.
Proof. apply Permutation_length, sort_by_perm. Qed.

Lemma sort_by_elem_of (x : A) (l : list A) : x ∈ Py.sort_by le l ↔ x ∈ l.
Proof. by rewrite sort_by_perm. Qed.

(** The head of a stable sort is the first element that no other element
    strictly precedes. *)
Lemma sort_by_head (l1 l2 : list A) (m : A) :
  Forall (fun x => le x m = false) l1 ->
  Forall (fun x => le m x = true) l2 ->
  head (Py.sort_by le (l1 ++ m :: l2)) = Some m.
Proof.
  intros H1 H2. induction H1 as [|x l1 Hx H1 IH]; simpl.
  - destruct (Py.sort_by le l2) as [|y s] eqn:E; simpl; [done|].
    assert (y ∈ l2) as Hy by (rewrite <- sort_by_elem_of, E; left).
    rewrite Forall_forall in H2.
    by rewrite (H2 y Hy).
  - destruct (Py.sort_by le (l1 ++ m :: l2)) as [|y s]; simpl in *; [done|].
    injection IH as ->. by rewrite Hx.
Qed.
Lemma insert_sorted_below (x : A) (l : list A) :
  match l with [] => True | y :: _ => le x y = true end ->
  Py.insert_sorted le x l = x :: l.
Proof. destruct l as [|y l]; simpl; [done|]. by intros ->. Qed.

Lemma sort_by_ordered_id (l : list A) : Spec.ordered le l -> Py.sort_by le l = l.
Proof.
  induction l as [|x l IH]; simpl; [done|].
  intros [Hx Hl]. rewrite IH by done. by apply insert_sorted_below.
Qed.

Lemma insert_sorted_ordered (x : A) (l : list A) :
  (forall a b, le a b = true \/ le b a = true) ->
  Spec.ordered le l -> Spec.ordered le (Py.insert_sorted le x l).
Proof.
  intros Htot. induction l as [|y l IH]; simpl; [done|].
  intros [Hy Hl]. destruct (le x y) eqn:E; simpl; [done|].
  split; [|by apply IH].
  destruct l as [|z l]; simpl.
  - destruct (Htot x y); congruence.
  - destruct (le x z); [|done]. destruct (Htot x y); congruence.
Qed.

Lemma sort_by_ordered (l : list A) :
  (forall a b, le a b = true \/ le b a = true) -> Spec.ordered le (Py.sort_by le l).
Proof.
  intros Htot. induction l as [|x l IH]; simpl; [done|].
  by apply insert_sorted_ordered.
Qed.

(** A stable sort keeps the order of the elements that satisfy [P], when
    any two of them are equivalent for the order. *)
Lemma insert_sorted_filter (P : A -> bool) (x : A) (l : list A) :
  (forall a b, P a = true -> P b = true -> le a b = true) ->
  List.filter P (Py.insert_sorted le x l) =
    if P x then x :: List.filter P l else List.filter P l.
Proof.
  intros HP. induction l as [|y l IH]; [done|]. cbn [Py.insert_sorted].
  destruct (le x y) eqn:E; [done|].
  cbn [List.filter]. rewrite IH.
  destruct (P x) eqn:Px; [|done].
  destruct (P y) eqn:Py; [|done].
  rewrite (HP x y Px Py) in E. done.
Qed.

Lemma sort_by_filter (P : A -> bool) (l : list A) :
  (forall a b, P a = true -> P b = true -> le a b = true) ->
  List.filter P (Py.sort_by le l) = List.filter P l.
Proof.
  intros HP. induction l as [|x l IH]; [done|].
  cbn [Py.sort_by List.filter]. rewrite insert_sorted_filter by done. by rewrite IH.
Qed.

(** Sorting a sorted list changes nothing. *)
Lemma sort_by_idempotent (l : list A) :
  (forall a b, le a b = true \/ le b a = true) ->
  Py.sort_by le (Py.sort_by le l) = Py.sort_by le l.
Proof. intros Htot. by apply sort_by_ordered_id, sort_by_ordered. Qed.

End SortFacts.

(** ** The cluster builder *)

Section BuilderFacts.
Import Builder.

Lemma members_of_append_member (key k : string) (m : Member.t)
    (g : list (string * list Member.t)) :
  members_of k (append_member key m g) =
    if String.eqb key k then Some (default [] (members_of key g) ++ [m])
    else members_of k g.
Proof.
  induction g as [|[k0 ms] g IH]; simpl.
  - destruct (String.eqb_spec key k); simpl; by rewrite ?String.eqb_refl.
  - destruct (String.eqb_spec k0 key) as [->|Hne]; simpl.
    + destruct (String.eqb_spec key k); simpl; [done|].
      by destruct (String.eqb_spec key k).
    + rewrite IH.
      destruct (String.eqb_spec key k) as [->|Hk].
      * destruct (String.eqb_spec k0 k); [done|]. done.
      * done.
Qed.

Lemma members_of_group_step (k : string) (min_freq : Z)
    (g : list (string * list Member.t)) (item : string * Z) :
  members_of k (group_step min_freq g item) =
    match Spec.member_for k min_freq item with
    | Some m => Some (default [] (members_of k g) ++ [m])
    | None => members_of k g
    end.
Proof.
  unfold group_step, Spec.member_for.
  destruct (keyed_member min_freq item) as [[k' m]|]; [|done].
  rewrite members_of_append_member.
  by destruct (String.eqb_spec k' k) as [->|].
Qed.

Lemma members_of_fold (k : string) (min_freq : Z) (freq : list (string * Z))
    (g : list (string * list Member.t)) :
  members_of k (fold_left (group_step min_freq) freq g) =
    match members_of k g, Spec.group_of k min_freq freq with
    | None, [] => None
    | o, l => Some (default [] o ++ l)
    end.
Proof.
  revert g. induction freq as [|item freq IH]; intros g; simpl.
  - destruct (members_of k g); simpl; by rewrite ?app_nil_r.
  - rewrite IH, members_of_group_step. unfold Spec.group_of. simpl.
    destruct (Spec.member_for k min_freq item) as [m|]; simpl; [|done].
    destruct (members_of k g) as [ms|]; simpl.
    + by rewrite <- app_assoc.
    + done.
Qed.

(** The group of a key holds exactly the members that the admitted items
    of that key contribute, in the order of the input. *)
Lemma members_of_group_clusters (k : string) (freq : list (string * Z)) (min_freq : Z) :
  members_of k (group_clusters freq min_freq) =
    match Spec.group_of k min_freq freq with
    | [] => None
    | l => Some l
    end.
Proof. unfold group_clusters. by rewrite members_of_fold. Qed.

Lemma members_of_Some_group (k : string) (freq : list (string * Z)) (min_freq : Z)
    (ms : list Member.t) :
  members_of k (group_clusters freq min_freq) = Some ms ->
  ms = Spec.group_of k min_freq freq /\ ms <> [].
Proof.
  rewrite members_of_group_clusters.
  destruct (Spec.group_of k min_freq freq); [done|].
  intros [= <-]. done.
Qed.

Lemma members_of_elem_of (k : string) (ms : list Member.t)
    (g : list (string * list Member.t)) :
  NoDup g.*1 -> (k, ms) ∈ g -> members_of k g = Some ms.
Proof.
  induction g as [|[k0 ms0] g IH]; simpl; intros Hnd Hin.
  - by apply elem_of_nil in Hin.
  - apply NoDup_cons in Hnd as [Hk0 Hnd].
    apply elem_of_cons in Hin as [[= <- <-]|Hin].
    + by rewrite String.eqb_refl.
    + destruct (String.eqb_spec k0 k) as [->|]; [|by apply IH].
      exfalso. apply Hk0. apply list_elem_of_fmap. by exists (k, ms).
Qed.

Lemma append_member_keys (key : string) (m : Member.t)
    (g : list (string * list Member.t)) :
  (append_member key m g).*1 = if bool_decide (key ∈ g.*1) then g.*1 else g.*1 ++ [key].
Proof.
  induction g as [|[k0 ms] g IH]; csimpl; [done|].
  destruct (String.eqb_spec k0 key) as [->|Hne]; csimpl.
  - rewrite bool_decide_eq_true_2; [done|left].
  - rewrite IH. case_bool_decide as H1; case_bool_decide as H2; try done.
    + exfalso. apply H2. by right.
    + exfalso. apply elem_of_cons in H2 as [->|]; done.
Qed.

Lemma append_member_NoDup (key : string) (m : Member.t)
    (g : list (string * list Member.t)) :
  NoDup g.*1 -> NoDup (append_member key m g).*1.
Proof.
  intros Hnd. rewrite append_member_keys. case_bool_decide as H; [done|].
  apply NoDup_app. split_and!; [done| |apply NoDup_singleton].
  intros x Hx Hx'. apply list_elem_of_singleton in Hx' as ->. done.
Qed.

Lemma group_clusters_NoDup (freq : list (string * Z)) (min_freq : Z) :
  NoDup (group_clusters freq min_freq).*1.
Proof.
  unfold group_clusters.
  assert (forall g, NoDup g.*1 -> NoDup (fold_left (group_step min_freq) freq g).*1) as H.
  { induction freq as [|item freq IH]; intros g Hg; simpl; [done|].
    apply IH. unfold group_step.
    destruct (keyed_member min_freq item) as [[k m]|]; [|done].
    by apply append_member_NoDup. }
  apply H. constructor.
Qed.

Lemma elem_of_keys_members_of (k : string) (g : list (string * list Member.t)) :
  k ∈ g.*1 <-> is_Some (members_of k g).
Proof.
  induction g as [|[k0 ms] g IH]; csimpl.
  - split; [by intros ?%elem_of_nil|by intros [? ?]].
  - rewrite elem_of_cons, IH. destruct (String.eqb_spec k0 k) as [->|Hne].
    + split; [by eexists|by left].
    + split; [intros [?|?]; [by subst|done]|by right].
Qed.

Lemma member_for_perm (k : string) (min_freq : Z) (freq freq' : list (string * Z)) :
  freq ≡ₚ freq' -> Spec.group_of k min_freq freq ≡ₚ Spec.group_of k min_freq freq'.
Proof. intros H. unfold Spec.group_of. by rewrite H. Qed.

End BuilderFacts.

Section BuilderClaims.
Import Builder.

Lemma keyed_member_item (min_freq : Z) (item : string * Z) (k : string) (m : Member.t) :
  keyed_member min_freq item = Some (k, m) ->
  item = (Member.name m, Member.count m)
  /\ min_freq <= Member.count m
  /\ (Member.base m, Member.form m) = extract_base_and_form (Member.name m)
  /\ Member.base m <> []
  /\ k = Spec.cluster_key_of (Member.name m).
Proof.
  destruct item as [ing n]. unfold keyed_member, Spec.cluster_key_of.
  destruct (Z.ltb_spec n min_freq); [done|].
  destruct (extract_base_and_form ing) as [b f] eqn:E.
  destruct b as [|b0 b]; [done|].
  intros [= <- <-]; simpl. by rewrite E.
Qed.

Lemma keyed_member_admitted (min_freq : Z) (ing : string) (n : Z) :
  min_freq <= n -> (extract_base_and_form ing).1 <> [] ->
  keyed_member min_freq (ing, n) =
    Some (Spec.cluster_key_of ing,
          Member.mk ing n (extract_base_and_form ing).1 (extract_base_and_form ing).2).
Proof.
  intros Hn Hb. unfold keyed_member, Spec.cluster_key_of.
  destruct (Z.ltb_spec n min_freq); [lia|].
  destruct (extract_base_and_form ing) as [b f]; simpl in *.
  by destruct b.
Qed.

Lemma group_of_sublist (k : string) (min_freq : Z) (freq : list (string * Z)) :
  (fun m => (Member.name m, Member.count m)) <$> Spec.group_of k min_freq freq
    `sublist_of` freq.
Proof.
  induction freq as [|item freq IH]; csimpl; [constructor|].
  unfold Spec.group_of in *. csimpl.
  destruct (Spec.member_for k min_freq item) as [m|] eqn:E; csimpl.
  - unfold Spec.member_for in E.
    destruct (keyed_member min_freq item) as [[k' m']|] eqn:E'; [|done].
    destruct (String.eqb k' k); [|done]. injection E as ->.
    apply keyed_member_item in E' as (-> & _). by constructor.
  - by constructor.
Qed.

Lemma group_of_key (k : string) (min_freq : Z) (freq : list (string * Z)) (m : Member.t) :
  m ∈ Spec.group_of k min_freq freq -> Spec.cluster_key_of (Member.name m) = k.
Proof.
  unfold Spec.group_of. rewrite list_elem_of_omap. intros (item & _ & E).
  unfold Spec.member_for in E.
  destruct (keyed_member min_freq item) as [[k' m']|] eqn:E'; [|done].
  destruct (String.eqb_spec k' k) as [->|]; [|done]. injection E as ->.
  by apply keyed_member_item in E' as (_ & _ & _ & _ & ->).
Qed.

Lemma sum_counts_foldr (l : list Member.t) :
  sum_counts l = foldr Z.add 0 (Member.count <$> l).
Proof.
  unfold sum_counts.
  assert (forall a, fold_left (fun acc m => acc + Member.count m) l a
                    = a + foldr Z.add 0 (Member.count <$> l)) as H.
  { induction l as [|m l IH]; intros a; csimpl; [lia|]. rewrite IH. lia. }
  by rewrite H.
Qed.

Lemma foldr_add_perm (l l' : list Z) : l ≡ₚ l' -> foldr Z.add 0 l = foldr Z.add 0 l'.
Proof. induction 1; simpl; lia. Qed.

Lemma emit_Some (ms : list Member.t) (cl : Cluster.t) :
  emit ms = Some cl ->
  exists canonical rest,
    sort_members ms = canonical :: rest
    /\ Cluster.canonical cl = Member.name canonical
    /\ Cluster.aliases cl = map to_alias (List.filter (fun m => 5 <=? Member.count m) rest)
    /\ Cluster.totalUsage cl = foldr Z.add 0 (Member.count <$> ms).
Proof.
  unfold emit. destruct (sort_members ms) as [|c rest] eqn:E; [done|].
  intros H. exists c, rest.
  assert (sum_counts (c :: rest) = foldr Z.add 0 (Member.count <$> ms)) as Hsum.
  { rewrite sum_counts_foldr, <- E. apply foldr_add_perm.
    unfold sort_members. by rewrite sort_by_perm. }
  destruct ((length ms =? 1)%nat && (Member.count c <? 50)); [done|].
  simpl in H.
  destruct (map to_alias _) eqn:Ea in H.
  - destruct (50 <=? Member.count c); [|done].
    injection H as <-. simpl. by rewrite Ea.
  - injection H as <-. simpl. by rewrite Ea.
Qed.

Lemma elem_of_build_clusters (freq : list (string * Z)) (min_freq : Z) (cl : Cluster.t) :
  cl ∈ build_clusters freq min_freq ->
  exists k ms, members_of k (group_clusters freq min_freq) = Some ms /\ emit ms = Some cl.
Proof.
  unfold build_clusters, sort_output. rewrite sort_by_elem_of, list_elem_of_omap.
  intros (ms & Hms & Hemit).
  apply list_elem_of_fmap in Hms as ([k ms'] & -> & Hin).
  exists k, ms'. split; [|done].
  apply members_of_elem_of; [apply group_clusters_NoDup|done].
Qed.

(** C7: an emitted cluster comes from the group of its canonical's key;
    every admitted item of that key is a member of the group; a member
    whose count is below 5 contributes no alias, and [totalUsage] is the
    sum of the counts of all members of the group, that member included. *)
Theorem alias_filtering_total_usage (freq : list (string * Z)) (min_freq : Z)
    (cl : Cluster.t) :
  cl ∈ build_clusters freq min_freq ->
  exists ms,
    members_of (Spec.cluster_key_of (Cluster.canonical cl)) (group_clusters freq min_freq)
      = Some ms
    /\ (forall ing n,
          (ing, n) ∈ freq -> min_freq <= n -> (extract_base_and_form ing).1 <> [] ->
          Spec.cluster_key_of ing = Spec.cluster_key_of (Cluster.canonical cl) ->
          Member.mk ing n (extract_base_and_form ing).1 (extract_base_and_form ing).2 ∈ ms)
    /\ (forall m, m ∈ ms -> Member.count m < 5 -> to_alias m ∉ Cluster.aliases cl)
    /\ (forall a, a ∈ Cluster.aliases cl -> 5 <= Alias.count a)
    /\ Cluster.totalUsage cl = foldr Z.add 0 (Member.count <$> ms).
Proof.
  intros Hcl. apply elem_of_build_clusters in Hcl as (k & ms & Hk & Hemit).
  apply emit_Some in Hemit as (c & rest & Hsort & Hcan & Hal & Htot).
  pose proof (members_of_Some_group _ _ _ _ Hk) as [Hms _].
  assert (c ∈ ms) as Hc.
  { unfold sort_members in Hsort. eapply sort_by_elem_of. rewrite Hsort. left. }
  assert (Spec.cluster_key_of (Cluster.canonical cl) = k) as Hkey.
  { rewrite Hcan. apply (group_of_key k min_freq freq). by rewrite <- Hms. }
  rewrite Hkey. exists ms.
  assert (forall a, a ∈ Cluster.aliases cl -> 5 <= Alias.count a) as Hfloor.
  { intros a. rewrite Hal, list_elem_of_In, in_map_iff. intros (m & <- & Hm).
    apply filter_In in Hm as [_ Hm]. simpl. lia. }
  split_and!; try done.
  - intros ing n Hin Hn Hb Hk'. rewrite Hms. unfold Spec.group_of.
    apply list_elem_of_omap. exists (ing, n). split; [done|].
    unfold Spec.member_for. rewrite keyed_member_admitted by done.
    rewrite Hk'. by rewrite String.eqb_refl.
  - intros m _ Hlow Hin. apply Hfloor in Hin. simpl in Hin. lia.
Qed.

Lemma alias_filtering_total_usage_witness :
  let freq := [("garlic powder", 100); ("powdered garlic", 3)] in
  let cl := Cluster.mk "garlic powder" 100 ["garlic"] "powder" [] 103 in
  exists ms,
    members_of (Spec.cluster_key_of (Cluster.canonical cl)) (group_clusters freq 1) = Some ms
    /\ (forall ing n,
          (ing, n) ∈ freq -> 1 <= n -> (extract_base_and_form ing).1 <> [] ->
          Spec.cluster_key_of ing = Spec.cluster_key_of (Cluster.canonical cl) ->
          Member.mk ing n (extract_base_and_form ing).1 (extract_base_and_form ing).2 ∈ ms)
    /\ (forall m, m ∈ ms -> Member.count m < 5 -> to_alias m ∉ Cluster.aliases cl)
    /\ (forall a, a ∈ Cluster.aliases cl -> 5 <= Alias.count a)
    /\ Cluster.totalUsage cl = foldr Z.add 0 (Member.count <$> ms).
Proof.
  intros freq cl. apply (alias_filtering_total_usage freq 1 cl).
  vm_compute. left.
Defined.

End BuilderClaims.

Section BuilderOrder.
Import Builder.

(** C8: permuting the frequency table changes neither the set of cluster
    keys nor the set of members of any key; the members of a group are
    kept in the order of the input, and the canonical member (the head of
    the sorted group) is the first member of the group whose count no
    other member exceeds. *)
Theorem clustering_permutation_invariance (freq freq' : list (string * Z)) (min_freq : Z) :
  freq ≡ₚ freq' ->
  (forall k, k ∈ (group_clusters freq min_freq).*1 <-> k ∈ (group_clusters freq' min_freq).*1)
  /\ (forall k m,
        m ∈ default [] (members_of k (group_clusters freq min_freq)) <->
        m ∈ default [] (members_of k (group_clusters freq' min_freq)))
  /\ (forall k ms,
        members_of k (group_clusters freq min_freq) = Some ms ->
        (fun m => (Member.name m, Member.count m)) <$> ms `sublist_of` freq
        /\ forall l1 m l2,
             ms = l1 ++ m :: l2 ->
             Forall (fun x => Member.count x < Member.count m) l1 ->
             Forall (fun x => Member.count x <= Member.count m) l2 ->
             head (sort_members ms) = Some m).
Proof.
  intros Hperm.
  assert (forall k m,
             m ∈ default [] (members_of k (group_clusters freq min_freq)) <->
             m ∈ default [] (members_of k (group_clusters freq' min_freq))) as Hmem.
  { intros k m. rewrite !members_of_group_clusters.
    pose proof (member_for_perm k min_freq _ _ Hperm) as Hp.
    destruct (Spec.group_of k min_freq freq) as [|a l] eqn:E;
      destruct (Spec.group_of k min_freq freq') as [|a' l'] eqn:E'; simpl.
    - done.
    - by apply Permutation_nil_cons in Hp.
    - symmetry in Hp. by apply Permutation_nil_cons in Hp.
    - by rewrite Hp. }
  split_and!; [|done|].
  - intros k. rewrite !elem_of_keys_members_of, !members_of_group_clusters.
    pose proof (member_for_perm k min_freq _ _ Hperm) as Hp.
    destruct (Spec.group_of k min_freq freq) as [|a l] eqn:E;
      destruct (Spec.group_of k min_freq freq') as [|a' l'] eqn:E'; try done.
    + by apply Permutation_nil_cons in Hp.
    + symmetry in Hp. by apply Permutation_nil_cons in Hp.
  - intros k ms Hk. apply members_of_Some_group in Hk as [-> _]. split.
    + apply group_of_sublist.
    + intros l1 m l2 -> H1 H2. unfold sort_members. apply sort_by_head.
      * eapply Forall_impl; [exact H1|]. intros x Hx. simpl in Hx.
        apply Z.leb_gt. lia.
      * eapply Forall_impl; [exact H2|]. intros x Hx. simpl in Hx.
        apply Z.leb_le. lia.
Qed.

Lemma clustering_permutation_invariance_witness :
  let freq := [("garlic powder", 55); ("powdered garlic", 55); ("salt", 40)] in
  let freq' := [("salt", 40); ("powdered garlic", 55); ("garlic powder", 55)] in
  (forall k, k ∈ (group_clusters freq 5).*1 <-> k ∈ (group_clusters freq' 5).*1)
  /\ (forall k m,
        m ∈ default [] (members_of k (group_clusters freq 5)) <->
        m ∈ default [] (members_of k (group_clusters freq' 5)))
  /\ (forall k ms,
        members_of k (group_clusters freq 5) = Some ms ->
        (fun m => (Member.name m, Member.count m)) <$> ms `sublist_of` freq
        /\ forall l1 m l2,
             ms = l1 ++ m :: l2 ->
             Forall (fun x => Member.count x < Member.count m) l1 ->
             Forall (fun x => Member.count x <= Member.count m) l2 ->
             head (sort_members ms) = Some m).
Proof.
  intros freq freq'. apply (clustering_permutation_invariance freq freq' 5).
  unfold freq, freq'.
  apply (Permutation_rev [("garlic powder", 55); ("powdered garlic", 55); ("salt", 40)]).
Defined.

Lemma classify_with_form (forms units : gset string) (lem : string -> string)
    (b f : list string) (t : string) :
  t ∈ forms \/ lem t ∈ forms ->
  classify_with forms units lem (b, f) t = (b, f ++ [lem t]).
Proof.
  intros H. unfold classify_with. cbn [fst snd].
  destruct H as [H|H]; rewrite (bool_decide_eq_true_2 _ H); [done|].
  by rewrite orb_true_r.
Qed.

Lemma classify_with_not_form (forms units : gset string) (lem : string -> string)
    (b f : list string) (t : string) :
  ~ (t ∈ forms \/ lem t ∈ forms) ->
  classify_with forms units lem (b, f) t =
    if bool_decide (t ∈ units) then (b, f) else (b ++ [t], f).
Proof.
  intros H. unfold classify_with. cbn [fst snd].
  rewrite (bool_decide_eq_false_2 (t ∈ forms)) by tauto.
  rewrite (bool_decide_eq_false_2 (lem t ∈ forms)) by tauto. cbn [orb].
  destruct (decide (t ∈ units)) as [Hu|Hu].
  - rewrite (bool_decide_eq_true_2 _ Hu).
    by rewrite (bool_decide_eq_false_2 (t ∉ units)) by tauto.
  - rewrite (bool_decide_eq_false_2 _ Hu).
    by rewrite (bool_decide_eq_true_2 (t ∉ units)) by done.
Qed.

Lemma extract_fold_with (forms units : gset string) (lem : string -> string)
    (tokens : list string) (b f : list string) :
  fold_left (classify_with forms units lem) tokens (b, f) =
    (b ++ List.filter
            (fun t => negb (bool_decide (t ∈ forms) || bool_decide (lem t ∈ forms))
                      && bool_decide (t ∉ units)) tokens,
     f ++ map lem
            (List.filter (fun t => bool_decide (t ∈ forms) || bool_decide (lem t ∈ forms))
               tokens)).
Proof.
  revert b f. induction tokens as [|t tokens IH]; intros b f.
  - cbn [fold_left List.filter map]. by rewrite !app_nil_r.
  - cbn [fold_left List.filter].
    destruct (decide (t ∈ forms \/ lem t ∈ forms)) as [H|H].
    + rewrite classify_with_form by done. rewrite IH.
      assert (bool_decide (t ∈ forms) || bool_decide (lem t ∈ forms) = true) as ->.
      { destruct H as [H|H]; rewrite (bool_decide_eq_true_2 _ H); [done|].
        by rewrite orb_true_r. }
      cbn [negb andb map]. by rewrite <- app_assoc.
    + rewrite classify_with_not_form by done.
      rewrite (bool_decide_eq_false_2 (t ∈ forms)) by tauto.
      rewrite (bool_decide_eq_false_2 (lem t ∈ forms)) by tauto.
      cbn [orb negb andb].
      destruct (decide (t ∈ units)) as [Hu|Hu].
      * rewrite (bool_decide_eq_true_2 _ Hu).
        rewrite (bool_decide_eq_false_2 (t ∉ units)) by tauto. by rewrite IH.
      * rewrite (bool_decide_eq_false_2 _ Hu).
        rewrite (bool_decide_eq_true_2 (t ∉ units)) by done.
        rewrite IH. by rewrite <- app_assoc.
Qed.

Lemma extract_fold (tokens : list string) (b f : list string) :
  fold_left classify_step tokens (b, f) =
    (b ++ List.filter Spec.is_base tokens,
     f ++ map lemmatize (List.filter Spec.is_form tokens)).
Proof. exact (extract_fold_with FORM_MODIFIERS UNIT_WORDS lemmatize tokens b f). Qed.

(** The three cases of the classification, for any vocabularies. *)
Lemma classification_with (forms units : gset string) (lem : string -> string)
    (t : string) (b f : list string) :
  ((t ∈ forms \/ lem t ∈ forms) <->
     classify_with forms units lem (b, f) t = (b, f ++ [lem t]))
  /\ (~ (t ∈ forms \/ lem t ∈ forms) ->
      (t ∈ units <-> classify_with forms units lem (b, f) t = (b, f)))
  /\ (~ (t ∈ forms \/ lem t ∈ forms) -> t ∉ units ->
      classify_with forms units lem (b, f) t = (b ++ [t], f)).
Proof.
  assert (forall x : list string, x <> x ++ [t]) as Hb.
  { intros x H. apply (f_equal length) in H. rewrite length_app in H.
    cbn [length] in H. lia. }
  assert (forall x : list string, x <> x ++ [lem t]) as Hf.
  { intros x H. apply (f_equal length) in H. rewrite length_app in H.
    cbn [length] in H. lia. }
  split_and!.
  - split; [apply classify_with_form|].
    intros H. destruct (decide (t ∈ forms \/ lem t ∈ forms)) as [|Hn]; [done|].
    rewrite classify_with_not_form in H by done. exfalso.
    destruct (bool_decide (t ∈ units)).
    + injection H as H1. by apply (Hf f).
    + injection H as H1 H2. by apply (Hf f).
  - intros Hn. rewrite classify_with_not_form by done.
    destruct (decide (t ∈ units)) as [Hu|Hu].
    + rewrite (bool_decide_eq_true_2 _ Hu). by split.
    + rewrite (bool_decide_eq_false_2 _ Hu). split; [done|].
      intros H. injection H as H1. symmetry in H1. by apply Hb in H1.
  - intros Hn Hu. rewrite classify_with_not_form by done.
    by rewrite (bool_decide_eq_false_2 _ Hu).
Qed.

(** C6: a token is classified as form, and its lemma emitted, exactly
    when the token or its lemma is a form modifier; otherwise it is
    dropped exactly when it is a unit word; otherwise it is emitted
    unchanged as a base token.  The form test comes first, whatever the
    vocabularies are; an ingredient's base and form lists are its tokens
    filtered accordingly. *)
Theorem token_classification (t : string) (b f : list string) :
  ((t ∈ FORM_MODIFIERS \/ lemmatize t ∈ FORM_MODIFIERS) <->
     classify_step (b, f) t = (b, f ++ [lemmatize t]))
  /\ (~ (t ∈ FORM_MODIFIERS \/ lemmatize t ∈ FORM_MODIFIERS) ->
      (t ∈ UNIT_WORDS <-> classify_step (b, f) t = (b, f)))
  /\ (~ (t ∈ FORM_MODIFIERS \/ lemmatize t ∈ FORM_MODIFIERS) -> t ∉ UNIT_WORDS ->
      classify_step (b, f) t = (b ++ [t], f))
  /\ (forall (forms units : gset string) (lem : string -> string),
        t ∈ forms -> t ∈ units ->
        classify_with forms units lem (b, f) t = (b, f ++ [lem t]))
  /\ (forall ingredient,
        extract_base_and_form ingredient =
          (List.filter Spec.is_base (tokenize ingredient),
           map lemmatize (List.filter Spec.is_form (tokenize ingredient)))).
Proof.
  destruct (classification_with FORM_MODIFIERS UNIT_WORDS lemmatize t b f) as (H1 & H2 & H3).
  split_and!.
  - exact H1.
  - exact H2.
  - exact H3.
  - intros forms units lem Hf _. apply classify_with_form. by left.
  - intros ingredient. unfold extract_base_and_form. apply extract_fold.
Qed.

Lemma token_classification_witness :
  classify_step (["garlic"], []) "sliced" = (["garlic"], ["slice"])
  /\ classify_step (["garlic"], []) "cloves" = (["garlic"], [])
  /\ classify_step (["garlic"], []) "cloves2" = (["garlic"; "cloves2"], []).
Proof.
  split_and!.
  - apply (proj1 (token_classification "sliced" ["garlic"] [])). left. by vm_compute.
  - apply (proj1 (proj2 (token_classification "cloves" ["garlic"] []))).
    + vm_compute. intros [H|H]; discriminate H.
    + by vm_compute.
  - apply (proj1 (proj2 (proj2 (token_classification "cloves2" ["garlic"] [])))).
    + vm_compute. intros [H|H]; discriminate H.
    + vm_compute. intros H; discriminate H.
Defined.

(** C4: on the table of the end-to-end example the builder emits exactly
    the three garlic singletons, in this order; ["salt"] forms a group of
    its own, which is not emitted. *)
Theorem end_to_end_garlic :
  let freq := [("fresh garlic", 100); ("garlic", 80); ("minced garlic", 60); ("salt", 10)] in
  build_clusters freq 5 =
    [ Cluster.mk "fresh garlic" 100 ["garlic"] "fresh" [] 100;
      Cluster.mk "garlic" 80 ["garlic"] "base" [] 80;
      Cluster.mk "minced garlic" 60 ["garlic"] "mince" [] 60 ]
  /\ extract_base_and_form "fresh garlic" = (["garlic"], ["fresh"])
  /\ extract_base_and_form "garlic" = (["garlic"], [])
  /\ extract_base_and_form "minced garlic" = (["garlic"], ["mince"])
  /\ group_clusters freq 5 =
       [ ("garlic|fresh", [Member.mk "fresh garlic" 100 ["garlic"] ["fresh"]]);
         ("garlic|base", [Member.mk "garlic" 80 ["garlic"] []]);
         ("garlic|mince", [Member.mk "minced garlic" 60 ["garlic"] ["mince"]]);
         ("salt|base", [Member.mk "salt" 10 ["salt"] []]) ]
  /\ emit [Member.mk "salt" 10 ["salt"] []] = None
  /\ Forall (fun c => 50 <= Cluster.count c /\ Cluster.aliases c = [])
       (build_clusters freq 5).
Proof.
  intros freq. split_and!; try by vm_compute.
  vm_compute. repeat constructor; discriminate.
Qed.

End BuilderOrder.

(** ** The names of the emitted clusters *)

Section BuilderNames.
Import Builder.

Lemma submseteq_NoDup {A : Type} (l k : list A) : l ⊆+ k -> NoDup k -> NoDup l.
Proof.
  intros [k' Hk]%submseteq_Permutation Hnd. rewrite Hk in Hnd.
  by apply NoDup_app in Hnd as (? & _).
Qed.

Lemma filter_sublist {A : Type} (P : A -> bool) (l : list A) :
  List.filter P l `sublist_of` l.
Proof.
  induction l as [|x l IH]; simpl; [constructor|].
  destruct (P x); by constructor.
Qed.

Lemma concat_map_perm {A B : Type} (f : A -> list B) (l l' : list A) :
  l ≡ₚ l' -> concat (map f l) ≡ₚ concat (map f l').
Proof.
  induction 1 as [|x l l' _ IH|x y l|l1 l2 l3 _ IH1 _ IH2]; simpl.
  - done.
  - by rewrite IH.
  - rewrite !app_assoc. f_equiv. apply Permutation_app_comm.
  - by rewrite IH1.
Qed.

(** The names of all members of all groups. *)
Lemma append_member_names (key : string) (m : Member.t)
    (g : list (string * list Member.t)) :
  concat (map (fun p => map Member.name p.2) (append_member key m g))
  ≡ₚ Member.name m :: concat (map (fun p => map Member.name p.2) g).
Proof.
  induction g as [|[k0 ms] g IH]; simpl; [done|].
  destruct (String.eqb k0 key); simpl.
  - rewrite map_app. simpl. rewrite <- app_assoc. simpl.
    by rewrite <- Permutation_middle.
  - rewrite IH. by rewrite <- Permutation_middle.
Qed.

Lemma group_names_fold (min_freq : Z) (freq : list (string * Z))
    (g : list (string * list Member.t)) :
  concat (map (fun p => map Member.name p.2) (fold_left (group_step min_freq) freq g))
  ⊆+ concat (map (fun p => map Member.name p.2) g) ++ map fst freq.
Proof.
  revert g. induction freq as [|item freq IH]; intros g; simpl.
  - by rewrite app_nil_r.
  - etrans; [apply IH|]. unfold group_step.
    destruct (keyed_member min_freq item) as [[k m]|] eqn:E.
    + apply keyed_member_item in E as (-> & _). simpl.
      rewrite append_member_names. by rewrite <- Permutation_middle.
    + apply submseteq_skips_l. by apply submseteq_cons.
Qed.

Lemma emit_names (ms : list Member.t) (cl : Cluster.t) :
  emit ms = Some cl -> Merger.all_forms cl ⊆+ map Member.name ms.
Proof.
  intros H. apply emit_Some in H as (c & rest & Hsort & Hcan & Hal & _).
  unfold Merger.all_forms. rewrite Hcan, Hal, map_map. simpl.
  assert (map Member.name ms ≡ₚ map Member.name (c :: rest)) as ->.
  { apply Permutation_map. rewrite <- Hsort. unfold sort_members.
    symmetry. apply sort_by_perm. }
  simpl. apply submseteq_skip. apply sublist_submseteq.
  change (map (fun x => Alias.name (to_alias x))) with (map Member.name).
  apply (fmap_sublist Member.name), filter_sublist.
Qed.

Lemma emitted_names (mss : list (list Member.t)) :
  concat (map Merger.all_forms (omap emit mss)) ⊆+ concat (map (map Member.name) mss).
Proof.
  induction mss as [|ms mss IH]; [done|].
  cbn [omap list_omap map concat]. destruct (emit ms) as [cl|] eqn:E.
  - cbn [map concat]. apply submseteq_app; [by apply emit_names|done].
  - by apply submseteq_inserts_l.
Qed.

(** Every name of an emitted cluster is an ingredient of the table, as
    often as it occurs there. *)
Lemma build_clusters_names (freq : list (string * Z)) (min_freq : Z) :
  concat (map Merger.all_forms (build_clusters freq min_freq)) ⊆+ map fst freq.
Proof.
  unfold build_clusters, sort_output.
  rewrite (concat_map_perm Merger.all_forms _ _ (sort_by_perm _ _)).
  etrans; [apply emitted_names|].
  rewrite map_map.
  etrans; [apply (group_names_fold min_freq freq [])|]. done.
Qed.

(** The clusters built from a table whose ingredients are pairwise
    distinct up to case have pairwise distinct names up to case: the
    builder's output is a well-formed input of the merger. *)
Lemma build_clusters_distinct_names (freq : list (string * Z)) (min_freq : Z) :
  NoDup (map (fun item => Py.lower item.1) freq) ->
  Spec.distinct_names (build_clusters freq min_freq).
Proof.
  intros Hnd. unfold Spec.distinct_names.
  assert (forall cs : list Cluster.t,
             concat (map Spec.names_lower cs)
             = map Py.lower (concat (map Merger.all_forms cs))) as Hcat.
  { intros cs. induction cs as [|c cs IH]; simpl; [done|].
    by rewrite map_app, IH. }
  rewrite Hcat.
  eapply submseteq_NoDup; [|exact Hnd].
  rewrite <- (map_map fst Py.lower).
  apply (fmap_submseteq Py.lower), build_clusters_names.
Qed.

End BuilderNames.

(** ** The slugify rule *)

Section SlugifyRule.

Implicit Types (l m : list ascii) (c r : ascii) (p : ascii -> bool).

Lemma sub_runs_snoc p r (b : bool) l c :
  p c = true ->
  exists t, (t = [] \/ t = [r]) /\ Py.sub_runs p r b (l ++ [c]) = Py.sub_runs p r b l ++ t.
Proof.
  intros Hc. revert b. induction l as [|x l IH]; intros b; simpl.
  - rewrite Hc. destruct b; [exists []|exists [r]]; auto.
  - destruct (p x).
    + destruct (IH true) as (t & Ht & ->). exists t. by destruct b.
    + destruct (IH false) as (t & Ht & ->). by exists t.
Qed.

Lemma sub_runs_head p r l :
  exists t, (t = [] \/ t = [r]) /\ Py.sub_runs p r false l = t ++ Py.sub_runs p r true l.
Proof.
  destruct l as [|x l]; simpl; [exists []; auto|].
  destruct (p x); [exists [r]|exists []]; auto.
Qed.

Lemma strip_chars_cons p c l : p c = true -> Py.strip_chars p (c :: l) = Py.strip_chars p l.
Proof. intros Hc. unfold Py.strip_chars. simpl. by rewrite Hc. Qed.

Lemma lstrip_chars_snoc p c l :
  p c = true ->
  Py.lstrip_chars p (l ++ [c]) =
    match Py.lstrip_chars p l with [] => [] | z => z ++ [c] end.
Proof.
  intros Hc. induction l as [|x l IH]; simpl; [by rewrite Hc|].
  destruct (p x); [done|done].
Qed.

Lemma strip_chars_snoc p c l : p c = true -> Py.strip_chars p (l ++ [c]) = Py.strip_chars p l.
Proof.
  intros Hc. unfold Py.strip_chars. rewrite lstrip_chars_snoc by done.
  destruct (Py.lstrip_chars p l) as [|z zs]; [done|].
  rewrite rev_app_distr. simpl. by rewrite Hc.
Qed.

Lemma space_is_slug_char c : Py.is_space c = true -> Merger.slug_char c = true.
Proof. unfold Merger.slug_char. intros ->. by rewrite !orb_true_r. Qed.

Lemma hyphen_is_hyphen : Py.is_hyphen "-"%char = true.
Proof. done. Qed.

Lemma rule_steps_hyphen_cons (x : list ascii) :
  Py.strip_chars Py.is_hyphen (Py.sub_runs Py.is_hyphen "-"%char false ("-"%char :: x)) =
  Py.strip_chars Py.is_hyphen (Py.sub_runs Py.is_hyphen "-"%char false x).
Proof.
  simpl. rewrite strip_chars_cons by done.
  destruct (sub_runs_head Py.is_hyphen "-"%char x) as (t & [->| ->] & ->); simpl; [done|].
  by rewrite strip_chars_cons.
Qed.

(** A leading whitespace character does not change the result. *)
Lemma rule_steps_cons_space c l :
  Py.is_space c = true -> Spec.rule_steps (c :: l) = Spec.rule_steps l.
Proof.
  intros Hc. unfold Spec.rule_steps, Py.sub_delete. simpl.
  rewrite (space_is_slug_char c Hc). simpl. rewrite Hc.
  destruct (sub_runs_head Py.is_space "-"%char (List.filter Merger.slug_char l))
    as (t & [->| ->] & ->).
  - simpl. apply rule_steps_hyphen_cons.
  - done.
Qed.

(** A trailing whitespace character does not change the result. *)
Lemma rule_steps_snoc_space c l :
  Py.is_space c = true -> Spec.rule_steps (l ++ [c]) = Spec.rule_steps l.
Proof.
  intros Hc. unfold Spec.rule_steps, Py.sub_delete.
  rewrite List.filter_app. simpl. rewrite (space_is_slug_char c Hc).
  destruct (sub_runs_snoc Py.is_space "-"%char false (List.filter Merger.slug_char l) c Hc)
    as (t & [->| ->] & ->).
  - by rewrite app_nil_r.
  - destruct (sub_runs_snoc Py.is_hyphen "-"%char false
                (Py.sub_runs Py.is_space "-"%char false (List.filter Merger.slug_char l))
                "-"%char hyphen_is_hyphen) as (t & [->| ->] & ->).
    + by rewrite app_nil_r.
    + by apply strip_chars_snoc.
Qed.

Lemma rule_steps_lstrip l :
  Spec.rule_steps (Py.lstrip_chars Py.is_space l) = Spec.rule_steps l.
Proof.
  induction l as [|c l IH]; simpl; [done|].
  destruct (Py.is_space c) eqn:Hc; [|done]. by rewrite IH, rule_steps_cons_space.
Qed.

Lemma rule_steps_rstrip m :
  Spec.rule_steps (rev (Py.lstrip_chars Py.is_space m)) = Spec.rule_steps (rev m).
Proof.
  induction m as [|c m IH]; simpl; [done|].
  destruct (Py.is_space c) eqn:Hc; [|done]. by rewrite IH, rule_steps_snoc_space.
Qed.

Lemma rule_steps_strip l :
  Spec.rule_steps (Py.strip_chars Py.is_space l) = Spec.rule_steps l.
Proof.
  unfold Py.strip_chars. by rewrite rule_steps_rstrip, rev_involutive, rule_steps_lstrip.
Qed.

(** The merger's [slugify] is the rule of the specification: its extra
    [strip()] of whitespace is absorbed by the final trimming of hyphens. *)
Lemma merger_slugify_rule (text : string) : Merger.slugify text = Spec.slugify_rule text.
Proof.
  unfold Merger.slugify, Spec.slugify_rule, Py.strip, Py.chars, Py.str.
  rewrite list_ascii_of_string_of_list_ascii.
  f_equal. apply rule_steps_strip.
Qed.

End SlugifyRule.

(** ** The ontology expander *)

Section ExpanderClaims.
Import Expander.

(** C2: on the slugify example of the specification the expander keeps
    the doubled hyphen that the rule (and the merger, which implements the
    rule) collapses, so the expander's slug is not the slug of the rule. *)
Theorem slugify_disagreement :
  Expander.slugify "  multi   space--name " = "multi-space--name"
  /\ Spec.slugify_rule "  multi   space--name " = "multi-space-name"
  /\ Merger.slugify "  multi   space--name " = "multi-space-name"
  /\ Expander.slugify "  multi   space--name " <> Spec.slugify_rule "  multi   space--name "
  /\ Expander.slugify "  multi   space--name " <> Merger.slugify "  multi   space--name ".
Proof. split_and!; by vm_compute. Qed.

Lemma expand_step_slugs (slugs surfaces : gset string)
    (fdc : gmap string Candidate.t) (a : acc) (c : Unmatched.t) :
  map Entry.slug (new_entries (expand_step slugs surfaces fdc a c)) =
    map Entry.slug (new_entries a)
  \/ ((slugify (Unmatched.canonical c) ∉ slugs)
      /\ map Entry.slug (new_entries (expand_step slugs surfaces fdc a c)) =
           (map Entry.slug (new_entries a) ++ [slugify (Unmatched.canonical c)])%list).
Proof.
  unfold expand_step. case_bool_decide as H1; [by left|].
  case_bool_decide as H2; [by left|].
  right. split; [done|]. simpl. by rewrite map_app.
Qed.

(** The slugs of the new entries: none is a slug of the ontology, and
    they are a sub-sequence of the slugs of the clusters. *)
Lemma process_slugs (slugs surfaces : gset string) (fdc : gmap string Candidate.t)
    (cs : list Unmatched.t) (a : acc) :
  exists new,
    map Entry.slug (new_entries (fold_left (expand_step slugs surfaces fdc) cs a)) =
      map Entry.slug (new_entries a) ++ new
    /\ new `sublist_of` (map (fun c => slugify (Unmatched.canonical c)) cs)
    /\ Forall (fun s => s ∉ slugs) new.
Proof.
  revert a. induction cs as [|c cs IH]; intros a; simpl.
  - exists []. rewrite app_nil_r. by repeat constructor.
  - destruct (IH (expand_step slugs surfaces fdc a c)) as (new & E & Hsub & Hall).
    destruct (expand_step_slugs slugs surfaces fdc a c) as [E'|[Hs E']]; rewrite E' in E.
    + exists new. split_and!; [done| |done]. by constructor.
    + exists (slugify (Unmatched.canonical c) :: new). rewrite <- app_assoc in E.
      split_and!; [done| |]; by constructor.
Qed.

(** What the guard on [existing_slugs] does ensure: no new entry takes a
    slug of the input ontology, and the slugs of the output are pairwise
    distinct when those of the input are and the clusters that pass the
    count filter have pairwise distinct slugs. *)
Lemma expander_slug_guard (clusters : list Unmatched.t)
    (fdc : gmap string Candidate.t) (ontology : list Entry.t) (min_count : Z) :
  NoDup (map Entry.slug ontology) ->
  Forall (fun e => Entry.slug e ∉ map Entry.slug ontology)
    (new_entries (process clusters fdc ontology min_count))
  /\ (NoDup (map (fun c => slugify (Unmatched.canonical c))
               (List.filter (fun c => min_count <=? Unmatched.count c) clusters)) ->
      NoDup (map Entry.slug (expand clusters fdc ontology min_count))).
Proof.
  intros Hnd. unfold expand, process.
  destruct (process_slugs (existing_slugs ontology) (existing_surfaces ontology) fdc
              (List.filter (fun c => min_count <=? Unmatched.count c) clusters)
              (mkAcc [] 0 0)) as (new & E & Hsub & Hall).
  simpl in E.
  assert (Forall (fun s => s ∉ map Entry.slug ontology) new) as Hall'.
  { eapply Forall_impl; [exact Hall|]. intros s Hs Hin. apply Hs.
    unfold existing_slugs. by apply elem_of_list_to_set. }
  split.
  - apply Forall_forall. intros e He. rewrite Forall_forall in Hall'.
    apply Hall'. rewrite <- E. apply list_elem_of_In, in_map, list_elem_of_In, He.
  - intros Hcl.
    assert (NoDup new) as Hnew by (eapply sublist_NoDup; eauto).
    assert (forall l, map Entry.slug (sort_ontology l) ≡ₚ map Entry.slug l) as Hso.
    { intros l. apply Permutation_map, sort_by_perm. }
    assert (forall l, map Entry.slug (sort_new l) ≡ₚ map Entry.slug l) as Hsn.
    { intros l. apply Permutation_map, sort_by_perm. }
    rewrite Hso, map_app, Hsn, E.
    apply NoDup_app. split_and!; [done| |done].
    intros s Hs Hs'. rewrite Forall_forall in Hall'. by apply (Hall' s).
Qed.

(** C3 fails on the code, on an input that the pipeline itself produces.
    A corpus with 60 occurrences of "half and half" and 50 of
    "half-and-half" gives two clusters; against an ontology with the one
    slug "garlic" the merger routes both to the unmatched output; the
    expander, run on that output with the merged ontology (whose slugs
    are pairwise distinct), finds the slug "half-and-half" of either
    canonical absent from [existing_slugs], which it computed before the
    loop and never extends, creates an entry for each, and writes an
    ontology in which the slug "half-and-half" occurs twice. *)
Theorem expander_slug_duplicate :
  let rows := replicate 60 (Some ["half and half"]) ++ replicate 50 (Some ["half-and-half"]) in
  let ontology := [Entry.mk "garlic" "Garlic" (Some ["garlic"]) None None None] in
  let clusters := Builder.build_clusters (Builder.load_ingredients rows) 5 in
  clusters = [Cluster.mk "half and half" 60 ["half"; "and"; "half"] "base" [] 60;
              Cluster.mk "half-and-half" 50 ["half-and-half"] "base" [] 50]
  /\ exists r,
       Merger.merge clusters [] ontology = Some r
       /\ Merger.merged r = ontology
       /\ Merger.unmatched r = [Unmatched.mk "half and half" 60 [];
                                Unmatched.mk "half-and-half" 50 []]
       /\ NoDup (map Entry.slug (Merger.merged r))
       /\ slugify "half and half" = "half-and-half"
       /\ slugify "half-and-half" = "half-and-half"
       /\ ("half-and-half" ∉ existing_slugs (Merger.merged r))
       /\ map Entry.slug (expand (Merger.unmatched r) ∅ (Merger.merged r) 50)
          = ["garlic"; "half-and-half"; "half-and-half"]
       /\ ~ NoDup (map Entry.slug (expand (Merger.unmatched r) ∅ (Merger.merged r) 50)).
Proof.
  cbn zeta. split; [by vm_compute|].
  eexists. split; [by vm_compute|]. cbn [Merger.merged Merger.unmatched].
  split; [reflexivity|]. split; [reflexivity|]. split; [apply NoDup_singleton|].
  split; [by vm_compute|]. split; [by vm_compute|].
  split; [vm_compute; set_solver|].
  assert (map Entry.slug
            (expand [Unmatched.mk "half and half" 60 []; Unmatched.mk "half-and-half" 50 []]
               ∅ [Entry.mk "garlic" "Garlic" (Some ["garlic"]) None None None] 50)
          = ["garlic"; "half-and-half"; "half-and-half"]) as E by by vm_compute.
  split; [exact E|]. rewrite E.
  intros H. apply NoDup_cons in H as [_ H]. apply NoDup_cons in H as [H _]. apply H. left.
Qed.

End ExpanderClaims.

(** ** The vocabulary merger *)

Section MergerBasics.
Import Merger.

Implicit Types (st : state) (c : Cluster.t) (e : Entry.t)
  (table : list (string * list (list string))).

Lemma index_slugs_lookup (i : nat) (l : list Entry.t) (m : gmap string nat)
    (s : string) (j : nat) :
  index_slugs i l m !! s = Some j ->
  m !! s = Some j \/ exists e, l !! (j - i)%nat = Some e /\ (i <= j)%nat /\ Entry.slug e = s.
Proof.
  revert i m. induction l as [|e l IH]; intros i m; simpl; [by left|].
  intros H. apply IH in H as [H|(e' & H1 & H2 & H3)].
  - destruct (decide (Entry.slug e = s)) as [<-|Hne].
    + rewrite lookup_insert_eq in H. injection H as <-.
      right. exists e. replace (i - i)%nat with 0%nat by lia. done.
    + rewrite lookup_insert_ne in H by done. by left.
  - right. exists e'. split_and!; [|lia|done].
    replace (j - i)%nat with (S (j - S i)) by lia. done.
Qed.

Lemma index_slugs_is_Some (i : nat) (l : list Entry.t) (m : gmap string nat) (s : string) :
  is_Some (index_slugs i l m !! s) <-> is_Some (m !! s) \/ s ∈ map Entry.slug l.
Proof.
  revert i m. induction l as [|e l IH]; intros i m; simpl.
  - split; [by left|]. intros [H|H]; [done|]. by apply elem_of_nil in H.
  - rewrite IH, elem_of_cons. destruct (decide (Entry.slug e = s)) as [<-|Hne].
    + rewrite lookup_insert_eq. split; [intros _; right; by left|by left; eexists].
    + rewrite lookup_insert_ne by done. split; intros [H|H]; try tauto.
      destruct H as [H|H]; [by subst|tauto].
Qed.

Lemma index_slugs_ext (i : nat) (l l' : list Entry.t) (m : gmap string nat) :
  map Entry.slug l = map Entry.slug l' -> index_slugs i l m = index_slugs i l' m.
Proof.
  revert i l' m. induction l as [|e l IH]; intros i [|e' l'] m; simpl; try done.
  intros [= -> H]. by apply IH.
Qed.

(** The reference stored for a slug is the last entry with that slug. *)
Lemma index_slugs_last (i : nat) (l : list Entry.t) (m : gmap string nat)
    (s : string) (p : nat) :
  index_slugs i l m !! s = Some p ->
  match Spec.pointed l s with
  | Some e => exists j, p = (i + j)%nat /\ l !! j = Some e
  | None => m !! s = Some p
  end.
Proof.
  unfold Spec.pointed. revert i m. induction l as [|e0 l IH]; intros i m; [done|].
  cbn [index_slugs List.filter]. intros H. apply IH in H.
  destruct (last (List.filter (fun e => String.eqb (Entry.slug e) s) l)) as [e|] eqn:El.
  - destruct H as (j & -> & Hj).
    assert (last ((if String.eqb (Entry.slug e0) s then [e0] else []) ++
                  List.filter (fun e => String.eqb (Entry.slug e) s) l) = Some e) as Hl.
    { destruct (List.filter _ l) as [|y ys]; [done|].
      destruct (String.eqb (Entry.slug e0) s); [|done]. done. }
    destruct (String.eqb (Entry.slug e0) s); cbn [app] in Hl; rewrite Hl;
      exists (S j); (split; [lia|done]).
  - assert (List.filter (fun e => String.eqb (Entry.slug e) s) l = []) as ->.
    { destruct (List.filter _ l) as [|y ys] using rev_ind; [done|].
      by rewrite last_snoc in El. }
    destruct (String.eqb_spec (Entry.slug e0) s) as [<-|Hne].
    + rewrite lookup_insert_eq in H. injection H as <-.
      cbn [last]. exists 0%nat. split; [lia|done].
    + rewrite lookup_insert_ne in H by done. done.
Qed.

Lemma slug_to_entry_pointed (o : list Entry.t) (s : string) (i : nat) e :
  slug_to_entry (init o) !! s = Some i -> o !! i = Some e -> Spec.pointed o s = Some e.
Proof.
  intros Hi He. apply index_slugs_last in Hi.
  destruct (Spec.pointed o s) as [e0|].
  - destruct Hi as (j & -> & Hj). simpl in He. congruence.
  - by rewrite lookup_empty in Hi.
Qed.

(** Sorting the ontology by slug does not change the entry that a slug
    refers to. *)
Lemma pointed_sort_ontology (o : list Entry.t) (s : string) :
  Spec.pointed (sort_ontology o) s = Spec.pointed o s.
Proof.
  unfold Spec.pointed, sort_ontology. rewrite sort_by_filter; [done|].
  intros a b Ha Hb. apply String.eqb_eq in Ha, Hb. rewrite Ha, Hb.
  by destruct (String.leb_total s s).
Qed.

Lemma index_forms_lookup (m : gmap string string) (e : Entry.t) (k s : string) :
  index_forms m e !! k = Some s ->
  m !! k = Some s \/ (s = Entry.slug e /\ k ∈ map Py.lower (Entry.forms e)).
Proof.
  unfold index_forms. generalize (Entry.forms e) as l. intros l. revert m.
  induction l as [|sf l IH]; intros m; simpl; [by left|].
  intros H. apply IH in H as [H|[-> H]].
  - destruct (decide (Py.lower sf = k)) as [<-|Hne].
    + rewrite lookup_insert_eq in H. injection H as <-. right. split; [done|left].
    + rewrite lookup_insert_ne in H by done. by left.
  - right. split; [done|by right].
Qed.

Lemma index_forms_is_Some (m : gmap string string) (e : Entry.t) (k : string) :
  is_Some (index_forms m e !! k) <->
  is_Some (m !! k) \/ k ∈ map Py.lower (Entry.forms e).
Proof.
  unfold index_forms. generalize (Entry.forms e) as l. intros l. revert m.
  induction l as [|sf l IH]; intros m; simpl.
  - split; [by left|]. intros [H|H]; [done|]. by apply elem_of_nil in H.
  - rewrite IH, elem_of_cons. destruct (decide (Py.lower sf = k)) as [<-|Hne].
    + rewrite lookup_insert_eq. split; [intros _; right; by left|by left; eexists].
    + rewrite lookup_insert_ne by done. split; intros [H|H]; try tauto.
      destruct H as [H|H]; [by subst|tauto].
Qed.

Lemma index_surfaces_fold_lookup (l : list Entry.t) (m : gmap string string) (k s : string) :
  fold_left index_forms l m !! k = Some s ->
  m !! k = Some s
  \/ exists e, e ∈ l /\ s = Entry.slug e /\ k ∈ map Py.lower (Entry.forms e).
Proof.
  revert m. induction l as [|e l IH]; intros m; simpl; [by left|].
  intros H. apply IH in H as [H|(e' & H1 & H2 & H3)].
  - apply index_forms_lookup in H as [H|[-> H]]; [by left|].
    right. exists e. split_and!; [left|done|done].
  - right. exists e'. split_and!; [by right|done|done].
Qed.

Lemma index_surfaces_fold_is_Some (l : list Entry.t) (m : gmap string string) (k : string) :
  is_Some (fold_left index_forms l m !! k) <->
  is_Some (m !! k) \/ exists e, e ∈ l /\ k ∈ map Py.lower (Entry.forms e).
Proof.
  revert m. induction l as [|e l IH]; intros m; simpl.
  - split; [by left|]. intros [H|(e & H & _)]; [done|]. by apply elem_of_nil in H.
  - rewrite IH, index_forms_is_Some. split.
    + intros [[H|H]|(e' & H1 & H2)]; [by left| |].
      * right. exists e. split; [left|done].
      * right. exists e'. split; [by right|done].
    + intros [H|(e' & H1 & H2)]; [tauto|].
      apply elem_of_cons in H1 as [->|H1]; [tauto|].
      right. by exists e'.
Qed.

(** The surface index of an ontology maps a key to the slug of an entry
    that has a surface form with that lowercase spelling. *)
Lemma index_surfaces_lookup (l : list Entry.t) (k s : string) :
  index_surfaces l !! k = Some s ->
  exists e, e ∈ l /\ s = Entry.slug e /\ k ∈ map Py.lower (Entry.forms e).
Proof.
  intros H. apply index_surfaces_fold_lookup in H as [H|H]; [|done].
  by rewrite lookup_empty in H.
Qed.

Lemma index_surfaces_is_Some (l : list Entry.t) (k : string) :
  is_Some (index_surfaces l !! k) <-> exists e, e ∈ l /\ k ∈ map Py.lower (Entry.forms e).
Proof.
  unfold index_surfaces. rewrite index_surfaces_fold_is_Some, lookup_empty.
  split; [intros [[? H]|H]; [done|done]|by right].
Qed.

End MergerBasics.

Section MergerSteps.
Import Merger.

Implicit Types (st : state) (c : Cluster.t) (e : Entry.t)
  (table : list (string * list (list string))).

Lemma merge_entry_slug table c e (s : Stats.t) :
  Entry.slug (merge_entry table c e s).1 = Entry.slug e.
Proof.
  unfold merge_entry.
  destruct (fold_left add_form _ _) as [[sfs ex] added].
  by destruct (table_get table _), (Entry.confirmTokens e).
Qed.

Lemma register_forms_lookup (s : string) c (m : gmap string string) (k : string) :
  register_forms s c m !! k =
    if bool_decide (k ∈ map Py.lower (all_forms c)) then Some s else m !! k.
Proof.
  unfold register_forms. generalize (all_forms c) as l. intros l. revert m.
  induction l as [|f l IH]; intros m; simpl; [done|].
  rewrite IH. case_bool_decide as H1; case_bool_decide as H2; try done.
  - exfalso. apply H2. by right.
  - apply elem_of_cons in H2 as [->|H2]; [|done]. by rewrite lookup_insert_eq.
  - rewrite lookup_insert_ne; [done|]. intros <-. apply H2. left.
Qed.

Lemma init_refs_ok (o : list Entry.t) : Spec.refs_ok (init o).
Proof.
  split; simpl.
  - intros s i H. apply index_slugs_lookup in H as [H|(e & H1 & _ & H2)].
    + by rewrite lookup_empty in H.
    + exists e. by rewrite Nat.sub_0_r in H1.
  - intros k s H. apply index_surfaces_lookup in H as (e & He & -> & _).
    apply index_slugs_is_Some. right.
    apply list_elem_of_In, in_map, list_elem_of_In, He.
Qed.

Lemma find_match_known st c (s : string) :
  Spec.refs_ok st -> find_match st c = Some s -> is_Some (slug_to_entry st !! s).
Proof.
  intros [_ Hidx]. unfold find_match.
  destruct (surface_to_slug st !! Py.lower (Cluster.canonical c)) as [s0|] eqn:E.
  { intros [= <-]. by eapply Hidx. }
  case_bool_decide as Hs; [by intros [= <-]|].
  generalize (Cluster.aliases c) as l. induction l as [|a l IH]; simpl; [done|].
  destruct (surface_to_slug st !! Py.lower (Alias.name a)) as [s1|] eqn:E1; [|done].
  intros [= <-]. by eapply Hidx.
Qed.

Lemma process_cluster_unmatched table st c :
  find_match st c = None \/ find_match st c = Some "" ->
  process_cluster table st c = Some (route_unmatched st c).
Proof. unfold process_cluster. by intros [->| ->]. Qed.

Lemma process_cluster_matched table st c (s : string) (i : nat) e :
  find_match st c = Some s -> s <> "" ->
  slug_to_entry st !! s = Some i -> ontology st !! i = Some e ->
  process_cluster table st c =
    Some (mkState
            (<[i := (merge_entry table c e (Stats.incr_matched (stats st))).1]> (ontology st))
            (slug_to_entry st)
            (register_forms s c (surface_to_slug st))
            (merge_entry table c e (Stats.incr_matched (stats st))).2
            (unmatched_clusters st)).
Proof.
  intros Hm Hs Hi He. unfold process_cluster. rewrite Hm.
  destruct (String.eqb_spec s ""); [done|].
  rewrite Hi. simpl. rewrite He. simpl.
  by destruct (merge_entry table c e (Stats.incr_matched (stats st))).
Qed.

Lemma refs_ok_update st (i : nat) e e' (idx : gmap string string) (s : Stats.t)
    (u : list Unmatched.t) :
  Spec.refs_ok st -> ontology st !! i = Some e -> Entry.slug e' = Entry.slug e ->
  (forall k s, idx !! k = Some s -> is_Some (slug_to_entry st !! s)) ->
  Spec.refs_ok (mkState (<[i := e']> (ontology st)) (slug_to_entry st) idx s u).
Proof.
  intros [H1 H2] He Hslug Hidx. split; simpl; [|done].
  intros s0 j Hj. destruct (H1 s0 j Hj) as (e0 & He0 & Hs0).
  destruct (decide (i = j)) as [->|Hne].
  - exists e'. rewrite list_lookup_insert_eq by (by eapply lookup_lt_Some).
    split; [done|]. congruence.
  - exists e0. by rewrite list_lookup_insert_ne.
Qed.

(** The loop body never raises on a state with sound references, and
    keeps the references sound. *)
Lemma process_cluster_total table st c :
  Spec.refs_ok st ->
  exists st', process_cluster table st c = Some st' /\ Spec.refs_ok st'.
Proof.
  intros Hok. destruct (find_match st c) as [s|] eqn:Hm.
  - destruct (decide (s = "")) as [->|Hs].
    + eexists. split; [apply process_cluster_unmatched; by right|]. apply Hok.
    + destruct (find_match_known st c s Hok Hm) as [i Hi].
      destruct (proj1 Hok s i Hi) as (e & He & Hslug).
      eexists. split; [by eapply process_cluster_matched|].
      eapply refs_ok_update; eauto using merge_entry_slug.
      intros k s0. rewrite register_forms_lookup.
      case_bool_decide; [intros [= <-]; by eexists|apply Hok].
  - eexists. split; [apply process_cluster_unmatched; by left|]. apply Hok.
Qed.

Lemma confirm_step_total st (item : string * list (list string)) :
  Spec.refs_ok st ->
  exists st', confirm_step st item = Some st' /\ Spec.refs_ok st'.
Proof.
  intros Hok. destruct item as [key tokens]. unfold confirm_step.
  destruct (surface_to_slug st !! key) as [s|]; [|by eexists].
  destruct (String.eqb s ""); [by eexists|].
  destruct (slug_to_entry st !! s) as [i|] eqn:Hi; [|by eexists].
  destruct (proj1 Hok s i Hi) as (e & He & Hslug). rewrite He. simpl.
  destruct (Entry.confirmTokens e); [by eexists|].
  eexists. split; [done|].
  eapply refs_ok_update; eauto. apply Hok.
Qed.

Lemma foldM_total {A B : Type} (P : A -> Prop) (f : A -> B -> option A) (l : list B) (a : A) :
  (forall a b, P a -> exists a', f a b = Some a' /\ P a') ->
  P a -> exists a', foldM f a l = Some a' /\ P a'.
Proof.
  intros Hf. revert a. induction l as [|b l IH]; intros a Ha; simpl; [by eexists|].
  destruct (Hf a b Ha) as (a' & -> & Ha'). simpl. by apply IH.
Qed.

Lemma foldM_cons {A B : Type} (f : A -> B -> option A) (b : B) (l : list B) (a : A) :
  foldM f a (b :: l) = a' ← f a b; foldM f a' l.
Proof. done. Qed.

Lemma foldM_app {A B : Type} (f : A -> B -> option A) (l1 l2 : list B) (a : A) :
  foldM f a (l1 ++ l2) = a' ← foldM f a l1; foldM f a' l2.
Proof.
  revert a. induction l1 as [|b l1 IH]; intros a; simpl; [done|].
  destruct (f a b); simpl; [apply IH|done].
Qed.

(** A run of the merger always produces a result. *)
Lemma merge_total (cs : list Cluster.t) table (o : list Entry.t) :
  exists r, merge cs table o = Some r.
Proof.
  unfold merge, run.
  destruct (foldM_total Spec.refs_ok (process_cluster table) cs (init o))
    as (st1 & -> & H1); [apply process_cluster_total|apply init_refs_ok|].
  simpl.
  destruct (foldM_total Spec.refs_ok confirm_step table st1)
    as (st2 & -> & H2); [apply confirm_step_total|done|].
  simpl. by eexists.
Qed.

End MergerSteps.

Section MergerRouting.
Import Merger.

Implicit Types (st : state) (c : Cluster.t) (e : Entry.t)
  (table : list (string * list (list string))).

Lemma match_alias_None (idx : gmap string string) (l : list Alias.t) :
  Forall (fun a => idx !! Py.lower (Alias.name a) = None) l <-> match_alias idx l = None.
Proof.
  induction l as [|a l IH]; simpl; [by split; [|constructor]|].
  rewrite Forall_cons. destruct (idx !! Py.lower (Alias.name a)); [|by rewrite IH; tauto].
  split; [by intros [? _]|done].
Qed.

Lemma match_alias_first (idx : gmap string string) (l1 l2 : list Alias.t) (a : Alias.t)
    (s : string) :
  Forall (fun a => idx !! Py.lower (Alias.name a) = None) l1 ->
  idx !! Py.lower (Alias.name a) = Some s ->
  match_alias idx (l1 ++ a :: l2) = Some s.
Proof.
  intros H1 Ha. induction H1 as [|x l1 Hx _ IH]; simpl; [by rewrite Ha|].
  by rewrite Hx.
Qed.

Lemma find_match_None st c :
  surface_to_slug st !! Py.lower (Cluster.canonical c) = None ->
  slug_to_entry st !! slugify (Cluster.canonical c) = None ->
  Forall (fun a => surface_to_slug st !! Py.lower (Alias.name a) = None) (Cluster.aliases c) ->
  find_match st c = None.
Proof.
  intros H1 H2 H3. unfold find_match. rewrite H1, H2.
  rewrite bool_decide_eq_false_2 by (by intros [? ?]).
  by apply match_alias_None.
Qed.

(** C10: a cluster that fails the three match attempts leaves every
    entry and both indexes as they are; the step only appends the record
    of the cluster (canonical, [totalUsage] as count, the first five alias
    names) to the unmatched output and adds one to [clusters_unmatched]. *)
Theorem unmatched_frame table st c :
  surface_to_slug st !! Py.lower (Cluster.canonical c) = None ->
  slug_to_entry st !! slugify (Cluster.canonical c) = None ->
  Forall (fun a => surface_to_slug st !! Py.lower (Alias.name a) = None) (Cluster.aliases c) ->
  exists st',
    process_cluster table st c = Some st'
    /\ ontology st' = ontology st
    /\ slug_to_entry st' = slug_to_entry st
    /\ surface_to_slug st' = surface_to_slug st
    /\ unmatched_clusters st' =
         unmatched_clusters st ++
           [Unmatched.mk (Cluster.canonical c) (Cluster.totalUsage c)
              (map Alias.name (take 5 (Cluster.aliases c)))]
    /\ stats st' =
         Stats.mk (Stats.surface_forms_added (stats st))
           (Stats.confirm_tokens_added (stats st))
           (Stats.recipe_counts_added (stats st))
           (Stats.new_entries_created (stats st))
           (Stats.clusters_matched (stats st))
           (S (Stats.clusters_unmatched (stats st))).
Proof.
  intros H1 H2 H3. exists (route_unmatched st c). split; [|done].
  apply process_cluster_unmatched. left. by apply find_match_None.
Qed.

Lemma unmatched_frame_witness :
  let st := init [Entry.mk "garlic" "Garlic" (Some ["garlic cloves"]) None None None] in
  let c := Cluster.mk "minced garlic" 60 ["garlic"] "mince"
             [Alias.mk "garlic, minced" 7; Alias.mk "a2" 6; Alias.mk "a3" 6;
              Alias.mk "a4" 6; Alias.mk "a5" 5; Alias.mk "a6" 5] 95 in
  exists st',
    process_cluster [] st c = Some st'
    /\ ontology st' = ontology st
    /\ slug_to_entry st' = slug_to_entry st
    /\ surface_to_slug st' = surface_to_slug st
    /\ unmatched_clusters st' =
         unmatched_clusters st ++
           [Unmatched.mk (Cluster.canonical c) (Cluster.totalUsage c)
              (map Alias.name (take 5 (Cluster.aliases c)))]
    /\ stats st' =
         Stats.mk (Stats.surface_forms_added (stats st))
           (Stats.confirm_tokens_added (stats st))
           (Stats.recipe_counts_added (stats st))
           (Stats.new_entries_created (stats st))
           (Stats.clusters_matched (stats st))
           (S (Stats.clusters_unmatched (stats st))).
Proof.
  intros st c. apply (unmatched_frame [] st c).
  - by vm_compute.
  - by vm_compute.
  - repeat constructor.
Defined.

Lemma merge_entry_stats table c e (s : Stats.t) :
  Stats.clusters_matched (merge_entry table c e s).2 = Stats.clusters_matched s
  /\ Stats.clusters_unmatched (merge_entry table c e s).2 = Stats.clusters_unmatched s
  /\ Stats.new_entries_created (merge_entry table c e s).2 = Stats.new_entries_created s.
Proof.
  unfold merge_entry.
  destruct (fold_left add_form _ _) as [[sfs ex] added].
  destruct (match Entry.recipeCount e with Some r => r <? Cluster.totalUsage c | None => true end);
    by destruct (table_get table _), (Entry.confirmTokens e).
Qed.

(** C5: [matched_slug] is the first hit among (1) the lowercased
    canonical in the surface index, (2) the slug of the canonical among
    the known slugs, (3) the aliases, lowercased, in the surface index, in
    their own order; when all three fail the cluster goes to the
    unmatched output; a hit on a non-empty slug merges the cluster into
    that entry.  In the routing example of the specification nothing
    matches, although the base token is shared. *)
Theorem match_priority_and_routing table st c :
  (forall s, surface_to_slug st !! Py.lower (Cluster.canonical c) = Some s ->
             find_match st c = Some s)
  /\ (surface_to_slug st !! Py.lower (Cluster.canonical c) = None ->
      is_Some (slug_to_entry st !! slugify (Cluster.canonical c)) ->
      find_match st c = Some (slugify (Cluster.canonical c)))
  /\ (forall l1 a l2 s,
        surface_to_slug st !! Py.lower (Cluster.canonical c) = None ->
        slug_to_entry st !! slugify (Cluster.canonical c) = None ->
        Cluster.aliases c = l1 ++ a :: l2 ->
        Forall (fun a => surface_to_slug st !! Py.lower (Alias.name a) = None) l1 ->
        surface_to_slug st !! Py.lower (Alias.name a) = Some s ->
        find_match st c = Some s)
  /\ (surface_to_slug st !! Py.lower (Cluster.canonical c) = None ->
      slug_to_entry st !! slugify (Cluster.canonical c) = None ->
      Forall (fun a => surface_to_slug st !! Py.lower (Alias.name a) = None)
        (Cluster.aliases c) ->
      find_match st c = None
      /\ process_cluster table st c = Some (route_unmatched st c))
  /\ (forall s i e,
        find_match st c = Some s -> s <> "" ->
        slug_to_entry st !! s = Some i -> ontology st !! i = Some e ->
        exists st',
          process_cluster table st c = Some st'
          /\ ontology st' = <[i := (merge_entry table c e (Stats.incr_matched (stats st))).1]>
                              (ontology st)
          /\ Stats.clusters_matched (stats st') = S (Stats.clusters_matched (stats st))
          /\ unmatched_clusters st' = unmatched_clusters st
          /\ Forall (fun f => surface_to_slug st' !! Py.lower f = Some s) (all_forms c))
  /\ (let o := [Entry.mk "garlic" "Garlic" (Some ["garlic cloves"]) None None None] in
      let g := Cluster.mk "minced garlic" 60 ["garlic"] "mince"
                 [Alias.mk "garlic, minced" 7] 67 in
      find_match (init o) g = None
      /\ slugify "minced garlic" = "minced-garlic"
      /\ process_cluster table (init o) g = Some (route_unmatched (init o) g)
      /\ ontology (route_unmatched (init o) g) = o
      /\ unmatched_clusters (route_unmatched (init o) g) =
           [Unmatched.mk "minced garlic" 67 ["garlic, minced"]]).
Proof.
  split_and!.
  - intros s H. unfold find_match. by rewrite H.
  - intros H1 H2. unfold find_match. rewrite H1. by rewrite bool_decide_eq_true_2.
  - intros l1 a l2 s H1 H2 Hal Hl1 Ha. unfold find_match. rewrite H1, H2.
    rewrite bool_decide_eq_false_2 by (by intros [? ?]).
    rewrite Hal. by apply match_alias_first.
  - intros H1 H2 H3. pose proof (find_match_None st c H1 H2 H3) as Hn.
    split; [done|]. apply process_cluster_unmatched. by left.
  - intros s i e Hm Hs Hi He. eexists. split; [by eapply process_cluster_matched|].
    simpl. split_and!; [done| |done|].
    + by rewrite (proj1 (merge_entry_stats _ _ _ _)).
    + apply Forall_forall. intros f Hf. rewrite register_forms_lookup.
      rewrite bool_decide_eq_true_2; [done|].
      apply list_elem_of_In, in_map, list_elem_of_In, Hf.
  - intros o g.
    assert (find_match (init o) g = None) as Hn by by vm_compute.
    split_and!; [done|by vm_compute| |done|done].
    apply process_cluster_unmatched. by left.
Qed.

Lemma match_priority_and_routing_witness :
  let st := init [Entry.mk "garlic" "Garlic" (Some ["Garlic Cloves"]) None None None;
                  Entry.mk "onion" "Onion" (Some ["onions"]) None None None] in
  find_match st (Cluster.mk "garlic cloves" 9 ["garlic"] "base" [Alias.mk "onions" 5] 14)
    = Some "garlic"
  /\ find_match st (Cluster.mk "Onion!" 9 ["onion"] "base" [Alias.mk "garlic cloves" 5] 14)
     = Some "onion"
  /\ find_match st (Cluster.mk "leek" 9 ["leek"] "base"
                      [Alias.mk "leeks" 5; Alias.mk "ONIONS" 5; Alias.mk "garlic cloves" 5] 19)
     = Some "onion"
  /\ find_match st (Cluster.mk "leek" 9 ["leek"] "base" [Alias.mk "leeks" 5] 14) = None.
Proof.
  intros st. split_and!.
  - apply (proj1 (match_priority_and_routing [] st _)). by vm_compute.
  - apply (proj1 (proj2 (match_priority_and_routing [] st
             (Cluster.mk "Onion!" 9 ["onion"] "base" [Alias.mk "garlic cloves" 5] 14))));
      [by vm_compute|vm_compute; by eexists].
  - apply (proj1 (proj2 (proj2 (match_priority_and_routing [] st _)))
             [Alias.mk "leeks" 5] (Alias.mk "ONIONS" 5) [Alias.mk "garlic cloves" 5]);
      try by vm_compute.
    repeat constructor.
  - apply (proj1 (proj2 (proj2 (proj2 (match_priority_and_routing [] st _))))).
    + by vm_compute.
    + by vm_compute.
    + repeat constructor.
Defined.

End MergerRouting.

Section MergerConfirm.
Import Merger.

Implicit Types (st : state) (c : Cluster.t) (e : Entry.t)
  (table : list (string * list (list string))).

Lemma tokens_only_refl e : Spec.tokens_only e e.
Proof. by repeat split. Qed.

Lemma tokens_only_trans e1 e2 e3 :
  Spec.tokens_only e1 e2 -> Spec.tokens_only e2 e3 -> Spec.tokens_only e1 e3.
Proof.
  intros (A1 & A2 & A3 & A4 & A5 & A6) (B1 & B2 & B3 & B4 & B5 & B6).
  repeat split; try congruence.
  intros H. rewrite B6; [by apply A6|]. by rewrite A6.
Qed.

Lemma tokens_only_list_refl (l : list Entry.t) : Forall2 Spec.tokens_only l l.
Proof. induction l; constructor; auto using tokens_only_refl. Qed.

Lemma tokens_only_list_trans (l1 l2 l3 : list Entry.t) :
  Forall2 Spec.tokens_only l1 l2 -> Forall2 Spec.tokens_only l2 l3 ->
  Forall2 Spec.tokens_only l1 l3.
Proof.
  intros H. revert l3. induction H; intros l3 H3; inversion H3; subst; constructor;
    eauto using tokens_only_trans.
Qed.

(** One step of the second pass on a key that leads to an entry without
    confirm tokens. *)
Lemma confirm_step_attach st (key slug : string) (tokens : list (list string))
    (i : nat) e :
  surface_to_slug st !! key = Some slug -> slug <> "" ->
  slug_to_entry st !! slug = Some i -> ontology st !! i = Some e ->
  Entry.confirmTokens e = None ->
  confirm_step st (key, tokens) =
    Some (mkState (<[i := Spec.with_tokens tokens e]> (ontology st))
            (slug_to_entry st) (surface_to_slug st)
            (Stats.add_confirm_tokens 1 (stats st)) (unmatched_clusters st)).
Proof.
  intros Hk Hs Hi He Hc. unfold confirm_step. rewrite Hk.
  destruct (String.eqb_spec slug ""); [done|].
  rewrite Hi, He. simpl. by rewrite Hc.
Qed.

Lemma confirm_step_frame st st' (item : string * list (list string)) :
  confirm_step st item = Some st' ->
  slug_to_entry st' = slug_to_entry st
  /\ surface_to_slug st' = surface_to_slug st
  /\ unmatched_clusters st' = unmatched_clusters st
  /\ Forall2 Spec.tokens_only (ontology st) (ontology st').
Proof.
  destruct item as [key tokens]. unfold confirm_step.
  pose proof (tokens_only_list_refl (ontology st)) as Hrefl.
  destruct (surface_to_slug st !! key) as [s|]; [|by intros [= <-]].
  destruct (String.eqb s ""); [by intros [= <-]|].
  destruct (slug_to_entry st !! s) as [i|]; [|by intros [= <-]].
  destruct (ontology st !! i) as [e|] eqn:He; [|done]. simpl.
  destruct (Entry.confirmTokens e) eqn:Hc; [by intros [= <-]|].
  intros [= <-]. simpl. split_and!; try done.
  rewrite <- (list_insert_id (ontology st) i e) at 1 by done.
  apply Forall2_insert; [done|].
  repeat split. rewrite Hc. by intros [? ?].
Qed.

Lemma confirm_pass_frame st st' table :
  foldM confirm_step st table = Some st' ->
  slug_to_entry st' = slug_to_entry st
  /\ surface_to_slug st' = surface_to_slug st
  /\ unmatched_clusters st' = unmatched_clusters st
  /\ Forall2 Spec.tokens_only (ontology st) (ontology st').
Proof.
  revert st. induction table as [|item table IH]; intros st; simpl.
  - intros [= <-]. split_and!; try done. apply tokens_only_list_refl.
  - destruct (confirm_step st item) as [st1|] eqn:E; [|done]. simpl.
    intros H. apply IH in H as (A1 & A2 & A3 & A4).
    apply confirm_step_frame in E as (B1 & B2 & B3 & B4).
    split_and!; try congruence. by eapply tokens_only_list_trans.
Qed.

Lemma confirm_step_has_tokens st st' (key slug : string) (tokens : list (list string))
    (i : nat) :
  Spec.refs_ok st ->
  surface_to_slug st !! key = Some slug -> slug <> "" ->
  slug_to_entry st !! slug = Some i ->
  confirm_step st (key, tokens) = Some st' ->
  exists e', ontology st' !! i = Some e' /\ is_Some (Entry.confirmTokens e').
Proof.
  intros Hok Hk Hs Hi. destruct (proj1 Hok slug i Hi) as (e & He & _).
  destruct (Entry.confirmTokens e) as [t|] eqn:Hc.
  - unfold confirm_step. rewrite Hk. destruct (String.eqb_spec slug ""); [done|].
    rewrite Hi, He. simpl. rewrite Hc. intros [= <-]. exists e. by rewrite Hc.
  - rewrite (confirm_step_attach st key slug tokens i e) by done.
    intros [= <-]. simpl. exists (Spec.with_tokens tokens e).
    rewrite list_lookup_insert_eq by (by eapply lookup_lt_Some). by split; [|eexists].
Qed.

Lemma confirm_pass_tokens st st' table (key slug : string) (tokens : list (list string))
    (i : nat) :
  Spec.refs_ok st ->
  foldM confirm_step st table = Some st' ->
  (key, tokens) ∈ table ->
  surface_to_slug st !! key = Some slug -> slug <> "" ->
  slug_to_entry st !! slug = Some i ->
  exists e', ontology st' !! i = Some e' /\ is_Some (Entry.confirmTokens e').
Proof.
  intros Hok E2 Hin Hk Hs Hi.
  apply list_elem_of_split in Hin as (l1 & l2 & ->).
  rewrite foldM_app in E2.
  destruct (foldM confirm_step st l1) as [sta|] eqn:Ea; [|done].
  change (foldM confirm_step sta ((key, tokens) :: l2) = Some st') in E2.
  rewrite foldM_cons in E2.
  destruct (confirm_step sta (key, tokens)) as [stb|] eqn:Eb; [|done].
  change (foldM confirm_step stb l2 = Some st') in E2.
  pose proof (confirm_pass_frame _ _ _ Ea) as (A1 & A2 & _ & _).
  assert (Spec.refs_ok sta) as Hoka.
  { destruct (foldM_total Spec.refs_ok confirm_step l1 st) as (x & Ex & Hx);
      [apply confirm_step_total|done|]. congruence. }
  destruct (confirm_step_has_tokens sta stb key slug tokens i Hoka) as (e' & He' & Hc');
    try congruence.
  pose proof (confirm_pass_frame _ _ _ E2) as (_ & _ & _ & B4).
  destruct (Forall2_lookup_l _ _ _ _ _ B4 He') as (e2 & He2 & Hrel).
  exists e2. split; [done|].
  destruct Hrel as (_ & _ & _ & _ & _ & Hkeep). rewrite Hkeep; done.
Qed.

(** C9, as the code has it: a step of the second pass on a key that the
    surface index sends to a non-empty slug whose entry lacks confirm
    tokens gives that entry the token groups of the key and counts one;
    a run always completes, its second pass changes nothing but missing
    confirm tokens, and afterwards every entry that the final surface
    index reaches from a key of the table through a non-empty slug
    carries confirm tokens. *)
Theorem second_confirm_pass (cs : list Cluster.t) table (o : list Entry.t) :
  (forall st key slug tokens i e,
      surface_to_slug st !! key = Some slug -> slug <> "" ->
      slug_to_entry st !! slug = Some i -> ontology st !! i = Some e ->
      Entry.confirmTokens e = None ->
      exists st',
        confirm_step st (key, tokens) = Some st'
        /\ ontology st' = <[i := Spec.with_tokens tokens e]> (ontology st)
        /\ slug_to_entry st' = slug_to_entry st
        /\ surface_to_slug st' = surface_to_slug st
        /\ Stats.confirm_tokens_added (stats st') = S (Stats.confirm_tokens_added (stats st)))
  /\ exists st1 st2,
       foldM (process_cluster table) (init o) cs = Some st1
       /\ foldM confirm_step st1 table = Some st2
       /\ run cs table o = Some st2
       /\ surface_to_slug st2 = surface_to_slug st1
       /\ Forall2 Spec.tokens_only (ontology st1) (ontology st2)
       /\ forall key tokens slug i,
            (key, tokens) ∈ table ->
            surface_to_slug st1 !! key = Some slug -> slug <> "" ->
            slug_to_entry st1 !! slug = Some i ->
            exists e', ontology st2 !! i = Some e' /\ is_Some (Entry.confirmTokens e').
Proof.
  split.
  { intros st key slug tokens i e Hk Hs Hi He Hc. eexists.
    split; [by eapply confirm_step_attach|]. simpl. split_and!; try done. lia. }
  destruct (foldM_total Spec.refs_ok (process_cluster table) cs (init o))
    as (st1 & E1 & H1); [apply process_cluster_total|apply init_refs_ok|].
  destruct (foldM_total Spec.refs_ok confirm_step table st1)
    as (st2 & E2 & H2); [apply confirm_step_total|done|].
  exists st1, st2. pose proof (confirm_pass_frame _ _ _ E2) as (F1 & F2 & F3 & F4).
  split_and!; try done.
  { unfold run. rewrite E1. simpl. done. }
  intros key tokens slug i Hin Hk Hs Hi.
  by eapply (confirm_pass_tokens st1 st2 table key slug tokens i).
Qed.

Lemma second_confirm_pass_witness :
  let o := [Entry.mk "garlic" "Garlic" (Some ["garlic"]) None None None;
            Entry.mk "onion" "Onion" (Some ["onions"]) None None None] in
  let cs := [Cluster.mk "garlic" 80 ["garlic"] "base" [Alias.mk "garlic cloves" 7] 87] in
  let table := [("garlic cloves", [["garlic"; "clove"]]); ("onions", [["onion"]])] in
  (exists st',
      confirm_step (init o) ("onions", [["onion"]]) = Some st'
      /\ ontology st' =
           [Entry.mk "garlic" "Garlic" (Some ["garlic"]) None None None;
            Entry.mk "onion" "Onion" (Some ["onions"]) (Some [["onion"]]) None None])
  /\ (exists st2 e0 e1,
        run cs table o = Some st2
        /\ ontology st2 !! 0%nat = Some e0 /\ is_Some (Entry.confirmTokens e0)
        /\ ontology st2 !! 1%nat = Some e1 /\ is_Some (Entry.confirmTokens e1)).
Proof.
  intros o cs table.
  destruct (second_confirm_pass cs table o) as [HA (st1 & st2 & E1 & E2 & Er & _ & _ & HB)].
  split.
  - destruct (HA (init o) "onions" "onion" [["onion"]] 1%nat
                (Entry.mk "onion" "Onion" (Some ["onions"]) None None None))
      as (st' & E & Ho & _); try by vm_compute.
    exists st'. split; [done|]. by rewrite Ho.
  - vm_compute in E1. injection E1 as <-.
    destruct (HB "garlic cloves" [["garlic"; "clove"]] "garlic" 0%nat)
      as (e0 & He0 & Hc0); try by vm_compute.
    { left. }
    destruct (HB "onions" [["onion"]] "onion" 1%nat)
      as (e1 & He1 & Hc1); try by vm_compute.
    { right. left. }
    exists st2, e0, e1. repeat split; assumption.
Defined.

(** C9 as stated fails on a key that the surface index sends to the
    empty slug: the entry exists and lacks confirm tokens, and the second
    pass leaves it without. *)
Lemma confirm_pass_skips_empty_slug :
  let o := [Entry.mk "" "Unnamed" (Some ["x"]) None None None] in
  let table := [("x", [["a"]])] in
  exists st1 st2 e,
    foldM (process_cluster table) (init o) [] = Some st1
    /\ surface_to_slug st1 !! "x" = Some ""
    /\ slug_to_entry st1 !! "" = Some 0%nat
    /\ ontology st1 !! 0%nat = Some e
    /\ Entry.confirmTokens e = None
    /\ foldM confirm_step st1 table = Some st2
    /\ ontology st2 !! 0%nat = Some e.
Proof.
  intros o table. exists (init o), (init o), (Entry.mk "" "Unnamed" (Some ["x"]) None None None).
  split_and!; by vm_compute.
Qed.

End MergerConfirm.

(** ** Re-running the merger *)

Section MergeEntry.
Import Merger.

Implicit Types (st : state) (c : Cluster.t) (e : Entry.t)
  (table : list (string * list (list string))).

Lemma add_form_fold (l : list string) (sfs : option (list string)) (ex : gset string)
    (n : nat) :
  (forall k, k ∈ ex <-> k ∈ map Py.lower (default [] sfs)) ->
  exists sfs' ex' n',
    fold_left add_form l (sfs, ex, n) = (sfs', ex', n')
    /\ (forall k, k ∈ ex' <-> k ∈ map Py.lower (default [] sfs'))
    /\ (forall k, k ∈ map Py.lower l -> k ∈ ex')
    /\ (forall k, k ∈ ex -> k ∈ ex')
    /\ (forall k, k ∈ ex' -> k ∈ ex \/ k ∈ map Py.lower l)
    /\ ((forall k, k ∈ map Py.lower l -> k ∈ ex) -> sfs' = sfs /\ n' = n).
Proof.
  revert sfs ex n. induction l as [|f l IH]; intros sfs ex n Hex; simpl.
  - exists sfs, ex, n. split_and!; try done.
    + intros k Hk. by apply elem_of_nil in Hk.
    + by left.
  - case_bool_decide as Hf.
    + destruct (IH sfs ex n Hex) as (sfs' & ex' & n' & E & H1 & H2 & H3 & H4 & H5).
      exists sfs', ex', n'. split_and!; try done.
      * intros k Hk. apply elem_of_cons in Hk as [->|Hk]; auto.
      * intros k Hk. destruct (H4 k Hk); [by left|right; by right].
      * intros Hall. apply H5. intros k Hk. apply Hall. by right.
    + destruct (IH (Some (default [] sfs ++ [f])) ({[Py.lower f]} ∪ ex) (S n))
        as (sfs' & ex' & n' & E & H1 & H2 & H3 & H4 & H5).
      { intros k. simpl. rewrite map_app, elem_of_app, elem_of_union, elem_of_singleton.
        simpl. rewrite list_elem_of_singleton, Hex. tauto. }
      exists sfs', ex', n'. split_and!; try done.
      * intros k Hk. apply elem_of_cons in Hk as [->|Hk]; auto.
        apply H3. apply elem_of_union. left. by apply elem_of_singleton.
      * intros k Hk. apply H3. apply elem_of_union. by right.
      * intros k Hk. destruct (H4 k Hk) as [Hk'|Hk']; [|right; by right].
        apply elem_of_union in Hk' as [Hk'|Hk']; [|by left].
        apply elem_of_singleton in Hk' as ->. right. left.
      * intros Hall. exfalso. apply Hf, Hall. left.
Qed.

Lemma existing_forms_spec e (k : string) :
  k ∈ (list_to_set (map Py.lower (Entry.forms e)) : gset string)
  <-> k ∈ map Py.lower (default [] (Entry.surfaceForms e)).
Proof. by rewrite elem_of_list_to_set. Qed.

Lemma stats_add_zero (s : Stats.t) : Stats.add_surface_forms 0 s = s.
Proof. destruct s. unfold Stats.add_surface_forms. simpl. by rewrite Nat.add_0_r. Qed.

(** Merging a cluster into an entry that absorbs it changes nothing. *)
Lemma merge_entry_absorbed table c e (s : Stats.t) :
  Spec.absorbs table c e -> merge_entry table c e s = (e, s).
Proof.
  intros (Hf & (r & Hr & Hle) & Ht). unfold merge_entry.
  destruct (add_form_fold (all_forms c) (Entry.surfaceForms e)
              (list_to_set (map Py.lower (Entry.forms e))) 0%nat (existing_forms_spec e))
    as (sfs' & ex' & n' & -> & _ & _ & _ & _ & H5).
  destruct H5 as [-> ->].
  { intros k Hk. apply existing_forms_spec. by apply Hf. }
  rewrite Hr. destruct (Z.ltb_spec r (Cluster.totalUsage c)); [lia|].
  rewrite stats_add_zero.
  destruct (table_get table (Py.lower (Cluster.canonical c))) as [t|] eqn:Et.
  - destruct Ht as [t' Ht']; [by eexists|]. rewrite Ht', <- Hr, <- Ht'. by destruct e.
  - rewrite <- Hr. by destruct e, confirmTokens.
Qed.

(** The fields of a merged entry. *)
Lemma merge_entry_fields table c e (s : Stats.t) :
  let e' := (merge_entry table c e s).1 in
  Entry.slug e' = Entry.slug e
  /\ (forall k, k ∈ Spec.lower_forms e' <->
                k ∈ Spec.lower_forms e \/ k ∈ Spec.names_lower c)
  /\ Entry.recipeCount e' =
       (if match Entry.recipeCount e with
           | Some r => r <? Cluster.totalUsage c
           | None => true
           end then Some (Cluster.totalUsage c) else Entry.recipeCount e)
  /\ Entry.confirmTokens e' =
       match table_get table (Py.lower (Cluster.canonical c)), Entry.confirmTokens e with
       | Some t, None => Some t
       | _, _ => Entry.confirmTokens e
       end.
Proof.
  unfold merge_entry.
  destruct (add_form_fold (all_forms c) (Entry.surfaceForms e)
              (list_to_set (map Py.lower (Entry.forms e))) 0%nat (existing_forms_spec e))
    as (sfs' & ex' & n' & -> & H1 & H2 & H3 & H4 & _).
  assert (forall k, k ∈ map Py.lower (default [] sfs') <->
                    k ∈ Spec.lower_forms e \/ k ∈ Spec.names_lower c) as Hforms.
  { intros k. rewrite <- H1. split.
    - intros Hk. destruct (H4 k Hk) as [Hk'|Hk']; [left|by right].
      by apply existing_forms_spec.
    - intros [Hk|Hk]; [|by apply H2]. apply H3. by apply existing_forms_spec. }
  destruct (table_get table (Py.lower (Cluster.canonical c))) as [t|];
    destruct (Entry.confirmTokens e) as [t0|]; simpl; done.
Qed.

(** After the merge the entry absorbs the cluster; it has only grown, and
    its new forms are names of the cluster. *)
Lemma merge_entry_result table c e (s : Stats.t) :
  Spec.absorbs table c (merge_entry table c e s).1
  /\ Spec.grows e (merge_entry table c e s).1
  /\ (forall k, k ∈ Spec.lower_forms (merge_entry table c e s).1 ->
        k ∈ Spec.lower_forms e \/ k ∈ Spec.names_lower c).
Proof.
  destruct (merge_entry_fields table c e s) as (Hs & Hf & Hr & Hc).
  set (e' := (merge_entry table c e s).1) in *.
  assert (exists r, Entry.recipeCount e' = Some r /\ Cluster.totalUsage c <= r
                    /\ forall r0, Entry.recipeCount e = Some r0 -> r0 <= r)
    as (r & Hrc & Hle & Hmono).
  { rewrite Hr. destruct (Entry.recipeCount e) as [r0|].
    - destruct (Z.ltb_spec r0 (Cluster.totalUsage c)).
      + eexists. split_and!; [done|lia|]. intros ? [= <-]. lia.
      + exists r0. split_and!; [done|lia|]. intros ? [= <-]. lia.
    - eexists. split_and!; [done|lia|done]. }
  split_and!.
  - split_and!.
    + intros k Hk. apply Hf. by right.
    + by exists r.
    + intros [t Ht]. rewrite Hc, Ht. by destruct (Entry.confirmTokens e).
  - split_and!; [done| | |].
    + intros k Hk. apply Hf. by left.
    + intros r0 Hr0. exists r. split; [done|by apply Hmono].
    + intros [t Ht]. rewrite Hc, Ht. by destruct (table_get _ _).
  - intros k Hk. by apply Hf.
Qed.

End MergeEntry.


Section RunFacts.
Import Merger.

Implicit Types (st : state) (c : Cluster.t) (e : Entry.t)
  (table : list (string * list (list string))).

Lemma elem_of_concat_map {A B : Type} (f : A -> list B) (l : list A) (y : A) (x : B) :
  y ∈ l -> x ∈ f y -> x ∈ concat (map f l).
Proof.
  intros Hy Hx. apply list_elem_of_In, in_concat. exists (f y).
  split; [apply in_map|]; by apply list_elem_of_In.
Qed.

Lemma concat_NoDup_unique {A B : Type} (f : A -> list B) (l : list A) (a b : A) (x : B) :
  NoDup (concat (map f l)) -> a ∈ l -> b ∈ l -> x ∈ f a -> x ∈ f b -> a = b.
Proof.
  induction l as [|a0 l IH]; simpl; intros Hnd Ha Hb Hxa Hxb.
  - by apply elem_of_nil in Ha.
  - apply NoDup_app in Hnd as (_ & Hdis & Hnd).
    pose proof (elem_of_concat_map f l) as Hin.
    apply elem_of_cons in Ha as [->|Ha]; apply elem_of_cons in Hb as [->|Hb]; try done.
    + exfalso. eapply Hdis; eauto.
    + exfalso. eapply Hdis; eauto.
    + by apply IH.
Qed.

Lemma distinct_names_app (l1 l2 : list Cluster.t) :
  Spec.distinct_names (l1 ++ l2) ->
  Spec.distinct_names l1 /\ Spec.distinct_names l2
  /\ forall c1 c2 k, c1 ∈ l1 -> c2 ∈ l2 -> k ∈ Spec.names_lower c1 ->
       k ∈ Spec.names_lower c2 -> False.
Proof.
  unfold Spec.distinct_names. rewrite map_app, concat_app. intros H.
  apply NoDup_app in H as (H1 & Hdis & H2). split_and!; try done.
  intros c1 c2 k Hc1 Hc2 Hk1 Hk2. apply (Hdis k); by eapply elem_of_concat_map.
Qed.

Lemma names_lower_canonical c : Py.lower (Cluster.canonical c) ∈ Spec.names_lower c.
Proof. unfold Spec.names_lower, all_forms. simpl. left. Qed.

Lemma names_lower_alias c (a : Alias.t) :
  a ∈ Cluster.aliases c -> Py.lower (Alias.name a) ∈ Spec.names_lower c.
Proof.
  intros Ha. unfold Spec.names_lower, all_forms. simpl. right.
  apply list_elem_of_In, in_map, in_map, list_elem_of_In, Ha.
Qed.

Lemma match_alias_ext (idx idx' : gmap string string) (l : list Alias.t) :
  (forall a, a ∈ l -> idx !! Py.lower (Alias.name a) = idx' !! Py.lower (Alias.name a)) ->
  match_alias idx l = match_alias idx' l.
Proof.
  induction l as [|a l IH]; simpl; [done|]. intros H.
  rewrite <- (H a) by left. rewrite IH; [done|]. intros a' Ha'. apply H. by right.
Qed.

(** [find_match] only reads the known slugs and the index entries of the
    names of the cluster. *)
Lemma find_match_ext st st' c :
  (forall s, is_Some (slug_to_entry st !! s) <-> is_Some (slug_to_entry st' !! s)) ->
  (forall k, k ∈ Spec.names_lower c -> surface_to_slug st !! k = surface_to_slug st' !! k) ->
  find_match st c = find_match st' c.
Proof.
  intros Hs Hi. unfold find_match.
  rewrite <- (Hi _ (names_lower_canonical c)).
  destruct (surface_to_slug st !! Py.lower (Cluster.canonical c)); [done|].
  rewrite (bool_decide_ext _ _ (Hs _)). case_bool_decide; [done|].
  apply match_alias_ext. intros a Ha. by apply Hi, names_lower_alias.
Qed.

Lemma match_alias_Some (idx : gmap string string) (l : list Alias.t) (s : string) :
  match_alias idx l = Some s ->
  exists l1 a l2, l = l1 ++ a :: l2
    /\ Forall (fun a => idx !! Py.lower (Alias.name a) = None) l1
    /\ idx !! Py.lower (Alias.name a) = Some s.
Proof.
  induction l as [|a l IH]; simpl; [done|].
  destruct (idx !! Py.lower (Alias.name a)) as [s0|] eqn:E.
  - intros [= <-]. exists [], a, l. by split_and!.
  - intros H. destruct (IH H) as (l1 & a' & l2 & -> & H1 & H2).
    exists (a :: l1), a', l2. split_and!; [done|by constructor|done].
Qed.

Lemma effective_Some (m : option string) (s : string) :
  Spec.effective m = Some s <-> m = Some s /\ s <> "".
Proof.
  unfold Spec.effective. destruct m as [s0|]; [|by split; [|intros [? _]]].
  destruct (String.eqb_spec s0 "") as [->|Hne].
  - split; [done|]. by intros [[= <-] ?].
  - split; [by intros [= <-]|]. by intros [[= <-] _].
Qed.

Lemma effective_None (m : option string) :
  Spec.effective m = None <-> m = None \/ m = Some "".
Proof.
  unfold Spec.effective. destruct m as [s0|]; [|by split; [left|]].
  destruct (String.eqb_spec s0 "") as [->|Hne].
  - split; [by right|done].
  - split; [done|]. intros [?|[= ?]]; done.
Qed.

(** The step of the cluster loop, by the effective match. *)
Lemma process_cluster_cases table st c st' :
  Spec.refs_ok st ->
  process_cluster table st c = Some st' ->
  match Spec.effective (find_match st c) with
  | None => st' = route_unmatched st c
  | Some s =>
      exists i e,
        slug_to_entry st !! s = Some i /\ ontology st !! i = Some e /\ Entry.slug e = s
        /\ st' = mkState
                   (<[i := (merge_entry table c e (Stats.incr_matched (stats st))).1]>
                      (ontology st))
                   (slug_to_entry st)
                   (register_forms s c (surface_to_slug st))
                   (merge_entry table c e (Stats.incr_matched (stats st))).2
                   (unmatched_clusters st)
  end.
Proof.
  intros Hok Hp. destruct (Spec.effective (find_match st c)) as [s|] eqn:E.
  - apply effective_Some in E as [Hm Hs].
    destruct (find_match_known st c s Hok Hm) as [i Hi].
    destruct (proj1 Hok s i Hi) as (e & He & Hslug).
    exists i, e. split_and!; try done.
    rewrite (process_cluster_matched table st c s i e) in Hp by done. by injection Hp.
  - apply effective_None in E. rewrite process_cluster_unmatched in Hp by done.
    by injection Hp.
Qed.

Lemma replay_snoc (o : list Entry.t) (cs : list Cluster.t) c (idx : gmap string string) :
  Spec.replay o (cs ++ [c]) idx =
    match Spec.matched o c with
    | Some s => register_forms s c (Spec.replay o cs idx)
    | None => Spec.replay o cs idx
    end.
Proof. unfold Spec.replay. by rewrite fold_left_app. Qed.

Lemma replay_lookup (o : list Entry.t) (cs : list Cluster.t) (idx : gmap string string)
    (k s : string) :
  Spec.replay o cs idx !! k = Some s ->
  (exists c, c ∈ cs /\ k ∈ Spec.names_lower c /\ Spec.matched o c = Some s)
  \/ (idx !! k = Some s
      /\ forall c, c ∈ cs -> k ∈ Spec.names_lower c -> Spec.matched o c = None).
Proof.
  induction cs as [|c cs IH] using rev_ind.
  - intros H. right. split; [done|]. intros c Hc. by apply elem_of_nil in Hc.
  - rewrite replay_snoc. destruct (Spec.matched o c) as [s0|] eqn:Em.
    + rewrite register_forms_lookup. case_bool_decide as Hk.
      * intros [= <-]. left. exists c. split_and!; [|done|done].
        apply elem_of_app. right. left.
      * intros H. destruct (IH H) as [(c' & H1 & H2 & H3)|[H1 H2]].
        -- left. exists c'. split_and!; [|done|done]. apply elem_of_app. by left.
        -- right. split; [done|]. intros c' Hc' Hk'.
           apply elem_of_app in Hc' as [Hc'|Hc']; [by apply H2|].
           apply list_elem_of_singleton in Hc' as ->. done.
    + intros H. destruct (IH H) as [(c' & H1 & H2 & H3)|[H1 H2]].
      * left. exists c'. split_and!; [|done|done]. apply elem_of_app. by left.
      * right. split; [done|]. intros c' Hc' Hk'.
        apply elem_of_app in Hc' as [Hc'|Hc']; [by apply H2|].
        apply list_elem_of_singleton in Hc' as ->. done.
Qed.

Lemma replay_lookup_other (o : list Entry.t) (cs : list Cluster.t)
    (idx : gmap string string) (k : string) :
  (forall c, c ∈ cs -> k ∈ Spec.names_lower c -> Spec.matched o c = None) ->
  Spec.replay o cs idx !! k = idx !! k.
Proof.
  induction cs as [|c cs IH] using rev_ind; [done|].
  intros H. rewrite replay_snoc.
  assert (Spec.replay o cs idx !! k = idx !! k) as IH'.
  { apply IH. intros c' Hc'. apply H. apply elem_of_app. by left. }
  destruct (Spec.matched o c) as [s0|] eqn:Em; [|done].
  rewrite register_forms_lookup. case_bool_decide as Hk; [|done].
  rewrite H in Em; [done| |done]. apply elem_of_app. right. left.
Qed.

Lemma replay_lookup_matched (o : list Entry.t) (cs : list Cluster.t)
    (idx : gmap string string) c (k s : string) :
  Spec.distinct_names cs -> c ∈ cs -> k ∈ Spec.names_lower c ->
  Spec.matched o c = Some s ->
  Spec.replay o cs idx !! k = Some s.
Proof.
  induction cs as [|c0 cs IH] using rev_ind; intros Hnd Hc Hk Hm.
  - by apply elem_of_nil in Hc.
  - apply distinct_names_app in Hnd as (Hnd & _ & Hdis).
    rewrite replay_snoc. apply elem_of_app in Hc as [Hc|Hc].
    + assert (k ∉ Spec.names_lower c0) as Hk0.
      { intros Hk0. apply (Hdis c c0 k); try done. left. }
      destruct (Spec.matched o c0); [|by apply IH].
      rewrite register_forms_lookup. rewrite bool_decide_eq_false_2 by done. by apply IH.
    + apply list_elem_of_singleton in Hc as <-. rewrite Hm.
      rewrite register_forms_lookup. by rewrite bool_decide_eq_true_2.
Qed.

Lemma replay_matched_ext (o o' : list Entry.t) (cs : list Cluster.t)
    (idx : gmap string string) :
  (forall c, c ∈ cs -> Spec.matched o' c = Spec.matched o c) ->
  Spec.replay o' cs idx = Spec.replay o cs idx.
Proof.
  induction cs as [|c cs IH] using rev_ind; [done|].
  intros H. rewrite !replay_snoc. rewrite H by (apply elem_of_app; right; left).
  rewrite IH; [done|]. intros c' Hc'. apply H. apply elem_of_app. by left.
Qed.

End RunFacts.

Section RunOne.
Import Merger.

Implicit Types (st : state) (c : Cluster.t) (e : Entry.t)
  (table : list (string * list (list string))).

Lemma grows_refl e : Spec.grows e e.
Proof. split_and!; try done. intros r Hr. exists r. split; [done|lia]. Qed.

Lemma grows_trans e1 e2 e3 : Spec.grows e1 e2 -> Spec.grows e2 e3 -> Spec.grows e1 e3.
Proof.
  intros (A1 & A2 & A3 & A4) (B1 & B2 & B3 & B4). split_and!.
  - congruence.
  - auto.
  - intros r Hr. destruct (A3 r Hr) as (r' & Hr' & Hle).
    destruct (B3 r' Hr') as (r'' & Hr'' & Hle'). exists r''. split; [done|lia].
  - auto.
Qed.

Lemma absorbs_grows table c e e' :
  Spec.absorbs table c e -> Spec.grows e e' -> Spec.absorbs table c e'.
Proof.
  intros (A1 & (r & Hr & Hle) & A3) (B1 & B2 & B3 & B4). split_and!.
  - auto.
  - destruct (B3 r Hr) as (r' & Hr' & Hle'). exists r'. split; [done|lia].
  - auto.
Qed.

Lemma tokens_only_grows e e' : Spec.tokens_only e e' -> Spec.grows e e'.
Proof.
  intros (A1 & A2 & A3 & A4 & A5 & A6). split_and!; [done| | |].
  - unfold Spec.lower_forms, Entry.forms. by rewrite A3.
  - intros r Hr. exists r. rewrite A4. split; [done|lia].
  - intros H. rewrite A6; done.
Qed.

Lemma Forall2_update_r {A B : Type} (R : A -> B -> Prop) (l : list A) (k : list B)
    (i : nat) (y' : B) :
  Forall2 R l k ->
  (forall x, l !! i = Some x -> R x y') ->
  Forall2 R l (<[i := y']> k).
Proof.
  intros H. revert i. induction H as [|x y l k Hxy H IH]; intros i Hi; [constructor|].
  destruct i as [|i]; simpl.
  - constructor; [by apply Hi|done].
  - constructor; [done|]. apply IH. intros x' Hx'. by apply Hi.
Qed.

Lemma run1_inv_init (o : list Entry.t) table : Spec.run1_inv o table [] (init o).
Proof.
  split_and!; try done.
  - apply init_refs_ok.
  - simpl. induction o; constructor; auto using grows_refl.
  - intros i e' k He' Hk. left. by exists e'.
  - intros c s Hc. by apply elem_of_nil in Hc.
Qed.

Lemma run1_find_match (o : list Entry.t) table (P : list Cluster.t) st c :
  Spec.distinct_names (P ++ [c]) -> Spec.run1_inv o table P st ->
  find_match st c = find_match (init o) c.
Proof.
  intros Hnd (_ & Hs & _ & _ & _ & Hi).
  apply distinct_names_app in Hnd as (_ & _ & Hdis).
  apply find_match_ext; [by rewrite Hs|].
  intros k Hk. rewrite Hi. simpl. apply replay_lookup_other.
  intros c' Hc' Hk'. exfalso. apply (Hdis c' c k); try done. left.
Qed.

Lemma run1_inv_step (o : list Entry.t) table (P : list Cluster.t) st c :
  Spec.distinct_names (P ++ [c]) -> Spec.run1_inv o table P st ->
  exists st', process_cluster table st c = Some st' /\ Spec.run1_inv o table (P ++ [c]) st'.
Proof.
  intros Hnd Hinv. pose proof (run1_find_match o table P st c Hnd Hinv) as Hfm.
  destruct Hinv as (Hok & Hs & Hg & Hf & Ha & Hi).
  destruct (process_cluster_total table st c Hok) as (st' & Hp & Hok').
  exists st'. split; [done|].
  pose proof (process_cluster_cases table st c st' Hok Hp) as Hc.
  rewrite Hfm in Hc. fold (Spec.matched o c) in Hc.
  destruct (Spec.matched o c) as [s|] eqn:Em.
  - destruct Hc as (i & e & Hsi & He & Hslug & ->). simpl in *.
    destruct (merge_entry_result table c e (Stats.incr_matched (stats st)))
      as (Habs & Hgrow & Horigin).
    set (e' := (merge_entry table c e (Stats.incr_matched (stats st))).1) in *.
    split_and!; simpl; try done.
    + apply Forall2_update_r; [done|]. intros x Hx.
      destruct (Forall2_lookup_l _ _ _ _ _ Hg Hx) as (y & Hy & Hxy).
      rewrite He in Hy. injection Hy as <-. by eapply grows_trans.
    + intros j e'' k Hj Hk. destruct (decide (i = j)) as [<-|Hne].
      * rewrite list_lookup_insert_eq in Hj by (by eapply lookup_lt_Some).
        injection Hj as <-. destruct (Horigin k Hk) as [Hk'|Hk'].
        -- destruct (Hf i e k He Hk') as [?|(c' & H1 & H2 & H3)]; [by left|].
           right. exists c'. split_and!; [apply elem_of_app; by left|done|].
           rewrite H3. f_equal. symmetry. apply Hgrow.
        -- right. exists c. split_and!; [apply elem_of_app; right; left|done|].
           rewrite Em. f_equal. rewrite <- Hslug. symmetry. apply Hgrow.
      * rewrite list_lookup_insert_ne in Hj by done.
        destruct (Hf j e'' k Hj Hk) as [?|(c' & H1 & H2 & H3)]; [by left|].
        right. exists c'. split_and!; [apply elem_of_app; by left|done|done].
    + intros c0 s0 Hc0 Hm0. apply elem_of_app in Hc0 as [Hc0|Hc0].
      * destruct (Ha c0 s0 Hc0 Hm0) as (i0 & e0 & H1 & H2 & H3).
        destruct (decide (i = i0)) as [<-|Hne].
        -- exists i, e'. split_and!; [done| |].
           ++ apply list_lookup_insert_eq. by eapply lookup_lt_Some.
           ++ rewrite He in H2. injection H2 as <-. by eapply absorbs_grows.
        -- exists i0, e0. split_and!; [done| |done]. by rewrite list_lookup_insert_ne.
      * apply list_elem_of_singleton in Hc0 as ->. rewrite Em in Hm0. injection Hm0 as <-.
        exists i, e'. split_and!; [done| |done].
        apply list_lookup_insert_eq. by eapply lookup_lt_Some.
    + rewrite replay_snoc, Em. by rewrite Hi.
  - subst st'. simpl in *. split_and!; simpl; try done.
    + intros j e'' k Hj Hk.
      destruct (Hf j e'' k Hj Hk) as [?|(c' & H1 & H2 & H3)]; [by left|].
      right. exists c'. split_and!; [apply elem_of_app; by left|done|done].
    + intros c0 s0 Hc0 Hm0. apply elem_of_app in Hc0 as [Hc0|Hc0]; [by apply Ha|].
      apply list_elem_of_singleton in Hc0 as ->. congruence.
    + rewrite replay_snoc, Em. by rewrite Hi.
Qed.

(** The cluster loop of a run on clusters with distinct names. *)
Lemma run1_inv_fold (o : list Entry.t) table (cs : list Cluster.t) :
  Spec.distinct_names cs ->
  exists st, foldM (process_cluster table) (init o) cs = Some st /\ Spec.run1_inv o table cs st.
Proof.
  induction cs as [|c cs IH] using rev_ind; intros Hnd.
  - exists (init o). split; [done|apply run1_inv_init].
  - destruct IH as (st & E & Hinv); [by apply distinct_names_app in Hnd as (? & _)|].
    destruct (run1_inv_step o table cs st c Hnd Hinv) as (st' & Hp & Hinv').
    exists st'. split; [|done]. rewrite foldM_app, E. simpl. by rewrite Hp.
Qed.

End RunOne.

Section RunOnePost.
Import Merger.

Implicit Types (st : state) (c : Cluster.t) (e : Entry.t)
  (table : list (string * list (list string))).

Lemma grows_slugs (l l' : list Entry.t) :
  Forall2 Spec.grows l l' -> map Entry.slug l' = map Entry.slug l.
Proof. induction 1 as [|x y l l' (Hs & _) _ IH]; simpl; [done|]. by rewrite Hs, IH. Qed.

Lemma sort_ontology_elem_of e (l : list Entry.t) : e ∈ sort_ontology l <-> e ∈ l.
Proof. unfold sort_ontology. apply sort_by_elem_of. Qed.

Lemma sort_ontology_idempotent (l : list Entry.t) :
  sort_ontology (sort_ontology l) = sort_ontology l.
Proof. unfold sort_ontology. apply sort_by_idempotent. intros a b. apply String.leb_total. Qed.

(** A run on clusters with distinct names: what holds of the merged
    ontology. *)
Lemma run1_post_holds (o : list Entry.t) table (cs : list Cluster.t) :
  Spec.distinct_names cs ->
  exists r1, merge cs table o = Some r1 /\ Spec.run1_post o table cs (merged r1).
Proof.
  intros Hnames.
  destruct (run1_inv_fold o table cs Hnames) as (st1 & E1 & Hinv).
  destruct Hinv as (Hok1 & Hs1 & Hg1 & Hf1 & Ha1 & Hi1).
  destruct (foldM_total Spec.refs_ok confirm_step table st1)
    as (st2 & E2 & Hok2); [apply confirm_step_total|done|].
  pose proof (confirm_pass_frame _ _ _ E2) as (F1 & F2 & F3 & F4).
  exists (mkResult (sort_ontology (ontology st2)) (sort_unmatched (unmatched_clusters st2))
            (stats st2)).
  split. { unfold merge, run. rewrite E1. simpl. rewrite E2. done. }
  cbn [merged].
  assert (Forall2 Spec.grows o (ontology st2)) as Hg2.
  { eapply Forall2_trans; [|exact Hg1|exact F4].
    intros x y z Hxy Hyz. eapply grows_trans; [done|by apply tokens_only_grows]. }
  pose proof (grows_slugs _ _ Hg2) as Hsl2.
  assert (forall s i e2,
             slug_to_entry st1 !! s = Some i -> ontology st2 !! i = Some e2 ->
             Spec.pointed (sort_ontology (ontology st2)) s = Some e2) as Hpointed.
  { intros s i e2 Hi He2. rewrite pointed_sort_ontology.
    apply (slug_to_entry_pointed _ s i); [|done].
    rewrite Hs1 in Hi. cbn [init slug_to_entry] in *.
    by rewrite (index_slugs_ext 0 _ _ ∅ Hsl2). }
  split_and!.
  - intros s. unfold sort_ontology.
    rewrite (Permutation_map Entry.slug (sort_by_perm _ (ontology st2))). by rewrite Hsl2.
  - intros e1 k He1 Hk. rewrite sort_ontology_elem_of in He1.
    apply list_elem_of_lookup in He1 as [i Hi].
    destruct (Forall2_lookup_r _ _ _ _ _ F4 Hi) as (e' & He' & Hrel).
    assert (Spec.lower_forms e' = Spec.lower_forms e1) as Hlf.
    { destruct Hrel as (_ & _ & Hsf & _). unfold Spec.lower_forms, Entry.forms.
      by rewrite Hsf. }
    assert (Entry.slug e1 = Entry.slug e') as Hse by apply Hrel.
    rewrite <- Hlf in Hk.
    destruct (Hf1 i e' k He' Hk) as [(e & He & Hke)|(c & H1 & H2 & H3)].
    + left. exists e. split_and!; [by eapply list_elem_of_lookup_2| |done].
      destruct (Forall2_lookup_l _ _ _ _ _ Hg1 He) as (y & Hy & Hxy).
      rewrite He' in Hy. injection Hy as <-. rewrite Hse. symmetry. apply Hxy.
    + right. exists c. split_and!; [done|done|]. by rewrite Hse.
  - intros e k He Hk. apply list_elem_of_lookup in He as [i Hi].
    destruct (Forall2_lookup_l _ _ _ _ _ Hg2 Hi) as (e2 & He2 & (G1 & G2 & _)).
    exists e2. split_and!; [|done|by apply G2].
    apply sort_ontology_elem_of. by eapply list_elem_of_lookup_2.
  - intros c s e1 Hc Hm Hp. destruct (Ha1 c s Hc Hm) as (i & e' & H1 & H2 & H3).
    destruct (Forall2_lookup_l _ _ _ _ _ F4 H2) as (e2 & He2 & Hrel).
    rewrite (Hpointed s i e2 H1 He2) in Hp. injection Hp as <-.
    eapply absorbs_grows; [done|by apply tokens_only_grows].
  - intros key tokens s e1 Hin Hk Hs Hp. rewrite <- Hi1 in Hk.
    destruct (proj2 Hok1 key s Hk) as [i Hsi].
    destruct (confirm_pass_tokens st1 st2 table key s tokens i Hok1 E2 Hin Hk Hs Hsi)
      as (e' & He' & Hc').
    rewrite (Hpointed s i e' Hsi He') in Hp. by injection Hp as <-.
  - apply sort_ontology_idempotent.
Qed.

End RunOnePost.

Section RunTwo.
Import Merger.

Implicit Types (st : state) (c : Cluster.t) (e : Entry.t)
  (table : list (string * list (list string))).

Lemma init_slug_known (o : list Entry.t) (s : string) :
  is_Some (slug_to_entry (init o) !! s) <-> s ∈ map Entry.slug o.
Proof.
  simpl. rewrite index_slugs_is_Some, lookup_empty.
  split; [intros [[? H]|H]; done|by right].
Qed.

(** With distinct surface forms the index sends a form to its entry. *)
Lemma index_surfaces_unique (o : list Entry.t) e (k : string) :
  Spec.distinct_forms o -> e ∈ o -> k ∈ Spec.lower_forms e ->
  index_surfaces o !! k = Some (Entry.slug e).
Proof.
  intros Hnd He Hk.
  assert (is_Some (index_surfaces o !! k)) as [s Hs].
  { apply index_surfaces_is_Some. by exists e. }
  rewrite Hs. apply index_surfaces_lookup in Hs as (e' & He' & -> & Hk').
  by rewrite (concat_NoDup_unique Spec.lower_forms o e e' k Hnd He He' Hk Hk').
Qed.

Lemma find_match_init (o : list Entry.t) c :
  find_match (init o) c =
    match index_surfaces o !! Py.lower (Cluster.canonical c) with
    | Some s => Some s
    | None =>
        if bool_decide (is_Some (slug_to_entry (init o) !! slugify (Cluster.canonical c)))
        then Some (slugify (Cluster.canonical c))
        else match_alias (index_surfaces o) (Cluster.aliases c)
    end.
Proof. done. Qed.

(** Against the merged ontology every cluster matches as it did against
    the input ontology. *)
Lemma matched_stable (o o1 : list Entry.t) table (cs : list Cluster.t) c :
  Spec.distinct_forms o -> Spec.distinct_names cs -> Spec.run1_post o table cs o1 ->
  c ∈ cs -> Spec.matched o1 c = Spec.matched o c.
Proof.
  intros Hforms Hnames (Q1' & Q2 & Q3 & Q4 & _ & _) Hc.
  assert (forall k, is_Some (index_surfaces o !! k) -> is_Some (index_surfaces o1 !! k)) as Ha.
  { intros k [s Hs]. apply index_surfaces_lookup in Hs as (e & He & -> & Hk).
    destruct (Q3 e k He Hk) as (e1 & He1 & _ & Hk1).
    apply index_surfaces_is_Some. by exists e1. }
  assert (forall k s, index_surfaces o1 !! k = Some s ->
            index_surfaces o !! k = Some s
            \/ exists c', c' ∈ cs /\ k ∈ Spec.names_lower c' /\ Spec.matched o c' = Some s) as Hb.
  { intros k s Hs. apply index_surfaces_lookup in Hs as (e1 & He1 & -> & Hk).
    destruct (Q2 e1 k He1 Hk) as [(e & He & Hse & Hke)|?]; [left|by right].
    rewrite <- Hse. by apply index_surfaces_unique. }
  assert (forall s, Spec.matched o c = Some s ->
            is_Some (index_surfaces o1 !! Py.lower (Cluster.canonical c))) as Hcanon.
  { intros s Hm. pose proof Hm as Hknown. apply effective_Some in Hknown as [Hknown _].
    apply find_match_known in Hknown as Hknown; [|apply init_refs_ok].
    apply init_slug_known, Q1', init_slug_known in Hknown as [i Hi].
    destruct (proj1 (init_refs_ok o1) s i Hi) as (e1 & He1 & _).
    cbn [init ontology] in He1.
    destruct (Q4 c s e1 Hc Hm (slug_to_entry_pointed o1 s i e1 Hi He1)) as (Hf & _).
    apply index_surfaces_is_Some. exists e1. split; [by eapply list_elem_of_lookup_2|].
    apply Hf, names_lower_canonical. }
  assert (forall c' k, c' ∈ cs -> k ∈ Spec.names_lower c -> k ∈ Spec.names_lower c' -> c' = c)
    as Hd.
  { intros c' k Hc' Hk Hk'. by apply (concat_NoDup_unique Spec.names_lower cs c' c k). }
  assert (forall s, is_Some (slug_to_entry (init o1) !! s)
                    <-> is_Some (slug_to_entry (init o) !! s)) as Hdom.
  { intros s. by rewrite !init_slug_known. }
  unfold Spec.matched. rewrite !find_match_init.
  destruct (index_surfaces o1 !! Py.lower (Cluster.canonical c)) as [s|] eqn:E1.
  - destruct (Hb _ _ E1) as [E0|(c' & Hc' & Hk' & Hm')].
    + by rewrite E0.
    + rewrite (Hd c' _ Hc' (names_lower_canonical c) Hk') in Hm'.
      unfold Spec.matched in Hm'. rewrite find_match_init in Hm'. rewrite Hm'.
      apply effective_Some in Hm' as [_ Hs]. by apply effective_Some.
  - assert (index_surfaces o !! Py.lower (Cluster.canonical c) = None) as E0.
    { destruct (index_surfaces o !! _) eqn:E; [|done].
      destruct (Ha (Py.lower (Cluster.canonical c))) as [? ?]; [by eexists|congruence]. }
    assert (Spec.matched o c = None) as Em.
    { destruct (Spec.matched o c) eqn:Em; [|done].
      destruct (Hcanon _ eq_refl) as [? ?]. congruence. }
    unfold Spec.matched in Em. rewrite find_match_init, E0 in Em.
    rewrite E0, Em. apply effective_None. apply effective_None in Em.
    rewrite (bool_decide_ext _ _ (Hdom _)).
    destruct (bool_decide (is_Some (slug_to_entry (init o) !! slugify (Cluster.canonical c))))
      eqn:Hknown.
    { destruct Em as [Em|Em]; [done|by right]. }
    destruct (match_alias (index_surfaces o1) (Cluster.aliases c)) as [s|] eqn:Ea; [|by left].
    destruct (decide (s = "")) as [->|Hs]; [by right|]. exfalso.
    apply match_alias_Some in Ea as (l1 & a & l2 & Hal & Hl1 & Hsa).
    destruct (Hb _ _ Hsa) as [E0a|(c' & Hc' & Hk' & Hm')].
    + assert (match_alias (index_surfaces o) (Cluster.aliases c) = Some s) as Ea0.
      { rewrite Hal. apply match_alias_first; [|done].
        eapply Forall_impl; [exact Hl1|]. intros x Hx. cbv beta in Hx.
        destruct (index_surfaces o !! Py.lower (Alias.name x)) eqn:E; [|done].
        destruct (Ha (Py.lower (Alias.name x))) as [? ?]; [by eexists|congruence]. }
      rewrite Ea0 in Em. destruct Em as [Em|Em]; [done|]. by injection Em.
    + assert (Py.lower (Alias.name a) ∈ Spec.names_lower c) as Hka.
      { apply names_lower_alias. rewrite Hal. apply elem_of_app. right. left. }
      rewrite (Hd c' _ Hc' Hka Hk') in Hm'.
      apply effective_Some in Hm' as [Hm' _]. rewrite find_match_init in Hm'.
      rewrite E0, Hknown in Hm'.
      destruct Em as [Em|Em]; congruence.
Qed.

End RunTwo.

Section RunTwoLoop.
Import Merger.

Implicit Types (st : state) (c : Cluster.t) (e : Entry.t)
  (table : list (string * list (list string))).

Lemma index_merged_origin (o o1 : list Entry.t) table (cs : list Cluster.t) (k s : string) :
  Spec.distinct_forms o -> Spec.run1_post o table cs o1 ->
  index_surfaces o1 !! k = Some s ->
  index_surfaces o !! k = Some s
  \/ exists c', c' ∈ cs /\ k ∈ Spec.names_lower c' /\ Spec.matched o c' = Some s.
Proof.
  intros Hforms (_ & Q2 & _) Hs.
  apply index_surfaces_lookup in Hs as (e1 & He1 & -> & Hk).
  destruct (Q2 e1 k He1 Hk) as [(e & He & Hse & Hke)|?]; [left|by right].
  rewrite <- Hse. by apply index_surfaces_unique.
Qed.

Lemma run2_inv_step (o o1 : list Entry.t) table (cs P : list Cluster.t) st c :
  Spec.distinct_forms o -> Spec.distinct_names cs -> Spec.run1_post o table cs o1 ->
  c ∈ cs -> Spec.distinct_names (P ++ [c]) ->
  Spec.run2_inv o o1 P st ->
  exists st', process_cluster table st c = Some st' /\ Spec.run2_inv o o1 (P ++ [c]) st'.
Proof.
  intros Hforms Hnames Hpost Hc Hnd (Hok & Ho & Hs & Hi & Z1 & Z2 & Z3).
  assert (find_match st c = find_match (init o1) c) as Hfm.
  { apply distinct_names_app in Hnd as (_ & _ & Hdis).
    apply find_match_ext; [by rewrite Hs|].
    intros k Hk. rewrite Hi. simpl. apply replay_lookup_other.
    intros c' Hc' Hk'. exfalso. apply (Hdis c' c k); try done. left. }
  destruct (process_cluster_total table st c Hok) as (st' & Hp & Hok').
  exists st'. split; [done|].
  pose proof (process_cluster_cases table st c st' Hok Hp) as Hcase.
  rewrite Hfm in Hcase. fold (Spec.matched o1 c) in Hcase.
  rewrite (matched_stable o o1 table cs c Hforms Hnames Hpost Hc) in Hcase.
  destruct (Spec.matched o c) as [s|] eqn:Em.
  - destruct Hcase as (i & e & Hsi & He & Hslug & ->).
    destruct Hpost as (_ & _ & _ & Q4 & _).
    assert (Spec.absorbs table c e) as Habs.
    { apply (Q4 c s e Hc Em). apply (slug_to_entry_pointed o1 s i); congruence. }
    rewrite (merge_entry_absorbed table c e _ Habs) in Hok' |- *. simpl in *.
    split_and!; simpl; try done.
    + rewrite list_insert_id; done.
    + rewrite replay_snoc, Em. by rewrite Hi.
  - subst st'. split_and!; simpl; try done.
    rewrite replay_snoc, Em. by rewrite Hi.
Qed.

Lemma run2_inv_fold (o o1 : list Entry.t) table (cs P rest : list Cluster.t) :
  Spec.distinct_forms o -> Spec.distinct_names cs -> Spec.run1_post o table cs o1 ->
  cs = P ++ rest ->
  exists st, foldM (process_cluster table) (init o1) P = Some st /\ Spec.run2_inv o o1 P st.
Proof.
  intros Hforms Hnames Hpost. revert rest.
  induction P as [|c P IH] using rev_ind; intros rest Hcs.
  - exists (init o1). split; [done|]. split_and!; try done. apply init_refs_ok.
  - rewrite <- app_assoc in Hcs.
    destruct (IH _ Hcs) as (st & E & Hinv).
    assert (c ∈ cs) as Hc.
    { rewrite Hcs. apply elem_of_app. right. left. }
    assert (Spec.distinct_names (P ++ [c])) as Hnd.
    { rewrite Hcs in Hnames. change (c :: rest) with ([c] ++ rest) in Hnames.
      rewrite app_assoc in Hnames. by apply distinct_names_app in Hnames as (? & _). }
    destruct (run2_inv_step o o1 table cs P st c Hforms Hnames Hpost Hc Hnd Hinv)
      as (st' & Hp & Hinv').
    exists st'. split; [|done]. rewrite foldM_app, E. simpl. by rewrite Hp.
Qed.

Lemma foldM_noop {A B : Type} (f : A -> B -> option A) (a : A) (l : list B) :
  (forall b, b ∈ l -> f a b = Some a) -> foldM f a l = Some a.
Proof.
  induction l as [|b l IH]; intros H; simpl; [done|].
  rewrite H by left. simpl. apply IH. intros b' Hb'. apply H. by right.
Qed.

(** The second pass of the second run finds confirm tokens wherever it
    looks. *)
Lemma run2_confirm_noop (o o1 : list Entry.t) table (cs : list Cluster.t) st :
  Spec.distinct_forms o -> Spec.distinct_names cs -> Spec.run1_post o table cs o1 ->
  Spec.run2_inv o o1 cs st ->
  foldM confirm_step st table = Some st.
Proof.
  intros Hforms Hnames Hpost (Hok & Ho & Hs & Hi & _).
  apply foldM_noop. intros [key tokens] Hin. unfold confirm_step.
  destruct (surface_to_slug st !! key) as [s|] eqn:Ek; [|done].
  destruct (String.eqb_spec s "") as [->|Hne]; [done|].
  destruct (slug_to_entry st !! s) as [i|] eqn:Ei; [|done].
  destruct (proj1 Hok s i Ei) as (e & He & Hslug). rewrite He. simpl.
  assert (is_Some (Entry.confirmTokens e)) as [t ->]; [|done].
  pose proof Hpost as (_ & _ & _ & _ & Q5 & _).
  apply (Q5 key tokens s e); try done;
    [|apply (slug_to_entry_pointed o1 s i); congruence].
  rewrite Hi in Ek. destruct (replay_lookup _ _ _ _ _ Ek) as [(c & H1 & H2 & H3)|[H1 H2]].
  - by eapply replay_lookup_matched.
  - rewrite replay_lookup_other by done.
    destruct (index_merged_origin o o1 table cs key s Hforms Hpost H1)
      as [?|(c' & H3 & H4 & H5)]; [done|].
    rewrite (H2 c' H3 H4) in H5. done.
Qed.

(** C1, for unambiguous inputs: when the surface forms of the ontology
    are pairwise distinct up to case (within and across entries) and the
    names of the clusters are pairwise distinct up to case (within and
    across clusters), a second run of the merger on the output of the
    first, with the same clusters and synonym table, returns the same
    ontology and adds no surface form, no confirm tokens and no recipe
    count.  The clusters that the builder emits meet the condition on
    names ([build_clusters_distinct_names]). *)
Theorem merge_idempotent (cs : list Cluster.t) table (o : list Entry.t) :
  Spec.distinct_forms o -> Spec.distinct_names cs ->
  exists r1 r2,
    merge cs table o = Some r1
    /\ merge cs table (merged r1) = Some r2
    /\ merged r2 = merged r1
    /\ Stats.surface_forms_added (final_stats r2) = 0%nat
    /\ Stats.confirm_tokens_added (final_stats r2) = 0%nat
    /\ Stats.recipe_counts_added (final_stats r2) = 0%nat.
Proof.
  intros Hforms Hnames.
  destruct (run1_post_holds o table cs Hnames) as (r1 & E1 & Hpost).
  destruct (run2_inv_fold o (merged r1) table cs cs [] Hforms Hnames Hpost)
    as (st & E & Hinv); [by rewrite app_nil_r|].
  pose proof (run2_confirm_noop o (merged r1) table cs st Hforms Hnames Hpost Hinv) as Ec.
  destruct Hinv as (_ & Ho & _ & _ & Z1 & Z2 & Z3).
  exists r1, (mkResult (sort_ontology (ontology st)) (sort_unmatched (unmatched_clusters st))
                (stats st)).
  split_and!; try done.
  - unfold merge, run. rewrite E. simpl. rewrite Ec. done.
  - simpl. rewrite Ho. apply Hpost.
Qed.

Lemma merge_idempotent_witness :
  let o := [Entry.mk "garlic" "Garlic" (Some ["Garlic"; "garlic cloves"]) None (Some 5) None;
            Entry.mk "onion" "Onion" (Some ["onions"]) None None None] in
  let cs := [Cluster.mk "garlic" 80 ["garlic"] "base" [Alias.mk "onions" 7] 87;
             Cluster.mk "minced garlic" 60 ["garlic"] "mince" [] 60;
             Cluster.mk "Onion" 9 ["onion"] "base" [Alias.mk "red onion" 5] 14] in
  let table := [("garlic", [["garlic"]]); ("red onion", [["onion"; "red"]])] in
  exists r1 r2,
    merge cs table o = Some r1
    /\ merge cs table (merged r1) = Some r2
    /\ merged r2 = merged r1
    /\ Stats.surface_forms_added (final_stats r2) = 0%nat
    /\ Stats.confirm_tokens_added (final_stats r2) = 0%nat
    /\ Stats.recipe_counts_added (final_stats r2) = 0%nat.
Proof.
  intros o cs table. apply (merge_idempotent cs table o).
  - apply (bool_decide_unpack _). by vm_compute.
  - apply (bool_decide_unpack _). by vm_compute.
Defined.

(** C1 as stated fails.  First: a well-formed ontology and two clusters
    that share the name ["y"]; the second run adds the form ["w"] to the
    entry ["z"].  Second: clusters with distinct names and an ontology in
    which two entries share the form ["x"]; the second run sets the recipe
    count of the entry ["b"]. *)
Lemma merge_not_idempotent :
  (let o := [Entry.mk "b" "B" (Some ["y"]) None None None;
             Entry.mk "z" "Z" (Some ["x"]) None None None] in
   let cs := [Cluster.mk "y" 10 ["y"] "base" [Alias.mk "w" 5] 15;
              Cluster.mk "x" 10 ["x"] "base" [Alias.mk "y" 5] 15] in
   exists r1 r2,
     merge cs [] o = Some r1 /\ merge cs [] (merged r1) = Some r2
     /\ Stats.surface_forms_added (final_stats r2) = 1%nat
     /\ merged r2 <> merged r1)
  /\ (let o := [Entry.mk "b" "B" (Some ["x"]) None None None;
                Entry.mk "a" "A" (Some ["x"]) None None None] in
      let cs := [Cluster.mk "x" 10 ["x"] "base" [] 10] in
      exists r1 r2,
        merge cs [] o = Some r1 /\ merge cs [] (merged r1) = Some r2
        /\ Stats.recipe_counts_added (final_stats r2) = 1%nat
        /\ merged r2 <> merged r1).
Proof.
  split.
  - intros o cs. destruct (merge_total cs [] o) as (r1 & E1).
    destruct (merge_total cs [] (merged r1)) as (r2 & E2).
    exists r1, r2. split_and!; try done.
    + vm_compute in E1. injection E1 as <-. vm_compute in E2. by injection E2 as <-.
    + vm_compute in E1. injection E1 as <-. vm_compute in E2. injection E2 as <-.
      by vm_compute.
  - intros o cs. destruct (merge_total cs [] o) as (r1 & E1).
    destruct (merge_total cs [] (merged r1)) as (r2 & E2).
    exists r1, r2. split_and!; try done.
    + vm_compute in E1. injection E1 as <-. vm_compute in E2. by injection E2 as <-.
    + vm_compute in E1. injection E1 as <-. vm_compute in E2. injection E2 as <-.
      by vm_compute.
Qed.

End RunTwoLoop.

(** ** Further properties: text primitives, tokens and slugs *)
Section TextFacts.

Implicit Types (l m w : list ascii) (c r : ascii) (p q : ascii -> bool) (s : string).

Ltac ascii_cases c :=
  destruct c as [[] [] [] [] [] [] [] []]; vm_compute; try reflexivity; try discriminate.

Lemma chars_str l : Py.chars (Py.str l) = l.
Proof. apply list_ascii_of_string_of_list_ascii. Qed.

Lemma str_chars s : Py.str (Py.chars s) = s.
Proof. apply string_of_list_ascii_of_string. Qed.

Lemma len_str l : Py.len (Py.str l) = length l.
Proof. unfold Py.len, Py.str. induction l as [|c l IH]; simpl; [done|]. by rewrite IH. Qed.

Lemma chars_append s1 s2 : Py.chars (s1 +:+ s2) = Py.chars s1 ++ Py.chars s2.
Proof. unfold Py.chars. induction s1 as [|c s1 IH]; simpl; [done|]. by rewrite IH. Qed.

Lemma lower_char_fixed c : Py.is_upper c = false -> Py.lower_char c = c.
Proof. unfold Py.lower_char. by intros ->. Qed.

Lemma lower_char_not_upper c : Py.is_upper (Py.lower_char c) = false.
Proof. ascii_cases c. Qed.

Lemma lower_char_space c : Py.is_space (Py.lower_char c) = Py.is_space c.
Proof. ascii_cases c. Qed.

Lemma space_not_upper c : Py.is_space c = true -> Py.is_upper c = false.
Proof. ascii_cases c. Qed.

Lemma hyphen_eq c : Py.is_hyphen c = true -> c = "-"%char.
Proof. ascii_cases c. Qed.

Lemma word_not_upper c :
  Py.is_lower c || Py.is_digit c || Py.is_hyphen c = true -> Py.is_upper c = false.
Proof. ascii_cases c. Qed.

Lemma word_not_space c :
  Py.is_lower c || Py.is_digit c || Py.is_hyphen c = true -> Py.is_space c = false.
Proof. ascii_cases c. Qed.

Lemma lower_chars s : Py.chars (Py.lower s) = map Py.lower_char (Py.chars s).
Proof. unfold Py.lower. apply chars_str. Qed.

Lemma strip_chars_of s : Py.chars (Py.strip s) = Py.strip_chars Py.is_space (Py.chars s).
Proof. unfold Py.strip. apply chars_str. Qed.

Lemma map_lower_fixed l :
  Forall (fun c => Py.is_upper c = false) l -> map Py.lower_char l = l.
Proof.
  induction 1 as [|c l Hc _ IH]; simpl; [done|]. by rewrite lower_char_fixed, IH.
Qed.

Lemma lower_fixed s :
  Forall (fun c => Py.is_upper c = false) (Py.chars s) -> Py.lower s = s.
Proof. intros H. unfold Py.lower. by rewrite map_lower_fixed, str_chars. Qed.

Lemma lower_not_upper s : Forall (fun c => Py.is_upper c = false) (Py.chars (Py.lower s)).
Proof.
  rewrite lower_chars. apply Forall_forall. intros c Hc.
  apply list_elem_of_In, in_map_iff in Hc as (c' & <- & _). apply lower_char_not_upper.
Qed.

Lemma lower_idempotent s : Py.lower (Py.lower s) = Py.lower s.
Proof. apply lower_fixed, lower_not_upper. Qed.

(** *** Stripping *)

Lemma lstrip_chars_suffix p l :
  exists k, l = k ++ Py.lstrip_chars p l /\ Forall (fun c => p c = true) k.
Proof.
  induction l as [|c l (k & Hk & Hp)]; simpl; [by exists []|].
  destruct (p c) eqn:E.
  - exists (c :: k). split; [simpl; congruence|by constructor].
  - by exists [].
Qed.

Lemma lstrip_chars_head p l :
  match Py.lstrip_chars p l with [] => True | c :: _ => p c = false end.
Proof.
  induction l as [|c l IH]; simpl; [done|]. destruct (p c) eqn:E; [done|]. simpl. done.
Qed.

Lemma lstrip_chars_id p l :
  match l with [] => True | c :: _ => p c = false end -> Py.lstrip_chars p l = l.
Proof. destruct l as [|c l]; simpl; [done|]. by intros ->. Qed.

Lemma lstrip_chars_last p l c :
  last (Py.lstrip_chars p l) = Some c -> last l = Some c.
Proof.
  destruct (lstrip_chars_suffix p l) as (k & Hk & _). intros H.
  rewrite Hk. destruct (Py.lstrip_chars p l) as [|x t] eqn:E; [done|].
  by rewrite last_app, H.
Qed.

(** [strip_chars] keeps a segment of the list, and what it keeps neither
    starts nor ends with a character of the class. *)
Lemma strip_chars_segment p l :
  exists k1 k2, l = k1 ++ Py.strip_chars p l ++ k2
    /\ Forall (fun c => p c = true) k1 /\ Forall (fun c => p c = true) k2.
Proof.
  unfold Py.strip_chars.
  destruct (lstrip_chars_suffix p l) as (k1 & H1 & Hp1).
  destruct (lstrip_chars_suffix p (rev (Py.lstrip_chars p l))) as (k2 & H2 & Hp2).
  exists k1, (rev k2). split_and!; [|done|by apply Forall_rev].
  rewrite H1 at 1. f_equal.
  rewrite <- (rev_involutive (Py.lstrip_chars p l)) at 1.
  rewrite H2 at 1. by rewrite rev_app_distr.
Qed.

Lemma last_rev {A : Type} (k : list A) : last (rev k) = head k.
Proof. destruct k as [|x k]; simpl; [done|]. by rewrite last_snoc. Qed.

Lemma head_rev {A : Type} (k : list A) : head (rev k) = last k.
Proof. rewrite <- (rev_involutive k) at 2. by rewrite last_rev. Qed.

Lemma strip_chars_ends p l :
  match head (Py.strip_chars p l) with Some c => p c = false | None => True end
  /\ match last (Py.strip_chars p l) with Some c => p c = false | None => True end.
Proof.
  unfold Py.strip_chars. split.
  - rewrite head_rev.
    destruct (last (Py.lstrip_chars p (rev (Py.lstrip_chars p l)))) as [c|] eqn:E; [|done].
    apply lstrip_chars_last in E. rewrite last_rev in E.
    pose proof (lstrip_chars_head p l) as H.
    destruct (Py.lstrip_chars p l); simpl in *; congruence.
  - rewrite last_rev.
    pose proof (lstrip_chars_head p (rev (Py.lstrip_chars p l))) as H.
    by destruct (Py.lstrip_chars p (rev (Py.lstrip_chars p l))).
Qed.

Lemma strip_chars_id p l :
  match head l with Some c => p c = false | None => True end ->
  match last l with Some c => p c = false | None => True end ->
  Py.strip_chars p l = l.
Proof.
  intros Hh Hl. unfold Py.strip_chars.
  rewrite (lstrip_chars_id p l) by (by destruct l).
  rewrite lstrip_chars_id; [apply rev_involutive|].
  pose proof (head_rev l) as E. destruct (rev l) as [|c t]; [done|].
  simpl in E. by rewrite <- E in Hl.
Qed.

Lemma strip_chars_idempotent p l :
  Py.strip_chars p (Py.strip_chars p l) = Py.strip_chars p l.
Proof. destruct (strip_chars_ends p l). by apply strip_chars_id. Qed.

Lemma strip_chars_Forall p q l :
  Forall (fun c => q c = true) l -> Forall (fun c => q c = true) (Py.strip_chars p l).
Proof.
  intros H. destruct (strip_chars_segment p l) as (k1 & k2 & E & _).
  rewrite E in H. apply Forall_app in H as [_ H]. by apply Forall_app in H as [H _].
Qed.

Lemma strip_chars_Forall_P (P : ascii -> Prop) p l : Forall P l -> Forall P (Py.strip_chars p l).
Proof.
  intros H. destruct (strip_chars_segment p l) as (k1 & k2 & E & _).
  rewrite E in H. apply Forall_app in H as [_ H]. by apply Forall_app in H as [H _].
Qed.

(** *** Splitting on whitespace *)


Lemma split_ws_words cur l :
  Forall (fun c => Py.is_space c = false) cur ->
  Forall Spec.word (Py.split_ws cur l).
Proof.
  revert cur. induction l as [|c l IH]; intros cur Hcur; simpl.
  - destruct cur as [|x cur]; [constructor|].
    constructor; [|constructor]. split.
    + simpl. intros E. by apply app_eq_nil in E as [_ ?].
    + by apply Forall_rev.
  - destruct (Py.is_space c) eqn:E.
    + destruct cur as [|x cur]; [by apply IH|].
      constructor; [|by apply IH]. split.
      * simpl. intros E'. by apply app_eq_nil in E' as [_ ?].
      * by apply Forall_rev.
    + apply IH. by constructor.
Qed.

Lemma split_ws_chars (P : ascii -> Prop) cur l :
  Forall P cur -> Forall P l -> Forall (Forall P) (Py.split_ws cur l).
Proof.
  revert cur. induction l as [|c l IH]; intros cur Hcur Hl; simpl.
  - destruct cur as [|x cur]; [constructor|].
    constructor; [|constructor]. by apply Forall_rev.
  - apply Forall_cons in Hl as [Hc Hl]. destruct (Py.is_space c).
    + destruct cur as [|x cur]; [by apply IH|].
      constructor; [by apply Forall_rev|by apply IH].
    + apply IH; [by constructor|done].
Qed.

(** Splitting what a word starts: the word is read into [cur]. *)
Lemma split_ws_word cur w l :
  Forall (fun c => Py.is_space c = false) w ->
  Py.split_ws cur (w ++ l) = Py.split_ws (rev w ++ cur) l.
Proof.
  revert cur. induction w as [|c w IH]; intros cur Hw; simpl; [done|].
  apply Forall_cons in Hw as [Hc Hw]. rewrite Hc, IH by done.
  by rewrite <- app_assoc.
Qed.

End TextFacts.


Section Tokenizers.

Implicit Types (l m w : list ascii) (c r : ascii) (p q keep : ascii -> bool) (s : string).

Lemma sub_blank_class keep l :
  keep " "%char = true -> Forall (fun c => keep c = true) (Py.sub_blank keep l).
Proof.
  intros Hsp. unfold Py.sub_blank. apply Forall_forall. intros c Hc.
  apply list_elem_of_In, in_map_iff in Hc as (c' & <- & _).
  by destruct (keep c') eqn:E.
Qed.

(** The tokens of the three tokenizers: words of at least two characters
    of the class kept by the substitution. *)
Lemma tokens_shape keep (text : string) :
  keep " "%char = true ->
  Forall (fun t => (2 <= Py.len t)%nat
                   /\ Forall (fun c => keep c = true /\ Py.is_space c = false) (Py.chars t))
    (List.filter (fun t => (2 <=? Py.len t)%nat)
       (Py.split (Py.str (Py.sub_blank keep (Py.chars (Py.lower text)))))).
Proof.
  intros Hsp. apply Forall_forall. intros t Ht.
  apply list_elem_of_In, filter_In in Ht as [Ht Hlen].
  split; [by apply Nat.leb_le|].
  unfold Py.split in Ht. rewrite chars_str in Ht.
  apply in_map_iff in Ht as (w & <- & Hw). rewrite chars_str.
  apply list_elem_of_In in Hw.
  pose proof (split_ws_words [] (Py.sub_blank keep (Py.chars (Py.lower text)))
                (Forall_nil_2 _)) as H1.
  pose proof (split_ws_chars (fun c => keep c = true) []
                (Py.sub_blank keep (Py.chars (Py.lower text)))
                (Forall_nil_2 _) (sub_blank_class _ _ Hsp)) as H2.
  rewrite Forall_forall in H1, H2.
  destruct (H1 _ Hw) as [_ Hns]. specialize (H2 _ Hw).
  rewrite Forall_forall in Hns, H2. apply Forall_forall. intros c Hc. split; auto.
Qed.

Lemma token_char_word c :
  Builder.token_char c = true -> Py.is_space c = false -> Spec.token_class c = true.
Proof.
  unfold Builder.token_char, Spec.token_class. intros H E. rewrite E in H.
  by destruct (Py.is_lower c), (Py.is_digit c), (Py.is_hyphen c).
Qed.

(** X2: every token of the builder's [tokenize] has at least two
    characters, all of them in [[a-z0-9-]] (no whitespace, no upper case),
    and tokenizing is insensitive to the case of the text. *)
Theorem builder_tokens_shape (text : string) :
  Forall (Spec.token_of Spec.token_class) (Builder.tokenize text)
  /\ Builder.tokenize (Py.lower text) = Builder.tokenize text.
Proof.
  split.
  - eapply Forall_impl; [apply (tokens_shape Builder.token_char text); reflexivity|].
    intros t [Hlen Hc]. split; [done|].
    eapply Forall_impl; [exact Hc|]. intros c [H1 H2]. by apply token_char_word.
  - unfold Builder.tokenize. by rewrite lower_idempotent.
Qed.

Lemma merger_word_char c :
  Merger.word_char c = true -> Py.is_space c = false -> Spec.alnum c = true.
Proof.
  unfold Merger.word_char, Spec.alnum. intros H E. rewrite E in H.
  by destruct (Py.is_lower c), (Py.is_digit c).
Qed.

(** X10: every token of the merger's [tokenize] has at least two
    characters, all of them in [[a-z0-9]] (a hyphen separates tokens), and
    tokenizing is insensitive to the case of the text. *)
Theorem merger_tokens_shape (text : string) :
  Forall (Spec.token_of Spec.alnum) (Merger.tokenize text)
  /\ Merger.tokenize (Py.lower text) = Merger.tokenize text.
Proof.
  split.
  - eapply Forall_impl; [apply (tokens_shape Merger.word_char text); reflexivity|].
    intros t [Hlen Hc]. split; [done|].
    eapply Forall_impl; [exact Hc|]. intros c [H1 H2]. by apply merger_word_char.
  - unfold Merger.tokenize. by rewrite lower_idempotent.
Qed.

End Tokenizers.

Section SlugShape.

Implicit Types (l m w k : list ascii) (c r : ascii) (p q : ascii -> bool) (s : string)
  (b : bool).

Lemma sub_delete_class p l : Forall (fun c => p c = true) (Py.sub_delete p l).
Proof.
  apply Forall_forall. intros c Hc. by apply list_elem_of_In, filter_In in Hc as [_ ?].
Qed.

Lemma sub_delete_id p l : Forall (fun c => p c = true) l -> Py.sub_delete p l = l.
Proof.
  unfold Py.sub_delete. induction 1 as [|c l Hc _ IH]; simpl; [done|]. by rewrite Hc, IH.
Qed.

Lemma sub_runs_Forall (P : ascii -> Prop) p r b l :
  P r -> Forall P l -> Forall P (Py.sub_runs p r b l).
Proof.
  intros Hr H. revert b. induction H as [|c l Hc _ IH]; intros b; simpl; [constructor|].
  destruct (p c); [destruct b|]; auto.
Qed.

Lemma sub_runs_clears p r b l :
  p r = false -> Forall (fun c => p c = false) (Py.sub_runs p r b l).
Proof.
  intros Hr. revert b. induction l as [|c l IH]; intros b; simpl; [constructor|].
  destruct (p c) eqn:E; [destruct b|]; auto.
Qed.

Lemma sub_runs_id p r b l : Forall (fun c => p c = false) l -> Py.sub_runs p r b l = l.
Proof.
  intros H. revert b. induction H as [|c l Hc _ IH]; intros b; simpl; [done|].
  by rewrite Hc, IH.
Qed.

Lemma sub_runs_free p r b l :
  p r = true -> Spec.runs_free p b (Py.sub_runs p r b l) = true.
Proof.
  intros Hr. revert b. induction l as [|c l IH]; intros b; simpl; [done|].
  destruct (p c) eqn:E.
  - destruct b; [apply IH|]. simpl. rewrite Hr. apply IH.
  - simpl. rewrite E, andb_false_r. apply IH.
Qed.

Lemma sub_runs_free_id p r b l :
  (forall c, p c = true -> c = r) ->
  Spec.runs_free p b l = true -> Py.sub_runs p r b l = l.
Proof.
  intros Hr. revert b. induction l as [|c l IH]; intros b; simpl; [done|].
  intros H. apply andb_true_iff in H as [H1 H2].
  destruct (p c) eqn:E.
  - destruct b; [done|]. pose proof (Hr c E) as ->. by rewrite IH.
  - by rewrite IH.
Qed.

Lemma runs_free_weaken p b l :
  Spec.runs_free p b l = true -> Spec.runs_free p false l = true.
Proof. destruct l as [|c l]; simpl; [done|]. intros H. by apply andb_true_iff in H as [_ ->]. Qed.

Lemma runs_free_suffix p b k l :
  Spec.runs_free p b (k ++ l) = true -> Spec.runs_free p false l = true.
Proof.
  revert b. induction k as [|c k IH]; intros b; simpl; [apply runs_free_weaken|].
  intros H. apply andb_true_iff in H as [_ H]. by eapply IH.
Qed.

Lemma runs_free_prefix p b k l :
  Spec.runs_free p b (k ++ l) = true -> Spec.runs_free p b k = true.
Proof.
  revert b. induction k as [|c k IH]; intros b; simpl; [done|].
  intros H. apply andb_true_iff in H as [-> H]. by eapply IH.
Qed.

Lemma strip_chars_free p q l :
  Spec.runs_free q false l = true -> Spec.runs_free q false (Py.strip_chars p l) = true.
Proof.
  intros H. destruct (strip_chars_segment p l) as (k1 & k2 & E & _).
  rewrite E in H. apply runs_free_suffix in H. by apply runs_free_prefix in H.
Qed.

Lemma slug_char_word c :
  Merger.slug_char c = true -> Py.is_space c = false -> Spec.token_class c = true.
Proof.
  unfold Merger.slug_char, Spec.token_class. intros H E. rewrite E in H.
  by destruct (Py.is_lower c), (Py.is_digit c), (Py.is_hyphen c).
Qed.

Lemma word_slug_char c : Spec.token_class c = true -> Merger.slug_char c = true.
Proof.
  unfold Merger.slug_char, Spec.token_class.
  destruct (Py.is_lower c), (Py.is_digit c), (Py.is_hyphen c), (Py.is_space c); done.
Qed.

(** The characters after the whitespace runs are replaced. *)
Lemma hyphenated_class l :
  Forall (fun c => Spec.token_class c = true)
    (Py.sub_runs Py.is_space "-"%char false (Py.sub_delete Merger.slug_char l)).
Proof.
  pose proof (sub_runs_Forall (fun c => Merger.slug_char c = true) Py.is_space "-"%char false
                (Py.sub_delete Merger.slug_char l) eq_refl (sub_delete_class _ _)) as H1.
  pose proof (sub_runs_clears Py.is_space "-"%char false
                (Py.sub_delete Merger.slug_char l) eq_refl) as H2.
  rewrite Forall_forall in H1, H2. apply Forall_forall. intros c Hc.
  apply slug_char_word; auto.
Qed.

Lemma strip_hyphen_trimmed l :
  Forall (fun c => Spec.token_class c = true) l ->
  Spec.slug_trimmed (Py.strip_chars Py.is_hyphen l).
Proof.
  intros H. split; [by apply strip_chars_Forall_P|].
  destruct (strip_chars_ends Py.is_hyphen l) as [Hh Hl].
  split; intros E; [rewrite E in Hh|rewrite E in Hl]; done.
Qed.

Lemma trimmed_strip l : Spec.slug_trimmed l -> Py.strip_chars Py.is_hyphen l = l.
Proof.
  intros (_ & Hh & Hl). apply strip_chars_id.
  - destruct (head l) as [c|] eqn:E; [|done].
    destruct (Py.is_hyphen c) eqn:Ec; [|done]. apply hyphen_eq in Ec. congruence.
  - destruct (last l) as [c|] eqn:E; [|done].
    destruct (Py.is_hyphen c) eqn:Ec; [|done]. apply hyphen_eq in Ec. congruence.
Qed.

Lemma word_chars_plain l :
  Forall (fun c => Spec.token_class c = true) l ->
  map Py.lower_char l = l
  /\ Py.strip_chars Py.is_space l = l
  /\ Py.sub_delete Merger.slug_char l = l
  /\ Py.sub_runs Py.is_space "-"%char false l = l.
Proof.
  intros H.
  assert (Forall (fun c => Py.is_space c = false) l) as Hns.
  { eapply Forall_impl; [exact H|]. intros c. apply word_not_space. }
  split_and!.
  - apply map_lower_fixed. eapply Forall_impl; [exact H|]. intros c. apply word_not_upper.
  - apply strip_chars_id.
    + destruct l as [|c l]; [done|]. simpl. by apply Forall_cons in Hns as [? _].
    + destruct (last l) as [c|] eqn:E; [|done].
      rewrite Forall_forall in Hns. apply Hns. apply last_Some in E as [k ->].
      apply elem_of_app. right. left.
  - apply sub_delete_id. eapply Forall_impl; [exact H|]. intros c. apply word_slug_char.
  - by apply sub_runs_id.
Qed.

Lemma merger_slugify_chars (text : string) :
  Py.chars (Merger.slugify text) =
    Py.strip_chars Py.is_hyphen
      (Py.sub_runs Py.is_hyphen "-"%char false
         (Py.sub_runs Py.is_space "-"%char false
            (Py.sub_delete Merger.slug_char
               (Py.strip_chars Py.is_space (map Py.lower_char (Py.chars text)))))).
Proof. unfold Merger.slugify. by rewrite chars_str, strip_chars_of, lower_chars. Qed.

Lemma expander_slugify_chars (text : string) :
  Py.chars (Expander.slugify text) =
    Py.strip_chars Py.is_hyphen
      (Py.sub_runs Py.is_space "-"%char false
         (Py.sub_delete Merger.slug_char
            (Py.strip_chars Py.is_space (map Py.lower_char (Py.chars text))))).
Proof. unfold Expander.slugify. by rewrite chars_str, strip_chars_of, lower_chars. Qed.

Lemma merger_slugify_shaped (text : string) : Spec.slug_shaped (Py.chars (Merger.slugify text)).
Proof.
  rewrite merger_slugify_chars. split.
  - apply strip_hyphen_trimmed, sub_runs_Forall; [done|apply hyphenated_class].
  - apply strip_chars_free, sub_runs_free. done.
Qed.

Lemma merger_slugify_fixed (s : string) :
  Spec.slug_shaped (Py.chars s) -> Merger.slugify s = s.
Proof.
  intros [Ht Hf]. rewrite <- (str_chars (Merger.slugify s)), merger_slugify_chars.
  destruct (word_chars_plain _ (proj1 Ht)) as (E1 & E2 & E3 & E4).
  rewrite E1, E2, E3, E4.
  rewrite (sub_runs_free_id Py.is_hyphen "-"%char false _ hyphen_eq Hf).
  by rewrite trimmed_strip, str_chars.
Qed.

(** X9: the merger's [slugify] returns a well-formed slug (only
    [[a-z0-9-]], no hyphen at either end, no doubled hyphen), the
    well-formed slugs are exactly its fixed points, and it is idempotent. *)
Theorem merger_slugify_fixed_points (s : string) :
  Spec.slug_shaped (Py.chars (Merger.slugify s))
  /\ (Spec.slug_shaped (Py.chars s) <-> Merger.slugify s = s)
  /\ Merger.slugify (Merger.slugify s) = Merger.slugify s.
Proof.
  split_and!.
  - apply merger_slugify_shaped.
  - split; [apply merger_slugify_fixed|]. intros E. rewrite <- E. apply merger_slugify_shaped.
  - apply merger_slugify_fixed, merger_slugify_shaped.
Qed.

Lemma expander_slugify_trimmed (text : string) :
  Spec.slug_trimmed (Py.chars (Expander.slugify text)).
Proof. rewrite expander_slugify_chars. apply strip_hyphen_trimmed, hyphenated_class. Qed.

Lemma expander_slugify_fixed (s : string) :
  Spec.slug_trimmed (Py.chars s) -> Expander.slugify s = s.
Proof.
  intros Ht. rewrite <- (str_chars (Expander.slugify s)), expander_slugify_chars.
  destruct (word_chars_plain _ (proj1 Ht)) as (E1 & E2 & E3 & E4).
  rewrite E1, E2, E3, E4. by rewrite trimmed_strip, str_chars.
Qed.

(** X16: the expander's [slugify] returns only characters of
    [[a-z0-9-]] with no hyphen at either end (a doubled hyphen may remain);
    the strings of that shape are exactly its fixed points, and it is
    idempotent. *)
Theorem expander_slugify_fixed_points (s : string) :
  Spec.slug_trimmed (Py.chars (Expander.slugify s))
  /\ (Spec.slug_trimmed (Py.chars s) <-> Expander.slugify s = s)
  /\ Expander.slugify (Expander.slugify s) = Expander.slugify s.
Proof.
  split_and!.
  - apply expander_slugify_trimmed.
  - split; [apply expander_slugify_fixed|]. intros E. rewrite <- E.
    apply expander_slugify_trimmed.
  - apply expander_slugify_fixed, expander_slugify_trimmed.
Qed.

(** Collapsing hyphen runs commutes with trimming hyphens. *)
Lemma sub_runs_snoc_other p r b l c :
  p c = false -> Py.sub_runs p r b (l ++ [c]) = Py.sub_runs p r b l ++ [c].
Proof.
  intros Hc. revert b. induction l as [|x l IH]; intros b; simpl; [by rewrite Hc|].
  destruct (p x); [destruct b|]; by rewrite ?IH.
Qed.

Lemma strip_collapse_prefix k l :
  Forall (fun c => Py.is_hyphen c = true) k ->
  Py.strip_chars Py.is_hyphen (Py.sub_runs Py.is_hyphen "-"%char false (k ++ l)) =
  Py.strip_chars Py.is_hyphen (Py.sub_runs Py.is_hyphen "-"%char false l).
Proof.
  induction 1 as [|c k Hc _ IH]; [done|].
  apply hyphen_eq in Hc as ->. change (("-"%char :: k) ++ l) with ("-"%char :: (k ++ l)).
  by rewrite rule_steps_hyphen_cons.
Qed.

Lemma strip_collapse_suffix k l :
  Forall (fun c => Py.is_hyphen c = true) k ->
  Py.strip_chars Py.is_hyphen (Py.sub_runs Py.is_hyphen "-"%char false (l ++ k)) =
  Py.strip_chars Py.is_hyphen (Py.sub_runs Py.is_hyphen "-"%char false l).
Proof.
  induction k as [|c k IH] using rev_ind; intros H; [by rewrite app_nil_r|].
  apply Forall_app in H as [Hk Hc]. apply Forall_cons in Hc as [Hc _].
  rewrite app_assoc.
  destruct (sub_runs_snoc Py.is_hyphen "-"%char false (l ++ k) c Hc) as (t & [->| ->] & ->).
  - rewrite app_nil_r. by apply IH.
  - rewrite strip_chars_snoc by done. by apply IH.
Qed.

Lemma strip_collapse_inner l :
  match head l with Some c => Py.is_hyphen c = false | None => True end ->
  match last l with Some c => Py.is_hyphen c = false | None => True end ->
  Py.strip_chars Py.is_hyphen (Py.sub_runs Py.is_hyphen "-"%char false l) =
  Py.sub_runs Py.is_hyphen "-"%char false l.
Proof.
  intros Hh Hl. apply strip_chars_id.
  - destruct l as [|c l]; [done|]. simpl in *. by rewrite Hh.
  - destruct l as [|c l] using rev_ind; [done|].
    rewrite last_snoc in Hl. rewrite sub_runs_snoc_other by done. by rewrite last_snoc.
Qed.

Lemma strip_collapse l :
  Py.strip_chars Py.is_hyphen (Py.sub_runs Py.is_hyphen "-"%char false l) =
  Py.sub_runs Py.is_hyphen "-"%char false (Py.strip_chars Py.is_hyphen l).
Proof.
  destruct (strip_chars_segment Py.is_hyphen l) as (k1 & k2 & E & H1 & H2).
  destruct (strip_chars_ends Py.is_hyphen l) as [Hh Hl].
  rewrite E at 1. rewrite strip_collapse_prefix, strip_collapse_suffix by done.
  by apply strip_collapse_inner.
Qed.

(** X17: the two [slugify] functions differ by the hyphen collapse
    only: the merger's slug is the expander's slug with its hyphen runs
    collapsed, the two agree exactly when the expander's slug has no
    doubled hyphen, and each leaves the merger's slug of a text
    unchanged. *)
Theorem slugify_collapse (text : string) :
  Merger.slugify text =
    Py.str (Py.sub_runs Py.is_hyphen "-"%char false (Py.chars (Expander.slugify text)))
  /\ (Merger.slugify text = Expander.slugify text <->
      Spec.runs_free Py.is_hyphen false (Py.chars (Expander.slugify text)) = true)
  /\ Expander.slugify (Merger.slugify text) = Merger.slugify text
  /\ Merger.slugify (Expander.slugify text) = Merger.slugify text.
Proof.
  assert (Merger.slugify text =
    Py.str (Py.sub_runs Py.is_hyphen "-"%char false (Py.chars (Expander.slugify text)))) as E.
  { rewrite <- (str_chars (Merger.slugify text)), merger_slugify_chars.
    by rewrite expander_slugify_chars, strip_collapse. }
  split_and!; [done| | |].
  - split.
    + intros E'. rewrite <- E'. apply merger_slugify_shaped.
    + intros Hf. rewrite E.
      by rewrite (sub_runs_free_id Py.is_hyphen "-"%char false _ hyphen_eq Hf), str_chars.
  - apply expander_slugify_fixed, merger_slugify_shaped.
  - rewrite <- (str_chars (Merger.slugify (Expander.slugify text))), merger_slugify_chars.
    destruct (word_chars_plain _ (proj1 (expander_slugify_trimmed text))) as (E1 & E2 & E3 & E4).
    rewrite E1, E2, E3, E4. rewrite strip_collapse.
    rewrite trimmed_strip by apply expander_slugify_trimmed. by rewrite E.
Qed.

End SlugShape.

Section Normalize.

Implicit Types (l m w k : list ascii) (c r : ascii) (p q : ascii -> bool) (s : string)
  (b : bool) (ws : list (list ascii)).

Lemma split_ws_lead k l :
  Forall (fun c => Py.is_space c = true) k ->
  Py.split_ws [] (k ++ l) = Py.split_ws [] l.
Proof. induction 1 as [|c k Hc _ IH]; simpl; [done|]. by rewrite Hc. Qed.

Lemma split_ws_trail_one cur l c :
  Py.is_space c = true -> Py.split_ws cur (l ++ [c]) = Py.split_ws cur l.
Proof.
  intros Hc. revert cur. induction l as [|x l IH]; intros cur; simpl.
  - rewrite Hc. by destruct cur.
  - by rewrite !IH.
Qed.

Lemma split_ws_trail k cur l :
  Forall (fun c => Py.is_space c = true) k ->
  Py.split_ws cur (l ++ k) = Py.split_ws cur l.
Proof.
  induction k as [|c k IH] using rev_ind; intros H; [by rewrite app_nil_r|].
  apply Forall_app in H as [Hk Hc]. apply Forall_cons in Hc as [Hc _].
  rewrite app_assoc, split_ws_trail_one by done. by apply IH.
Qed.

(** [s.strip().split()] is [s.split()]. *)
Lemma split_ws_strip l :
  Py.split_ws [] (Py.strip_chars Py.is_space l) = Py.split_ws [] l.
Proof.
  destruct (strip_chars_segment Py.is_space l) as (k1 & k2 & E & H1 & H2).
  rewrite E at 2. rewrite (split_ws_lead k1) by done. by rewrite split_ws_trail.
Qed.

Lemma join_chars_Forall (P : ascii -> Prop) ws :
  P " "%char -> Forall (Forall P) ws -> Forall P (Py.chars (Py.join " " (map Py.str ws))).
Proof.
  intros Hsp. induction 1 as [|w ws Hw Hws IH]; [constructor|].
  simpl. destruct (map Py.str ws) as [|w2 rest] eqn:E.
  - by rewrite chars_str.
  - rewrite !chars_append, chars_str. apply Forall_app. split; [done|].
    apply Forall_app. split; [by repeat constructor|done].
Qed.

(** Splitting the words joined by single blanks gives the words back. *)
Lemma split_join ws :
  Forall Spec.word ws -> Py.split_ws [] (Py.chars (Py.join " " (map Py.str ws))) = ws.
Proof.
  induction 1 as [|w ws [Hne Hw] Hws IH]; [done|].
  assert (rev (rev w) :: Py.split_ws [] [] = [w]) as Hone by (by rewrite rev_involutive).
  destruct ws as [|w2 rest].
  - change (Py.join " " (map Py.str [w])) with (Py.str w).
    rewrite chars_str. rewrite <- (app_nil_r w) at 1.
    rewrite split_ws_word by done. rewrite app_nil_r.
    destruct (rev w) as [|x t] eqn:E; [|exact Hone].
    apply (f_equal (@rev ascii)) in E. rewrite rev_involutive in E. done.
  - change (Py.join " " (map Py.str (w :: w2 :: rest)))
      with (Py.str w +:+ " " +:+ Py.join " " (map Py.str (w2 :: rest))).
    rewrite !chars_append, chars_str.
    rewrite split_ws_word by done. rewrite app_nil_r.
    change (Py.chars " " ++ ?x) with (" "%char :: x).
    change (Py.split_ws ?cur (" "%char :: ?x))
      with (match cur with [] => Py.split_ws [] x | _ => rev cur :: Py.split_ws [] x end).
    rewrite IH.
    destruct (rev w) as [|x t] eqn:E; [|f_equal; by injection Hone].
    apply (f_equal (@rev ascii)) in E. rewrite rev_involutive in E. done.
Qed.

Lemma normalize_surface_words (text : string) :
  exists ws,
    Expander.normalize_surface text = Py.join " " (map Py.str ws)
    /\ ws = Py.split_ws [] (map Py.lower_char (Py.chars text))
    /\ Forall Spec.word ws
    /\ Forall (Forall (fun c => Py.is_upper c = false)) ws.
Proof.
  exists (Py.split_ws [] (map Py.lower_char (Py.chars text))). split_and!; [|done| |].
  - unfold Expander.normalize_surface, Py.split.
    by rewrite strip_chars_of, split_ws_strip, lower_chars.
  - by apply split_ws_words.
  - apply split_ws_chars; [done|]. rewrite <- lower_chars. apply lower_not_upper.
Qed.

Lemma normalize_surface_fixed (text : string) :
  Expander.normalize_surface (Expander.normalize_surface text)
    = Expander.normalize_surface text.
Proof.
  destruct (normalize_surface_words text) as (ws & E & Hws & Hw & Hup).
  assert (Py.lower (Py.join " " (map Py.str ws)) = Py.join " " (map Py.str ws)) as Hlow.
  { apply lower_fixed. by apply join_chars_Forall. }
  rewrite E. unfold Expander.normalize_surface at 1, Py.split.
  by rewrite Hlow, strip_chars_of, split_ws_strip, split_join.
Qed.

(** X18: [normalize_surface] is idempotent, insensitive to case and
    to surrounding whitespace, and its result is lowercase. *)
Theorem normalize_surface_idempotent (text : string) :
  Expander.normalize_surface (Expander.normalize_surface text)
    = Expander.normalize_surface text
  /\ Expander.normalize_surface (Py.lower text) = Expander.normalize_surface text
  /\ Expander.normalize_surface (Py.strip text) = Expander.normalize_surface text
  /\ Py.lower (Expander.normalize_surface text) = Expander.normalize_surface text.
Proof.
  destruct (normalize_surface_words text) as (ws & E & Hws & Hw & Hup).
  split; [apply normalize_surface_fixed|]. split; [|split].
  - unfold Expander.normalize_surface. by rewrite lower_idempotent.
  - unfold Expander.normalize_surface, Py.split.
    rewrite !strip_chars_of, !split_ws_strip, !lower_chars, strip_chars_of.
    f_equal. f_equal.
    destruct (strip_chars_segment Py.is_space (Py.chars text)) as (k1 & k2 & Ek & H1 & H2).
    rewrite Ek at 2. rewrite !map_app.
    rewrite (split_ws_lead (map Py.lower_char k1)), split_ws_trail; [done| |].
    + apply Forall_forall. intros c Hc.
      apply list_elem_of_In, in_map_iff in Hc as (c' & <- & Hc').
      rewrite lower_char_space. rewrite Forall_forall in H2.
      by apply H2, list_elem_of_In.
    + apply Forall_forall. intros c Hc.
      apply list_elem_of_In, in_map_iff in Hc as (c' & <- & Hc').
      rewrite lower_char_space. rewrite Forall_forall in H1.
      by apply H1, list_elem_of_In.
  - rewrite E. apply lower_fixed. by apply join_chars_Forall.
Qed.

End Normalize.


(** ** Further properties: the corpus reader *)
Section Loader.
Import Builder.

Implicit Types (freq : list (string * Z)) (k key : string) (ks : list string).

Lemma freq_get_incr key k freq :
  Spec.freq_get k (counter_incr key freq) =
    if String.eqb key k then Some (default 0 (Spec.freq_get k freq) + 1)
    else Spec.freq_get k freq.
Proof.
  induction freq as [|[k' n] rest IH]; simpl.
  - destruct (String.eqb key k); done.
  - destruct (String.eqb k' key) eqn:E1; simpl.
    + apply String.eqb_eq in E1 as ->. by destruct (String.eqb key k) eqn:E2.
    + rewrite IH. destruct (String.eqb k' k) eqn:E2; [|done].
      apply String.eqb_eq in E2 as ->. by rewrite String.eqb_sym, E1.
Qed.

Lemma counter_incr_keys key freq :
  (counter_incr key freq).*1 =
    if bool_decide (key ∈ freq.*1) then freq.*1 else freq.*1 ++ [key].
Proof.
  induction freq as [|[k' n] rest IH]; csimpl; [done|].
  destruct (String.eqb k' key) eqn:E; csimpl.
  - apply String.eqb_eq in E as ->. rewrite bool_decide_eq_true_2; [done|left].
  - rewrite IH. apply String.eqb_neq in E.
    case_bool_decide as H1; case_bool_decide as H2; try done.
    + exfalso. apply H2. by right.
    + exfalso. apply elem_of_cons in H2 as [->|]; done.
Qed.

Lemma counter_incr_NoDup key freq : NoDup freq.*1 -> NoDup (counter_incr key freq).*1.
Proof.
  intros H. rewrite counter_incr_keys. case_bool_decide as E; [done|].
  apply NoDup_app. split_and!; [done| |apply NoDup_singleton].
  intros x Hx Hx'. apply list_elem_of_singleton in Hx' as ->. done.
Qed.

Lemma freq_get_elem_of k (n : Z) freq :
  NoDup freq.*1 -> ((k, n) ∈ freq <-> Spec.freq_get k freq = Some n).
Proof.
  induction freq as [|[k' n'] rest IH]; simpl; intros Hnd.
  - split; [by intros H%elem_of_nil|done].
  - apply NoDup_cons in Hnd as [Hk Hnd]. rewrite elem_of_cons, (IH Hnd).
    destruct (String.eqb k' k) eqn:E.
    + apply String.eqb_eq in E as ->. split.
      * intros [[= -> ]|H]; [done|]. exfalso. apply Hk.
        apply (IH Hnd) in H. apply list_elem_of_fmap. by exists (k, n).
      * intros [= ->]. by left.
    + apply String.eqb_neq in E. split; [|by right].
      intros [[= -> ->]|H]; done.
Qed.

Lemma freq_get_fold k ks freq :
  Spec.freq_get k (fold_left (fun f key => counter_incr key f) ks freq) =
    match length (List.filter (String.eqb k) ks) with
    | O => Spec.freq_get k freq
    | n => Some (default 0 (Spec.freq_get k freq) + Z.of_nat n)
    end.
Proof.
  revert freq. induction ks as [|key ks IH]; intros freq; simpl; [done|].
  rewrite IH, freq_get_incr. rewrite (String.eqb_sym k key).
  destruct (String.eqb key k); simpl.
  - destruct (length (List.filter (String.eqb k) ks)); f_equal; lia.
  - done.
Qed.

Lemma fold_incr_NoDup ks freq :
  NoDup freq.*1 -> NoDup (fold_left (fun f key => counter_incr key f) ks freq).*1.
Proof.
  revert freq. induction ks as [|key ks IH]; intros freq H; simpl; [done|].
  by apply IH, counter_incr_NoDup.
Qed.

Lemma count_ingredients_fold (ings : list string) freq :
  fold_left count_ingredient ings freq =
    fold_left (fun f key => counter_incr key f)
      (List.filter (fun key => (1 <? Py.len key)%nat) (map Spec.norm ings)) freq.
Proof.
  revert freq. induction ings as [|ing ings IH]; intros freq; simpl; [done|].
  rewrite IH. unfold count_ingredient, Spec.norm.
  by destruct (1 <? Py.len (Py.strip (Py.lower ing)))%nat.
Qed.

Lemma load_ingredients_fold (rows : list (option (list string))) freq :
  fold_left
    (fun freq row =>
       match row with
       | Some ingredients => fold_left count_ingredient ingredients freq
       | None => freq
       end) rows freq
  = fold_left count_ingredient (Spec.ingredients_of rows) freq.
Proof.
  revert freq. induction rows as [|[ings|] rows IH]; intros freq; simpl; [done| |].
  - rewrite IH. unfold Spec.ingredients_of. csimpl. by rewrite fold_left_app.
  - by rewrite IH.
Qed.

Lemma filter_filter_length {A : Type} (P Q : A -> bool) (l : list A) :
  (forall x, P x = true -> Q x = true) ->
  length (List.filter P (List.filter Q l)) = length (List.filter P l).
Proof.
  intros H. induction l as [|x l IH]; simpl; [done|].
  destruct (Q x) eqn:EQ; simpl.
  - destruct (P x); simpl; by rewrite IH.
  - destruct (P x) eqn:EP; [|done]. apply H in EP. congruence.
Qed.

Lemma filter_map_length {A B : Type} (f : A -> B) (P : B -> bool) (l : list A) :
  length (List.filter P (map f l)) = length (List.filter (fun x => P (f x)) l).
Proof. induction l as [|x l IH]; simpl; [done|]. destruct (P (f x)); simpl; by rewrite IH. Qed.

Lemma filter_filter_none {A : Type} (P Q : A -> bool) (l : list A) :
  (forall x, P x = true -> Q x = false) -> length (List.filter P (List.filter Q l)) = O.
Proof.
  intros H. induction l as [|x l IH]; simpl; [done|].
  destruct (Q x) eqn:EQ; simpl; [|done].
  destruct (P x) eqn:EP; [|done]. apply H in EP. congruence.
Qed.

Lemma filter_ext_length {A : Type} (P Q : A -> bool) (l : list A) :
  (forall x, P x = Q x) -> length (List.filter P l) = length (List.filter Q l).
Proof.
  intros H. induction l as [|x l IH]; simpl; [done|].
  rewrite H. destruct (Q x); simpl; by rewrite IH.
Qed.

Lemma load_ingredients_get (rows : list (option (list string))) k :
  Spec.freq_get k (load_ingredients rows) =
    if (1 <? Py.len k)%nat then
      match Spec.occurrences rows k with
      | O => None
      | n => Some (Z.of_nat n)
      end
    else None.
Proof.
  unfold load_ingredients. rewrite load_ingredients_fold, count_ingredients_fold, freq_get_fold.
  unfold Spec.occurrences. simpl Spec.freq_get.
  destruct (1 <? Py.len k)%nat eqn:E.
  - rewrite filter_filter_length.
    + rewrite filter_map_length.
      rewrite (filter_ext_length _ (fun ing => String.eqb (Spec.norm ing) k)).
      * by destruct (length _).
      * intros x. apply String.eqb_sym.
    + intros x Hx. apply String.eqb_eq in Hx as <-. done.
  - rewrite filter_filter_none; [done|].
    intros x Hx. apply String.eqb_eq in Hx as <-. done.
Qed.

Lemma load_ingredients_NoDup (rows : list (option (list string))) :
  NoDup (load_ingredients rows).*1.
Proof.
  unfold load_ingredients. rewrite load_ingredients_fold, count_ingredients_fold.
  apply fold_incr_NoDup. constructor.
Qed.

Lemma norm_fixed (ing : string) :
  Py.lower (Spec.norm ing) = Spec.norm ing /\ Py.strip (Spec.norm ing) = Spec.norm ing.
Proof.
  unfold Spec.norm. split.
  - apply lower_fixed. rewrite strip_chars_of. apply strip_chars_Forall_P, lower_not_upper.
  - unfold Py.strip at 1. rewrite strip_chars_of, strip_chars_idempotent. done.
Qed.

Lemma occurrences_norm (rows : list (option (list string))) k :
  Spec.occurrences rows k <> O -> exists ing, k = Spec.norm ing.
Proof.
  unfold Spec.occurrences. intros H.
  destruct (List.filter _ _) as [|ing l] eqn:E; [done|].
  assert (In ing (List.filter (fun ing => String.eqb (Spec.norm ing) k)
                    (Spec.ingredients_of rows))) as Hin by (rewrite E; by left).
  apply filter_In in Hin as [_ Hin]. apply String.eqb_eq in Hin. by exists ing.
Qed.

Lemma load_ingredients_elem_of (rows : list (option (list string))) k (n : Z) :
  (k, n) ∈ load_ingredients rows <->
  (2 <= Py.len k)%nat /\ 0 < n /\ n = Z.of_nat (Spec.occurrences rows k).
Proof.
  rewrite (freq_get_elem_of k n _ (load_ingredients_NoDup rows)), load_ingredients_get.
  destruct (1 <? Py.len k)%nat eqn:E.
  - apply Nat.ltb_lt in E. destruct (Spec.occurrences rows k) as [|m] eqn:Ho.
    + split; [done|]. intros (_ & H1 & H2). simpl in H2. lia.
    + split.
      * intros [= <-]. split_and!; [lia|lia|done].
      * intros (_ & _ & ->). done.
  - apply Nat.ltb_ge in E. split; [done|]. intros (H & _). lia.
Qed.

Lemma load_ingredients_fixed (rows : list (option (list string))) :
  Forall (fun item => Py.lower item.1 = item.1 /\ Py.strip item.1 = item.1)
    (load_ingredients rows).
Proof.
  apply Forall_forall. intros [k n] Hk. apply load_ingredients_elem_of in Hk as (_ & Hpos & ->).
  destruct (occurrences_norm rows k) as [ing ->]; [lia|]. simpl. apply norm_fixed.
Qed.

(** X1: the corpus reader counts every ingredient string under its
    lowercased and stripped spelling: the keys of the frequency table are
    pairwise distinct, a key is in the table exactly when it has at least
    two characters and some ingredient of a decoded row normalises to it,
    its count is the number of such ingredients, and every key is its own
    lowercased and stripped form. *)
Theorem load_ingredients_counts (rows : list (option (list string))) :
  NoDup (map fst (load_ingredients rows))
  /\ (forall k n,
        (k, n) ∈ load_ingredients rows <->
        (2 <= Py.len k)%nat /\ 0 < n /\ n = Z.of_nat (Spec.occurrences rows k))
  /\ Forall (fun item => Py.lower item.1 = item.1 /\ Py.strip item.1 = item.1)
       (load_ingredients rows).
Proof.
  split_and!.
  - apply load_ingredients_NoDup.
  - intros k n. apply load_ingredients_elem_of.
  - apply load_ingredients_fixed.
Qed.

(** X8: on any corpus, the names (canonicals and aliases) of the
    clusters that the builder writes are pairwise distinct, also up to
    case: the reader's table has one key per lowercased spelling. *)
Theorem corpus_clusters_distinct_names (rows : list (option (list string))) (min_freq : Z) :
  Spec.distinct_names (build_clusters (load_ingredients rows) min_freq).
Proof.
  apply build_clusters_distinct_names.
  pose proof (load_ingredients_fixed rows) as Hfix.
  replace (map (fun item : string * Z => Py.lower item.1) (load_ingredients rows))
    with (map fst (load_ingredients rows)); [apply load_ingredients_NoDup|].
  apply map_ext_in. intros item Hin. rewrite Forall_forall in Hfix.
  symmetry. by apply Hfix, list_elem_of_In.
Qed.

End Loader.


(** ** Further properties: orders and the cluster key *)
Section OrderFacts.
Context {A : Type} (le : A -> A -> bool).

Lemma ordered_head_le (x : A) (l : list A) :
  (forall a b c, le a b = true -> le b c = true -> le a c = true) ->
  Spec.ordered le (x :: l) -> Forall (fun y => le x y = true) l.
Proof.
  intros Htr. revert x. induction l as [|y l IH]; intros x; [constructor|].
  intros [Hxy Hl]. constructor; [done|].
  eapply Forall_impl; [apply (IH y Hl)|]. intros z Hz. by eapply Htr.
Qed.

Lemma ordered_tail (x : A) (l : list A) : Spec.ordered le (x :: l) -> Spec.ordered le l.
Proof. by intros [_ ?]. Qed.

Lemma ordered_filter (P : A -> bool) (l : list A) :
  (forall a b c, le a b = true -> le b c = true -> le a c = true) ->
  Spec.ordered le l -> Spec.ordered le (List.filter P l).
Proof.
  intros Htr. induction l as [|x l IH]; [done|].
  intros Ho. pose proof (ordered_head_le x l Htr Ho) as Hx.
  specialize (IH (ordered_tail _ _ Ho)). simpl.
  destruct (P x); [|done]. split; [|done].
  destruct (List.filter P l) as [|y t] eqn:E; [done|].
  rewrite Forall_forall in Hx. apply Hx, list_elem_of_In.
  apply (proj1 (filter_In P y l)). rewrite E. by left.
Qed.

Lemma ordered_map {B : Type} (f : A -> B) (le' : B -> B -> bool) (l : list A) :
  (forall a b, le a b = true -> le' (f a) (f b) = true) ->
  Spec.ordered le l -> Spec.ordered le' (map f l).
Proof.
  intros H. induction l as [|x l IH]; [done|].
  intros [Hx Hl]. split; [|by apply IH].
  destruct l as [|y l]; simpl; [done|]. by apply H.
Qed.

(** Two lists in order that are permutations of each other are equal, for
    an antisymmetric and transitive order. *)
Lemma ordered_perm_eq (l l' : list A) :
  (forall a b c, le a b = true -> le b c = true -> le a c = true) ->
  (forall a b, le a b = true -> le b a = true -> a = b) ->
  (forall a, le a a = true) ->
  Spec.ordered le l -> Spec.ordered le l' -> l ≡ₚ l' -> l = l'.
Proof.
  intros Htr Has Hrefl. revert l'. induction l as [|x l IH]; intros l' Ho Ho' Hp.
  - by apply Permutation_nil in Hp.
  - destruct l' as [|y l']; [by apply Permutation_sym, Permutation_nil in Hp|].
    pose proof (ordered_head_le x l Htr Ho) as Hx.
    pose proof (ordered_head_le y l' Htr Ho') as Hy.
    assert (x = y) as ->.
    { apply Has.
      - assert (y ∈ x :: l) as Hin by (rewrite Hp; left).
        apply elem_of_cons in Hin as [->|Hin]; [apply Hrefl|].
        rewrite Forall_forall in Hx. by apply Hx.
      - assert (x ∈ y :: l') as Hin by (rewrite <- Hp; left).
        apply elem_of_cons in Hin as [->|Hin]; [apply Hrefl|].
        rewrite Forall_forall in Hy. by apply Hy. }
    f_equal. apply IH; [by eapply ordered_tail|by eapply ordered_tail|].
    by apply Permutation_cons_inv in Hp.
Qed.

Lemma sort_by_perm_eq (l l' : list A) :
  (forall a b, le a b = true \/ le b a = true) ->
  (forall a b c, le a b = true -> le b c = true -> le a c = true) ->
  (forall a b, le a b = true -> le b a = true -> a = b) ->
  l ≡ₚ l' -> Py.sort_by le l = Py.sort_by le l'.
Proof.
  intros Htot Htr Has Hp. apply ordered_perm_eq; try done.
  - intros a. by destruct (Htot a a).
  - by apply sort_by_ordered.
  - by apply sort_by_ordered.
  - by rewrite !sort_by_perm.
Qed.

End OrderFacts.

Section StringOrder.

Lemma ascii_compare_lt_trans (a b c : ascii) :
  Ascii.compare a b = Lt -> Ascii.compare b c = Lt -> Ascii.compare a c = Lt.
Proof.
  unfold Ascii.compare. rewrite !N.compare_lt_iff. lia.
Qed.

Lemma string_compare_lt_trans (s1 s2 s3 : string) :
  String.compare s1 s2 = Lt -> String.compare s2 s3 = Lt -> String.compare s1 s3 = Lt.
Proof.
  revert s2 s3. induction s1 as [|a s1 IH]; intros [|b s2] [|c s3]; simpl; try done.
  destruct (Ascii.compare a b) eqn:E1; try done.
  - apply Ascii.compare_eq_iff in E1 as ->.
    destruct (Ascii.compare b c) eqn:E2; try done. apply IH.
  - intros _. destruct (Ascii.compare b c) eqn:E2; try done.
    + apply Ascii.compare_eq_iff in E2 as ->. by rewrite E1.
    + by rewrite (ascii_compare_lt_trans a b c).
Qed.

Lemma string_leb_trans (s1 s2 s3 : string) :
  String.leb s1 s2 = true -> String.leb s2 s3 = true -> String.leb s1 s3 = true.
Proof.
  unfold String.leb.
  destruct (String.compare s1 s2) eqn:E1; try done;
    destruct (String.compare s2 s3) eqn:E2; try done; intros _ _.
  - apply String.compare_eq_iff in E1 as ->. by rewrite E2.
  - apply String.compare_eq_iff in E1 as ->. by rewrite E2.
  - apply String.compare_eq_iff in E2 as <-. by rewrite E1.
  - by rewrite (string_compare_lt_trans s1 s2 s3).
Qed.

Lemma sorted_perm (l l' : list string) : l ≡ₚ l' -> Py.sorted l = Py.sorted l'.
Proof.
  unfold Py.sorted. apply sort_by_perm_eq.
  - apply String.leb_total.
  - apply string_leb_trans.
  - apply String.leb_antisym.
Qed.

End StringOrder.

Section BuilderKey.
Import Builder.

Lemma make_cluster_key_perm (base base' form form' : list string) :
  base ≡ₚ base' -> form ≡ₚ form' ->
  make_cluster_key base form = make_cluster_key base' form'.
Proof.
  intros Hb Hf. unfold make_cluster_key.
  rewrite (sorted_perm base base' Hb), (sorted_perm form form' Hf).
  destruct base as [|b base], base' as [|b' base'];
    try (by apply Permutation_nil_cons in Hb);
    try (by apply Permutation_sym, Permutation_nil_cons in Hb);
  destruct form as [|f form], form' as [|f' form'];
    try (by apply Permutation_nil_cons in Hf);
    try (by apply Permutation_sym, Permutation_nil_cons in Hf); done.
Qed.

Lemma filter_perm {A : Type} (P : A -> bool) (l l' : list A) :
  l ≡ₚ l' -> List.filter P l ≡ₚ List.filter P l'.
Proof.
  induction 1 as [|x l l' _ IH|x y l|l1 l2 l3 _ IH1 _ IH2]; simpl.
  - done.
  - destruct (P x); by rewrite IH.
  - destruct (P x), (P y); try done. apply perm_swap.
  - by rewrite IH1.
Qed.

Lemma extract_base_and_form_spec (ing : string) :
  extract_base_and_form ing =
    (List.filter Spec.is_base (tokenize ing),
     map lemmatize (List.filter Spec.is_form (tokenize ing))).
Proof. unfold extract_base_and_form. by rewrite extract_fold. Qed.

(** X4: the cluster key does not depend on the order of the tokens:
    two ingredient strings whose token lists are permutations of each
    other have the same cluster key, and their base and form lists are
    permutations of each other. *)
Theorem cluster_key_token_order (a b : string) :
  tokenize a ≡ₚ tokenize b ->
  Spec.cluster_key_of a = Spec.cluster_key_of b
  /\ (extract_base_and_form a).1 ≡ₚ (extract_base_and_form b).1
  /\ (extract_base_and_form a).2 ≡ₚ (extract_base_and_form b).2.
Proof.
  intros Hp. unfold Spec.cluster_key_of. rewrite !extract_base_and_form_spec. simpl.
  assert (List.filter Spec.is_base (tokenize a) ≡ₚ List.filter Spec.is_base (tokenize b))
    as H1 by (by apply filter_perm).
  assert (map lemmatize (List.filter Spec.is_form (tokenize a))
          ≡ₚ map lemmatize (List.filter Spec.is_form (tokenize b)))
    as H2 by (by apply Permutation_map, filter_perm).
  split_and!; [by apply make_cluster_key_perm|done|done].
Qed.

(** [X4] on ["Garlic, FRESH"] and ["fresh garlic"]. *)
Lemma cluster_key_token_order_witness :
  Spec.cluster_key_of "Garlic, FRESH" = Spec.cluster_key_of "fresh garlic"
  /\ (extract_base_and_form "Garlic, FRESH").1 ≡ₚ (extract_base_and_form "fresh garlic").1
  /\ (extract_base_and_form "Garlic, FRESH").2 ≡ₚ (extract_base_and_form "fresh garlic").2.
Proof.
  apply (cluster_key_token_order "Garlic, FRESH" "fresh garlic").
  vm_compute. apply perm_swap.
Defined.

End BuilderKey.


(** ** Further properties: the emitted clusters *)
Section DescendingKey.
Context {A : Type} (key : A -> Z).

Lemma neg_key_total (a b : A) :
  (- key a <=? - key b) = true \/ (- key b <=? - key a) = true.
Proof.
  destruct (Z.leb_spec (- key a) (- key b)); [by left|right]. apply Z.leb_le. lia.
Qed.

Lemma neg_key_trans (a b c : A) :
  (- key a <=? - key b) = true -> (- key b <=? - key c) = true ->
  (- key a <=? - key c) = true.
Proof. intros H1%Z.leb_le H2%Z.leb_le. apply Z.leb_le. lia. Qed.

(** Sorting by the negated key puts the list in non-increasing order of
    the key. *)
Lemma sort_by_neg_key (l : list A) :
  Spec.ordered (fun x y => key y <=? key x) (Py.sort_by (fun x y => - key x <=? - key y) l).
Proof.
  pose proof (sort_by_ordered (fun x y => - key x <=? - key y) l neg_key_total) as Ho.
  eapply (ordered_map _ (fun c => c) (fun x y => key y <=? key x)) in Ho.
  - by rewrite map_id in Ho.
  - intros a b Hab%Z.leb_le. apply Z.leb_le. lia.
Qed.

End DescendingKey.

Section BuilderEmit.
Import Builder.

Implicit Types (ms rest : list Member.t) (m c : Member.t) (cl : Cluster.t)
  (freq : list (string * Z)).

Lemma sort_members_head c rest ms :
  sort_members ms = c :: rest ->
  (c ∈ ms) /\ (forall m, m ∈ rest -> m ∈ ms)
  /\ Forall (fun m => Member.count m <= Member.count c) rest
  /\ Spec.ordered (fun x y => Member.count y <=? Member.count x) rest
  /\ length ms = S (length rest).
Proof.
  intros E.
  assert (Spec.ordered (fun x y => - Member.count x <=? - Member.count y) (c :: rest)) as Ho.
  { rewrite <- E. apply sort_by_ordered. intros a b.
    destruct (Z.leb_spec (- Member.count a) (- Member.count b)); [by left|right].
    apply Z.leb_le. lia. }
  assert (forall a b c0 : Member.t,
             (- Member.count a <=? - Member.count b) = true ->
             (- Member.count b <=? - Member.count c0) = true ->
             (- Member.count a <=? - Member.count c0) = true) as Htr.
  { intros a b c0 H1%Z.leb_le H2%Z.leb_le. apply Z.leb_le. lia. }
  assert (forall m, m ∈ c :: rest <-> m ∈ ms) as Hin.
  { intros m. rewrite <- E. apply sort_by_elem_of. }
  split_and!.
  - apply Hin. left.
  - intros m Hm. apply Hin. by right.
  - eapply Forall_impl; [apply (ordered_head_le _ c rest Htr Ho)|].
    intros m Hm%Z.leb_le. simpl in Hm. lia.
  - apply ordered_tail in Ho.
    eapply (ordered_map _ (fun m => m)) in Ho; [by rewrite map_id in Ho|].
    intros a b Hab%Z.leb_le. apply Z.leb_le. lia.
  - rewrite <- (sort_by_length (fun x y => - Member.count x <=? - Member.count y) ms).
    unfold sort_members in E. by rewrite E.
Qed.

(** All the fields of an emitted cluster. *)
Lemma emit_fields ms cl :
  emit ms = Some cl ->
  exists c rest,
    sort_members ms = c :: rest
    /\ cl = Cluster.mk (Member.name c) (Member.count c) (Member.base c)
              (match Member.form c with [] => "base" | f => Py.join "+" f end)
              (map to_alias (List.filter (fun m => 5 <=? Member.count m) rest))
              (sum_counts (c :: rest))
    /\ (Cluster.aliases cl <> [] \/ 50 <= Member.count c).
Proof.
  unfold emit. destruct (sort_members ms) as [|c rest] eqn:E; [done|].
  intros H. exists c, rest. split; [done|].
  destruct ((length ms =? 1)%nat && (Member.count c <? 50)); [done|].
  cbn [Cluster.aliases] in H.
  destruct (map to_alias (List.filter (fun m => 5 <=? Member.count m) rest)) as [|a l] eqn:Ea.
  - destruct (50 <=? Member.count c) eqn:E50; [|done].
    injection H as <-. split; [done|]. right. by apply Z.leb_le.
  - injection H as <-. split; [done|]. by left.
Qed.

Lemma filter_length_perm {A : Type} (P : A -> bool) (l l' : list A) :
  l ≡ₚ l' -> length (List.filter P l) = length (List.filter P l').
Proof. intros H. apply Permutation_length. by apply filter_perm. Qed.

(** Which groups are emitted. *)
Lemma emit_is_Some ms :
  is_Some (emit ms) <->
  (exists m, (m ∈ ms) /\ 50 <= Member.count m)
  \/ (2 <= length (List.filter (fun m => (5 <=? Member.count m)%Z) ms))%nat.
Proof.
  assert (sort_members ms ≡ₚ ms) as Hp by apply sort_by_perm.
  rewrite <- (filter_length_perm _ _ _ Hp).
  unfold emit. destruct (sort_members ms) as [|c rest] eqn:E.
  - apply Permutation_nil in Hp as ->. split.
    + by intros [? ?].
    + intros [(m & Hm & _)|H]; [by apply elem_of_nil in Hm|]. simpl in H. lia.
  - destruct (sort_members_head c rest ms E) as (Hc & Hrest & Hmax & _ & Hlen).
    rewrite Forall_forall in Hmax.
    cbn [Cluster.aliases].
    destruct (Z.leb_spec 50 (Member.count c)) as [H50|H50].
    + assert ((Member.count c <? 50) = false) as -> by (apply Z.ltb_ge; lia).
      rewrite andb_false_r. split; [|by destruct (map to_alias _)].
      intros _. left. by exists c.
    + assert ((Member.count c <? 50) = true) as -> by (apply Z.ltb_lt; lia).
      rewrite andb_true_r.
      destruct (List.filter (fun m => 5 <=? Member.count m) rest) as [|x t] eqn:Ef.
      * simpl. rewrite Ef. simpl. split.
        -- destruct (length ms =? 1)%nat; by intros [? ?].
        -- intros [(m & Hm & H)|H].
           ++ assert (m ∈ c :: rest) as Hin by (by rewrite Hp).
              apply elem_of_cons in Hin as [->|Hin]; [lia|]. apply Hmax in Hin. lia.
           ++ destruct (5 <=? Member.count c); simpl in H; lia.
      * assert (x ∈ rest /\ 5 <= Member.count x) as [Hx H5].
        { assert (In x (List.filter (fun m => 5 <=? Member.count m) rest)) as Hin
            by (rewrite Ef; by left).
          apply filter_In in Hin as [Hin H5]. split; [by apply list_elem_of_In|lia]. }
        assert ((length ms =? 1)%nat = false) as ->.
        { apply Nat.eqb_neq. rewrite Hlen. destruct rest; [by apply elem_of_nil in Hx|].
          simpl. lia. }
        simpl. split; [|done]. intros _. right.
        assert ((5 <=? Member.count c) = true) as ->.
        { apply Z.leb_le. apply Hmax in Hx. lia. }
        rewrite Ef. simpl. lia.
Qed.

Lemma group_member_facts (k : string) (min_freq : Z) freq m :
  m ∈ Spec.group_of k min_freq freq ->
  ((Member.name m, Member.count m) ∈ freq)
  /\ min_freq <= Member.count m
  /\ (Member.base m, Member.form m) = extract_base_and_form (Member.name m)
  /\ Member.base m <> []
  /\ Spec.cluster_key_of (Member.name m) = k.
Proof.
  intros Hm. pose proof (group_of_key _ _ _ _ Hm) as Hk.
  unfold Spec.group_of in Hm. apply list_elem_of_omap in Hm as (item & Hitem & Hmf).
  unfold Spec.member_for in Hmf.
  destruct (keyed_member min_freq item) as [[k' m']|] eqn:E; [|done].
  destruct (String.eqb k' k); [|done]. injection Hmf as ->.
  apply keyed_member_item in E as (-> & H1 & H2 & H3 & _). done.
Qed.

(** An emitted cluster, its group and its sorted members. *)
Lemma build_clusters_origin freq (min_freq : Z) cl :
  cl ∈ build_clusters freq min_freq ->
  exists k c rest,
    sort_members (Spec.group_of k min_freq freq) = c :: rest
    /\ cl = Cluster.mk (Member.name c) (Member.count c) (Member.base c)
              (match Member.form c with [] => "base" | f => Py.join "+" f end)
              (map to_alias (List.filter (fun m => 5 <=? Member.count m) rest))
              (sum_counts (c :: rest))
    /\ (Cluster.aliases cl <> [] \/ 50 <= Member.count c).
Proof.
  intros Hcl. apply elem_of_build_clusters in Hcl as (k & ms & Hk & Hemit).
  apply members_of_Some_group in Hk as [-> _].
  apply emit_fields in Hemit as (c & rest & Hs & Hcl & Hth). by exists k, c, rest.
Qed.

(** X5: the canonical of every emitted cluster is an item of the
    frequency table that passes [--min-freq] and has a base token; the
    [base] and [form] fields are its own classification; the cluster has an
    alias or its canonical count is at least 50; and the output is in
    non-increasing order of [totalUsage]. *)
Theorem emitted_canonical (freq : list (string * Z)) (min_freq : Z) :
  Forall (fun cl =>
            ((Cluster.canonical cl, Cluster.count cl) ∈ freq)
            /\ min_freq <= Cluster.count cl
            /\ Cluster.base cl = (extract_base_and_form (Cluster.canonical cl)).1
            /\ Cluster.base cl <> []
            /\ Cluster.form cl =
                 match (extract_base_and_form (Cluster.canonical cl)).2 with
                 | [] => "base"
                 | f => Py.join "+" f
                 end
            /\ (Cluster.aliases cl <> [] \/ 50 <= Cluster.count cl))
    (build_clusters freq min_freq)
  /\ Spec.ordered (fun x y => Cluster.totalUsage y <=? Cluster.totalUsage x)
       (build_clusters freq min_freq).
Proof.
  split.
  - apply Forall_forall. intros cl Hcl.
    apply build_clusters_origin in Hcl as (k & c & rest & Hs & -> & Hth).
    destruct (sort_members_head _ _ _ Hs) as (Hc & _).
    apply group_member_facts in Hc as (H1 & H2 & H3 & H4 & _).
    cbn [Cluster.canonical Cluster.count Cluster.base Cluster.form Cluster.aliases] in *.
    rewrite <- H3. done.
  - unfold build_clusters, sort_output. apply (sort_by_neg_key Cluster.totalUsage).
Qed.

(** X6: every alias of an emitted cluster is an item of the frequency
    table that passes [--min-freq], has the cluster key of the canonical
    and a count not above the canonical's; the aliases are listed in
    non-increasing order of count. *)
Theorem emitted_aliases (freq : list (string * Z)) (min_freq : Z) :
  Forall (fun cl =>
            Forall (fun a =>
                      ((Alias.name a, Alias.count a) ∈ freq)
                      /\ min_freq <= Alias.count a
                      /\ Alias.count a <= Cluster.count cl
                      /\ Spec.cluster_key_of (Alias.name a)
                         = Spec.cluster_key_of (Cluster.canonical cl))
              (Cluster.aliases cl)
            /\ Spec.ordered (fun a b => Alias.count b <=? Alias.count a) (Cluster.aliases cl))
    (build_clusters freq min_freq).
Proof.
  apply Forall_forall. intros cl Hcl.
  apply build_clusters_origin in Hcl as (k & c & rest & Hs & -> & Hth).
  destruct (sort_members_head _ _ _ Hs) as (Hc & Hrest & Hmax & Hord & _).
  apply group_member_facts in Hc as (_ & _ & _ & _ & Hkc).
  cbn [Cluster.canonical Cluster.count Cluster.aliases].
  split.
  - apply Forall_forall. intros a Ha.
    apply list_elem_of_In, in_map_iff in Ha as (m & <- & Hm).
    apply filter_In in Hm as [Hm _]. apply list_elem_of_In in Hm.
    rewrite Forall_forall in Hmax. pose proof (Hmax _ Hm) as Hle.
    apply Hrest, group_member_facts in Hm as (H1 & H2 & _ & _ & Hk).
    simpl. by rewrite Hk, Hkc.
  - apply (ordered_map (fun x y => Member.count y <=? Member.count x)); [done|].
    apply ordered_filter; [|done].
    intros x y z H1%Z.leb_le H2%Z.leb_le. apply Z.leb_le. lia.
Qed.

Lemma members_of_In (k : string) ms (g : list (string * list Member.t)) :
  members_of k g = Some ms -> (k, ms) ∈ g.
Proof.
  induction g as [|[k' ms'] g IH]; simpl; [done|].
  destruct (String.eqb_spec k' k) as [->|].
  - intros [= ->]. left.
  - intros H. right. by apply IH.
Qed.

(** X7: a cluster is emitted for a key exactly when some member of
    the key's group has a count of at least 50, or at least two members
    have a count of at least 5 (the test on [len(members) == 1] adds
    nothing to the final test). *)
Theorem emission_criterion (freq : list (string * Z)) (min_freq : Z) (k : string) :
  (exists cl, (cl ∈ build_clusters freq min_freq)
              /\ Spec.cluster_key_of (Cluster.canonical cl) = k)
  <-> (exists m, (m ∈ Spec.group_of k min_freq freq) /\ 50 <= Member.count m)
      \/ (2 <= length (List.filter (fun m => (5 <=? Member.count m)%Z)
                         (Spec.group_of k min_freq freq)))%nat.
Proof.
  rewrite <- emit_is_Some. split.
  - intros (cl & Hcl & Hk).
    apply elem_of_build_clusters in Hcl as (k' & ms & Hms & Hemit).
    apply members_of_Some_group in Hms as [-> _].
    assert (k' = k) as ->; [|by rewrite Hemit].
    apply emit_fields in Hemit as (c & rest & Hs & -> & _).
    destruct (sort_members_head _ _ _ Hs) as (Hc & _).
    apply group_of_key in Hc. simpl in Hk. congruence.
  - intros [cl Hemit]. exists cl.
    assert (Spec.group_of k min_freq freq <> []) as Hne.
    { intros E. rewrite E in Hemit. done. }
    split.
    + unfold build_clusters, sort_output. rewrite sort_by_elem_of, list_elem_of_omap.
      exists (Spec.group_of k min_freq freq). split; [|done].
      apply list_elem_of_fmap. exists (k, Spec.group_of k min_freq freq). split; [done|].
      apply members_of_In. rewrite members_of_group_clusters.
      by destruct (Spec.group_of k min_freq freq).
    + apply emit_fields in Hemit as (c & rest & Hs & -> & _).
      destruct (sort_members_head _ _ _ Hs) as (Hc & _).
      by apply group_of_key in Hc.
Qed.

End BuilderEmit.


(** ** Further properties: the merger on arbitrary inputs *)
Section MergerAdd.
Import Merger.

Implicit Types (st : state) (c : Cluster.t) (e : Entry.t)
  (table : list (string * list (list string))).

Lemma add_form_added (l : list string) (sfs : option (list string)) (ex : gset string)
    (n : nat) :
  (forall k, k ∈ ex <-> k ∈ map Py.lower (default [] sfs)) ->
  exists added ex',
    fold_left add_form l (sfs, ex, n)
      = (match added with [] => sfs | _ => Some (default [] sfs ++ added) end,
         ex', (n + length added)%nat)
    /\ added `sublist_of` l
    /\ (NoDup (map Py.lower (default [] sfs)) ->
        NoDup (map Py.lower (default [] sfs ++ added))).
Proof.
  revert sfs ex n. induction l as [|f l IH]; intros sfs ex n Hex; simpl.
  - exists [], ex. split_and!; [by rewrite Nat.add_0_r|done|by rewrite app_nil_r].
  - case_bool_decide as Hf.
    + destruct (IH sfs ex n Hex) as (added & ex' & E & Hsub & Hnd).
      exists added, ex'. split_and!; [done|by apply sublist_cons|done].
    + destruct (IH (Some (default [] sfs ++ [f])) ({[Py.lower f]} ∪ ex) (S n))
        as (added & ex' & E & Hsub & Hnd).
      { intros k. simpl. rewrite map_app, elem_of_app, elem_of_union, elem_of_singleton.
        simpl. rewrite list_elem_of_singleton, Hex. tauto. }
      exists (f :: added), ex'. split_and!.
      * rewrite E. simpl. f_equal; [|lia]. f_equal.
        destruct added; [done|]. by rewrite <- app_assoc.
      * by apply sublist_skip.
      * intros H. simpl in Hnd. rewrite <- app_assoc in Hnd. apply Hnd.
        rewrite map_app. apply NoDup_app. split_and!; [done| |apply NoDup_singleton].
        intros x Hx Hx'. simpl in Hx'. apply list_elem_of_singleton in Hx' as ->.
        apply Hf. by apply Hex.
Qed.

(** The merged entry and the counters, field by field; [added] are the
    surface forms appended. *)
Lemma merge_entry_full table c e (s : Stats.t) :
  exists added,
    (merge_entry table c e s).1
      = Entry.mk (Entry.slug e) (Entry.displayName e)
          (match added with [] => Entry.surfaceForms e | _ => Some (Entry.forms e ++ added) end)
          (match table_get table (Py.lower (Cluster.canonical c)), Entry.confirmTokens e with
           | Some t, None => Some t
           | _, _ => Entry.confirmTokens e
           end)
          (if match Entry.recipeCount e with
              | Some r => r <? Cluster.totalUsage c
              | None => true
              end then Some (Cluster.totalUsage c) else Entry.recipeCount e)
          (Entry.fdcCandidate e)
    /\ (merge_entry table c e s).2
         = Stats.mk (Stats.surface_forms_added s + length added)
             (Stats.confirm_tokens_added s +
                match table_get table (Py.lower (Cluster.canonical c)), Entry.confirmTokens e with
                | Some t, None => 1
                | _, _ => 0
                end)
             (Stats.recipe_counts_added s +
                if match Entry.recipeCount e with
                   | Some r => r <? Cluster.totalUsage c
                   | None => true
                   end then 1 else 0)
             (Stats.new_entries_created s) (Stats.clusters_matched s)
             (Stats.clusters_unmatched s)
    /\ added `sublist_of` all_forms c
    /\ (NoDup (Spec.lower_forms e) -> NoDup (map Py.lower (Entry.forms e ++ added))).
Proof.
  unfold merge_entry.
  destruct (add_form_added (all_forms c) (Entry.surfaceForms e)
              (list_to_set (map Py.lower (Entry.forms e))) 0%nat (existing_forms_spec e))
    as (added & ex' & -> & Hsub & Hnd).
  exists added. split_and!; [| |done|done].
  - destruct (match Entry.recipeCount e with
              | Some r => r <? Cluster.totalUsage c
              | None => true
              end);
      by destruct (table_get table _), (Entry.confirmTokens e).
  - destruct s as [a b d n m u]. unfold Stats.add_surface_forms, Stats.add_recipe_counts,
      Stats.add_confirm_tokens.
    destruct (match Entry.recipeCount e with
              | Some r => r <? Cluster.totalUsage c
              | None => true
              end);
      destruct (table_get table _), (Entry.confirmTokens e); simpl; f_equal; lia.
Qed.

Lemma forms_merged e (added : list string) :
  default [] (match added with [] => Entry.surfaceForms e | _ => Some (Entry.forms e ++ added) end)
  = Entry.forms e ++ added.
Proof. destruct added; simpl; [by rewrite app_nil_r|done]. Qed.

Lemma extends_refl e : Spec.extends e e.
Proof. split_and!; try done. intros r ->. exists r. split; [done|lia]. Qed.

Lemma extends_trans e1 e2 e3 :
  Spec.extends e1 e2 -> Spec.extends e2 e3 -> Spec.extends e1 e3.
Proof.
  intros (A1 & A2 & A3 & A4 & A5 & A6) (B1 & B2 & B3 & B4 & B5 & B6).
  split_and!; try congruence.
  - by etrans.
  - intros t Ht. by apply B5, A5.
  - intros r Hr. destruct (A6 r Hr) as (r' & Hr' & Hle).
    destruct (B6 r' Hr') as (r'' & Hr'' & Hle'). exists r''. split; [done|lia].
Qed.

Lemma merge_entry_extends table c e (s : Stats.t) :
  Spec.extends e (merge_entry table c e s).1.
Proof.
  destruct (merge_entry_full table c e s) as (added & -> & _).
  split_and!; try done.
  - unfold Entry.forms at 2. cbn [Entry.surfaceForms]. rewrite forms_merged.
    by apply prefix_app_r.
  - cbn [Entry.confirmTokens]. intros t ->. by destruct (table_get _ _).
  - cbn [Entry.recipeCount]. intros r ->. destruct (Z.ltb_spec r (Cluster.totalUsage c)).
    + eexists. split; [done|lia].
    + exists r. split; [done|lia].
Qed.

Lemma tokens_only_extends e e' : Spec.tokens_only e e' -> Spec.extends e e'.
Proof.
  intros (H1 & H2 & H3 & H4 & H5 & H6). split_and!; try done.
  - unfold Entry.forms. by rewrite H3.
  - intros t Ht. rewrite H6; [done|by eexists].
  - intros r Hr. exists r. split; [congruence|lia].
Qed.

End MergerAdd.

Section Measures.
Context (mu : list Entry.t -> nat).
Hypothesis mu_app : forall l1 l2, mu (l1 ++ l2) = (mu l1 + mu l2)%nat.

Lemma mu_update (l : list Entry.t) (i : nat) (e e' : Entry.t) :
  l !! i = Some e -> (mu (<[i := e']> l) + mu [e] = mu l + mu [e'])%nat.
Proof.
  intros Hi. pose proof (lookup_lt_Some _ _ _ Hi) as Hlt.
  rewrite insert_take_drop by done.
  rewrite <- (take_drop_middle l i e Hi) at 3.
  change (e' :: drop (S i) l) with ([e'] ++ drop (S i) l).
  change (e :: drop (S i) l) with ([e] ++ drop (S i) l).
  rewrite !mu_app. lia.
Qed.

End Measures.

Section Tally.
Import Merger.

Implicit Types (st : state) (c : Cluster.t) (e : Entry.t) (l : list Entry.t)
  (table : list (string * list (list string))).

Lemma total_fold l (a : nat) :
  fold_left (fun acc e => (acc + length (Entry.forms e))%nat) l a
  = (a + total_surface_forms l)%nat.
Proof.
  unfold total_surface_forms. revert a.
  induction l as [|e l IH]; intros a; simpl; [lia|].
  rewrite IH, (IH (length (Entry.forms e))). lia.
Qed.

Lemma total_app l1 l2 :
  total_surface_forms (l1 ++ l2) = (total_surface_forms l1 + total_surface_forms l2)%nat.
Proof. unfold total_surface_forms at 1. by rewrite fold_left_app, total_fold, total_fold. Qed.

Lemma total_one e : total_surface_forms [e] = length (Entry.forms e).
Proof. done. Qed.

Lemma with_confirm_app l1 l2 :
  with_confirm (l1 ++ l2) = (with_confirm l1 + with_confirm l2)%nat.
Proof. unfold with_confirm. by rewrite List.filter_app, List.length_app. Qed.

Lemma with_recipe_count_app l1 l2 :
  with_recipe_count (l1 ++ l2) = (with_recipe_count l1 + with_recipe_count l2)%nat.
Proof. unfold with_recipe_count. by rewrite List.filter_app, List.length_app. Qed.

Lemma with_confirm_one e :
  with_confirm [e] = match Entry.confirmTokens e with Some _ => 1%nat | None => 0%nat end.
Proof. unfold with_confirm. simpl. by destruct (Entry.confirmTokens e). Qed.

Lemma with_recipe_count_one e :
  with_recipe_count [e] = match Entry.recipeCount e with Some _ => 1%nat | None => 0%nat end.
Proof. unfold with_recipe_count. simpl. by destruct (Entry.recipeCount e). Qed.

Lemma total_perm l l' : l ≡ₚ l' -> total_surface_forms l = total_surface_forms l'.
Proof.
  induction 1 as [|x l l' _ IH|x y l|l1 l2 l3 _ IH1 _ IH2]; [done| | |congruence].
  - change (x :: l) with ([x] ++ l). change (x :: l') with ([x] ++ l').
    by rewrite !total_app, IH.
  - change (y :: x :: l) with ([y] ++ [x] ++ l). change (x :: y :: l) with ([x] ++ [y] ++ l).
    rewrite !total_app. lia.
Qed.

Lemma with_confirm_perm l l' : l ≡ₚ l' -> with_confirm l = with_confirm l'.
Proof. intros H. unfold with_confirm. by apply filter_length_perm. Qed.

Lemma with_recipe_count_perm l l' : l ≡ₚ l' -> with_recipe_count l = with_recipe_count l'.
Proof. intros H. unfold with_recipe_count. by apply filter_length_perm. Qed.

Lemma tally_update (o l : list Entry.t) (s s' : Stats.t) (i : nat) e e' :
  Spec.tally o l s -> l !! i = Some e ->
  (length (Entry.forms e') + Stats.surface_forms_added s
   = length (Entry.forms e) + Stats.surface_forms_added s')%nat ->
  (with_confirm [e'] + Stats.confirm_tokens_added s
   = with_confirm [e] + Stats.confirm_tokens_added s')%nat ->
  (with_recipe_count [e] <= with_recipe_count [e'])%nat ->
  (with_recipe_count [e'] + Stats.recipe_counts_added s
   <= with_recipe_count [e] + Stats.recipe_counts_added s')%nat ->
  Spec.tally o (<[i := e']> l) s'.
Proof.
  intros (T1 & T2 & T3 & T4) Hi H1 H2 H3 H4.
  pose proof (mu_update total_surface_forms total_app l i e e' Hi) as M1.
  pose proof (mu_update with_confirm with_confirm_app l i e e' Hi) as M2.
  pose proof (mu_update with_recipe_count with_recipe_count_app l i e e' Hi) as M3.
  rewrite !total_one in M1. unfold Spec.tally. lia.
Qed.

Lemma tally_merge_entry (o l : list Entry.t) table c (s : Stats.t) (i : nat) e :
  Spec.tally o l s -> l !! i = Some e ->
  Spec.tally o (<[i := (merge_entry table c e (Stats.incr_matched s)).1]> l)
    (merge_entry table c e (Stats.incr_matched s)).2.
Proof.
  intros HT Hi.
  destruct (merge_entry_full table c e (Stats.incr_matched s)) as (added & -> & -> & _).
  eapply tally_update; [exact HT|exact Hi| | | |].
  - unfold Entry.forms at 1. cbn [Entry.surfaceForms Stats.surface_forms_added].
    rewrite forms_merged, List.length_app. destruct s; simpl. lia.
  - rewrite !with_confirm_one. cbn [Entry.confirmTokens Stats.confirm_tokens_added].
    destruct s; simpl.
    destruct (table_get table _), (Entry.confirmTokens e); lia.
  - rewrite !with_recipe_count_one. cbn [Entry.recipeCount].
    destruct (Entry.recipeCount e); [|lia].
    destruct (_ <? _); lia.
  - rewrite !with_recipe_count_one. cbn [Entry.recipeCount Stats.recipe_counts_added].
    destruct s; simpl.
    destruct (Entry.recipeCount e) as [r|]; [destruct (r <? _)|]; lia.
Qed.

Lemma tally_with_tokens (o l : list Entry.t) (s : Stats.t) (i : nat) e
    (tokens : list (list string)) :
  Spec.tally o l s -> l !! i = Some e -> Entry.confirmTokens e = None ->
  Spec.tally o (<[i := Spec.with_tokens tokens e]> l) (Stats.add_confirm_tokens 1 s).
Proof.
  intros HT Hi Hnone. eapply tally_update; [exact HT|exact Hi| | | |].
  - destruct s; simpl. done.
  - rewrite !with_confirm_one, Hnone. destruct s; simpl. lia.
  - by rewrite !with_recipe_count_one.
  - rewrite !with_recipe_count_one. destruct s; simpl. lia.
Qed.

Lemma tally_init (o : list Entry.t) : Spec.tally o o Stats.zero.
Proof. unfold Spec.tally. simpl. lia. Qed.

Lemma tally_perm (o l l' : list Entry.t) (s : Stats.t) :
  l ≡ₚ l' -> Spec.tally o l s -> Spec.tally o l' s.
Proof.
  intros Hp. unfold Spec.tally.
  by rewrite (total_perm _ _ Hp), (with_confirm_perm _ _ Hp), (with_recipe_count_perm _ _ Hp).
Qed.

End Tally.

Section MergerLoops.
Import Merger.

Implicit Types (st : state) (c : Cluster.t) (e : Entry.t) (l : list Entry.t)
  (table : list (string * list (list string))).

Lemma foldM_prefix {A B : Type} (I : list B -> A -> Prop) (f : A -> B -> option A)
    (l : list B) (a : A) :
  (forall P a b, I P a -> exists a', f a b = Some a' /\ I (P ++ [b]) a') ->
  I [] a -> exists a', foldM f a l = Some a' /\ I l a'.
Proof.
  intros Hstep.
  assert (forall P a, I P a -> exists a', foldM f a l = Some a' /\ I (P ++ l) a') as H.
  { induction l as [|b l IH]; intros P a0 Ha; simpl.
    - exists a0. by rewrite app_nil_r.
    - destruct (Hstep P a0 b Ha) as (a1 & -> & Ha1). simpl.
      destruct (IH (P ++ [b]) a1 Ha1) as (a2 & E & Ha2). exists a2.
      split; [done|]. by rewrite <- app_assoc in Ha2. }
  intros Ha. by apply (H [] a).
Qed.

(** The step of the second pass: nothing, or a token set attached to an
    entry that had none. *)
Lemma confirm_step_cases st st' (item : string * list (list string)) :
  confirm_step st item = Some st' ->
  st' = st
  \/ exists i e,
       ontology st !! i = Some e /\ Entry.confirmTokens e = None
       /\ st' = mkState (<[i := Spec.with_tokens item.2 e]> (ontology st))
                  (slug_to_entry st) (surface_to_slug st)
                  (Stats.add_confirm_tokens 1 (stats st)) (unmatched_clusters st).
Proof.
  destruct item as [key tokens]. unfold confirm_step.
  destruct (surface_to_slug st !! key) as [s|]; [|intros [= <-]; by left].
  destruct (String.eqb s ""); [intros [= <-]; by left|].
  destruct (slug_to_entry st !! s) as [i|]; [|intros [= <-]; by left].
  destruct (ontology st !! i) as [e|] eqn:He; [|done]. simpl.
  destruct (Entry.confirmTokens e) eqn:Hc; [intros [= <-]; by left|].
  intros [= <-]. right. by exists i, e.
Qed.

Lemma ledger_confirm_step (P : list Cluster.t) st st' (item : string * list (list string)) :
  confirm_step st item = Some st' -> Spec.ledger P st -> Spec.ledger P st'.
Proof.
  intros H HL. apply confirm_step_cases in H as [->|(i & e & _ & _ & ->)]; [done|].
  unfold Spec.ledger in *. destruct (stats st); simpl in *. done.
Qed.

Lemma tally_confirm_step (o : list Entry.t) st st' (item : string * list (list string)) :
  confirm_step st item = Some st' ->
  Spec.tally o (ontology st) (stats st) -> Spec.tally o (ontology st') (stats st').
Proof.
  intros H HT. apply confirm_step_cases in H as [->|(i & e & Hi & Hc & ->)]; [done|].
  simpl. by apply tally_with_tokens.
Qed.

Lemma confirm_pass_counters (o : list Entry.t) (P : list Cluster.t) table st st' :
  foldM confirm_step st table = Some st' ->
  Spec.tally o (ontology st) (stats st) /\ Spec.ledger P st ->
  Spec.tally o (ontology st') (stats st') /\ Spec.ledger P st'.
Proof.
  revert st. induction table as [|item table IH]; intros st; simpl.
  - by intros [= <-].
  - destruct (confirm_step st item) as [st1|] eqn:E; [|done]. simpl.
    intros H [HT HL]. apply (IH st1 H). split.
    + by eapply tally_confirm_step.
    + by eapply ledger_confirm_step.
Qed.

Lemma ledger_route_unmatched (P : list Cluster.t) st c :
  Spec.ledger P st -> Spec.ledger (P ++ [c]) (route_unmatched st c).
Proof.
  intros (L1 & L2 & L3 & L4 & L5). unfold Spec.ledger, route_unmatched.
  destruct (stats st); simpl in *.
  rewrite !List.length_app, map_app. simpl. split_and!; try lia.
  by apply sublist_app.
Qed.

Lemma ledger_matched (P : list Cluster.t) st c table (i : nat) e (idx : gmap string string) :
  Spec.ledger P st ->
  Spec.ledger (P ++ [c])
    (mkState (<[i := (merge_entry table c e (Stats.incr_matched (stats st))).1]> (ontology st))
       (slug_to_entry st) idx
       (merge_entry table c e (Stats.incr_matched (stats st))).2 (unmatched_clusters st)).
Proof.
  intros (L1 & L2 & L3 & L4 & L5). unfold Spec.ledger.
  destruct (merge_entry_full table c e (Stats.incr_matched (stats st))) as (added & _ & -> & _).
  destruct (stats st); simpl in *.
  rewrite !List.length_app, map_app. simpl. split_and!; try lia.
  - destruct (match Entry.recipeCount e with Some r => r <? _ | None => true end); lia.
  - by apply sublist_inserts_r.
Qed.

Lemma conserved_route_unmatched table (P : list Cluster.t) st c :
  Spec.conserved table P (ontology st) (unmatched_clusters st) ->
  Spec.conserved table (P ++ [c]) (ontology (route_unmatched st c))
    (unmatched_clusters (route_unmatched st c)).
Proof.
  intros HC c0 Hc0. simpl. apply elem_of_app in Hc0 as [Hc0|Hc0].
  - destruct (HC c0 Hc0) as [H|H]; [left|by right]. apply elem_of_app. by left.
  - apply list_elem_of_singleton in Hc0 as ->. left. apply elem_of_app. right. left.
Qed.

Lemma conserved_matched table (P : list Cluster.t) l (us : list Unmatched.t) c
    (i : nat) e (s : Stats.t) :
  l !! i = Some e ->
  Spec.conserved table P l us ->
  Spec.conserved table (P ++ [c]) (<[i := (merge_entry table c e s).1]> l) us.
Proof.
  intros Hi HC c0 Hc0.
  destruct (merge_entry_result table c e s) as (Habs & Hgrow & _).
  pose proof (lookup_lt_Some _ _ _ Hi) as Hlt.
  assert ((merge_entry table c e s).1 ∈ <[i := (merge_entry table c e s).1]> l) as Hin.
  { eapply list_elem_of_lookup_2. by apply list_lookup_insert_eq. }
  apply elem_of_app in Hc0 as [Hc0|Hc0].
  - destruct (HC c0 Hc0) as [H|(e0 & He0 & Ha0)]; [by left|right].
    apply list_elem_of_lookup in He0 as [j Hj].
    destruct (decide (j = i)) as [->|Hne].
    + rewrite Hi in Hj. injection Hj as <-.
      eexists. split; [exact Hin|]. by eapply absorbs_grows.
    + exists e0. split; [|done]. eapply list_elem_of_lookup_2.
      by rewrite list_lookup_insert_ne.
  - apply list_elem_of_singleton in Hc0 as ->. right. eexists. by split.
Qed.

(** The state after the loop over the clusters. *)
Lemma cluster_loop (cs : list Cluster.t) table (o : list Entry.t) :
  exists st,
    foldM (process_cluster table) (init o) cs = Some st
    /\ Spec.refs_ok st
    /\ Forall2 Spec.extends o (ontology st)
    /\ Spec.tally o (ontology st) (stats st)
    /\ Spec.ledger cs st
    /\ Spec.conserved table cs (ontology st) (unmatched_clusters st)
    /\ (Forall (fun e => NoDup (Spec.lower_forms e)) o ->
        Forall (fun e => NoDup (Spec.lower_forms e)) (ontology st)).
Proof.
  apply (foldM_prefix
           (fun P st =>
              Spec.refs_ok st
              /\ Forall2 Spec.extends o (ontology st)
              /\ Spec.tally o (ontology st) (stats st)
              /\ Spec.ledger P st
              /\ Spec.conserved table P (ontology st) (unmatched_clusters st)
              /\ (Forall (fun e => NoDup (Spec.lower_forms e)) o ->
                  Forall (fun e => NoDup (Spec.lower_forms e)) (ontology st)))).
  - intros P st c (Hok & Hext & HT & HL & HC & Hnd).
    destruct (process_cluster_total table st c Hok) as (st' & E & Hok').
    exists st'. split; [done|]. split; [done|].
    pose proof (process_cluster_cases table st c st' Hok E) as Hcase.
    destruct (Spec.effective (find_match st c)) as [s|].
    + destruct Hcase as (i & e & Hs & Hi & Hslug & ->). simpl. split_and!.
      * apply Forall2_update_r; [done|]. intros x Hx.
        destruct (Forall2_lookup_l _ _ _ _ _ Hext Hx) as (y & Hy & Hxy).
        rewrite Hi in Hy. injection Hy as <-.
        eapply extends_trans; [exact Hxy|apply merge_entry_extends].
      * by apply tally_merge_entry.
      * by apply ledger_matched.
      * by apply conserved_matched.
      * intros Ho. specialize (Hnd Ho). apply Forall_insert; [done|].
        destruct (merge_entry_full table c e (Stats.incr_matched (stats st)))
          as (added & -> & _ & _ & Hnd').
        unfold Spec.lower_forms, Entry.forms at 1. cbn [Entry.surfaceForms].
        rewrite forms_merged. apply Hnd'.
        rewrite Forall_forall in Hnd. by eapply Hnd, list_elem_of_lookup_2.
    + subst st'. split_and!; try done.
      * by apply ledger_route_unmatched.
      * by apply conserved_route_unmatched.
  - split_and!.
    + apply init_refs_ok.
    + simpl. apply Forall_Forall2_diag, Forall_forall. intros e _. apply extends_refl.
    + apply tally_init.
    + unfold Spec.ledger. simpl. split_and!; try done.
    + intros c Hc. by apply elem_of_nil in Hc.
    + done.
Qed.

(** The state after the two loops. *)
Lemma run_inv (cs : list Cluster.t) table (o : list Entry.t) :
  exists st,
    run cs table o = Some st
    /\ Forall2 Spec.extends o (ontology st)
    /\ Spec.tally o (ontology st) (stats st)
    /\ Spec.ledger cs st
    /\ Spec.conserved table cs (ontology st) (unmatched_clusters st)
    /\ (Forall (fun e => NoDup (Spec.lower_forms e)) o ->
        Forall (fun e => NoDup (Spec.lower_forms e)) (ontology st)).
Proof.
  destruct (cluster_loop cs table o) as (st1 & E1 & Hok & Hext & HT & HL & HC & Hnd).
  destruct (foldM_total Spec.refs_ok confirm_step table st1)
    as (st2 & E2 & _); [apply confirm_step_total|done|].
  exists st2. unfold run. rewrite E1. simpl. split; [done|].
  destruct (confirm_pass_frame st1 st2 table E2) as (_ & _ & Hu & Htok).
  destruct (confirm_pass_counters o cs table st1 st2 E2 (conj HT HL)) as [HT2 HL2].
  split_and!; try done.
  - eapply Forall2_trans; [|exact Hext|exact Htok].
    intros x y z Hxy Hyz. eapply extends_trans; [exact Hxy|by apply tokens_only_extends].
  - intros c Hc. rewrite Hu. destruct (HC c Hc) as [H|(e & He & Ha)]; [by left|right].
    apply list_elem_of_lookup in He as [j Hj].
    destruct (Forall2_lookup_l _ _ _ _ _ Htok Hj) as (e' & Hj' & Htk).
    exists e'. split; [by eapply list_elem_of_lookup_2|].
    eapply absorbs_grows; [exact Ha|by apply tokens_only_grows].
  - intros Ho. specialize (Hnd Ho). clear -Hnd Htok.
    induction Htok as [|x y l l' Hxy _ IH]; [done|].
    apply Forall_cons in Hnd as [Hx Hl]. constructor; [|by apply IH].
    destruct Hxy as (_ & _ & Hsf & _). unfold Spec.lower_forms, Entry.forms in *.
    by rewrite Hsf.
Qed.

End MergerLoops.

Section MergerResults.
Import Merger.

Implicit Types (c : Cluster.t) (e : Entry.t) (table : list (string * list (list string))).

Lemma merge_of_run (cs : list Cluster.t) table (o : list Entry.t) (st : state) :
  run cs table o = Some st ->
  merge cs table o =
    Some (mkResult (sort_ontology (ontology st)) (sort_unmatched (unmatched_clusters st))
            (stats st)).
Proof. unfold merge. by intros ->. Qed.

(** X11: a run of the merger never fails and only adds: on any input
    the merged ontology is a reordering by slug of the input entries, each
    with the same slug, display name and candidate, its surface forms
    extended at the end, its confirm tokens kept when it had some, its
    recipe count not decreased; no entry is created or dropped. *)
Theorem merge_additive (cs : list Cluster.t) table (o : list Entry.t) :
  exists r l,
    merge cs table o = Some r
    /\ Forall2 Spec.extends o l
    /\ merged r ≡ₚ l
    /\ Spec.ordered (fun x y => String.leb (Entry.slug x) (Entry.slug y)) (merged r)
    /\ length (merged r) = length o.
Proof.
  destruct (run_inv cs table o) as (st & E & Hext & _).
  eexists. exists (ontology st). split; [by apply merge_of_run|].
  cbn [merged]. split_and!; [done| | |].
  - apply sort_by_perm.
  - apply sort_by_ordered. intros a b. apply String.leb_total.
  - unfold sort_ontology. rewrite sort_by_length. symmetry. by eapply Forall2_length.
Qed.

(** X12: the cluster counters add up: matched plus unmatched is the
    number of clusters, the unmatched output has one record per unmatched
    cluster (records of input clusters, in non-increasing order of count),
    no entry is ever created, and at most one recipe count is set per
    matched cluster. *)
Theorem merge_ledger (cs : list Cluster.t) table (o : list Entry.t) :
  exists r us,
    merge cs table o = Some r
    /\ (Stats.clusters_matched (final_stats r) + Stats.clusters_unmatched (final_stats r)
        = length cs)%nat
    /\ length (unmatched r) = Stats.clusters_unmatched (final_stats r)
    /\ Stats.new_entries_created (final_stats r) = 0%nat
    /\ (Stats.recipe_counts_added (final_stats r) <= Stats.clusters_matched (final_stats r))%nat
    /\ us `sublist_of` map unmatched_record cs
    /\ unmatched r ≡ₚ us
    /\ Spec.ordered (fun x y => Unmatched.count y <=? Unmatched.count x) (unmatched r).
Proof.
  destruct (run_inv cs table o) as (st & E & _ & _ & (L1 & L2 & L3 & L4 & L5) & _).
  eexists. exists (unmatched_clusters st). split; [by apply merge_of_run|].
  cbn [unmatched final_stats]. split_and!; try done.
  - unfold sort_unmatched. by rewrite sort_by_length.
  - apply sort_by_perm.
  - apply (sort_by_neg_key Unmatched.count).
Qed.

(** X13: the figures of the final report agree with the counters:
    the total number of surface forms grows by [surface_forms_added], the
    number of entries with confirm tokens by [confirm_tokens_added] (both
    loops included), and the number of entries with a recipe count by at
    most [recipe_counts_added]. *)
Theorem merge_report_figures (cs : list Cluster.t) table (o : list Entry.t) :
  exists r,
    merge cs table o = Some r
    /\ total_surface_forms (merged r)
       = (total_surface_forms o + Stats.surface_forms_added (final_stats r))%nat
    /\ with_confirm (merged r)
       = (with_confirm o + Stats.confirm_tokens_added (final_stats r))%nat
    /\ (with_recipe_count o <= with_recipe_count (merged r))%nat
    /\ (with_recipe_count (merged r)
        <= with_recipe_count o + Stats.recipe_counts_added (final_stats r))%nat.
Proof.
  destruct (run_inv cs table o) as (st & E & _ & HT & _).
  eexists. split; [by apply merge_of_run|]. cbn [merged final_stats].
  apply (tally_perm o (ontology st)); [|done].
  symmetry. apply sort_by_perm.
Qed.

(** X14: the merger never gives an entry a surface form that it
    already has up to case: when the surface forms of every input entry
    are pairwise distinct case-insensitively, so are those of every merged
    entry. *)
Theorem merge_keeps_forms_distinct (cs : list Cluster.t) table (o : list Entry.t) :
  Forall (fun e => NoDup (Spec.lower_forms e)) o ->
  exists r,
    merge cs table o = Some r
    /\ Forall (fun e => NoDup (Spec.lower_forms e)) (merged r).
Proof.
  intros Ho. destruct (run_inv cs table o) as (st & E & _ & _ & _ & _ & Hnd).
  eexists. split; [by apply merge_of_run|]. cbn [merged].
  specialize (Hnd Ho). rewrite Forall_forall in Hnd. apply Forall_forall.
  intros e He. apply Hnd. by apply sort_ontology_elem_of.
Qed.

(** [X14] on a cluster whose names repeat forms of the entry up to case. *)
Lemma merge_keeps_forms_distinct_witness :
  let o := [Entry.mk "garlic" "Garlic" (Some ["Garlic"; "garlic cloves"]) None None None;
            Entry.mk "onion" "Onion" None None None None] in
  let cs := [Cluster.mk "GARLIC" 80 ["garlic"] "base"
               [Alias.mk "Garlic Cloves" 7; Alias.mk "garlics" 6; Alias.mk "Garlics" 5] 98] in
  exists r,
    merge cs [] o = Some r
    /\ Forall (fun e => NoDup (Spec.lower_forms e)) (merged r).
Proof.
  intros o cs. apply (merge_keeps_forms_distinct cs [] o).
  apply (bool_decide_unpack _). vm_compute. exact I.
Defined.

(** X15: no cluster is lost: after a run every input cluster has its
    record in the unmatched output, or some merged entry holds all its
    names as surface forms (up to case), a recipe count of at least its
    total usage and, when the synonym table knows its canonical, confirm
    tokens. *)
Theorem merge_conserves_clusters (cs : list Cluster.t) table (o : list Entry.t) :
  exists r,
    merge cs table o = Some r
    /\ Forall (fun c =>
                 unmatched_record c ∈ unmatched r
                 \/ exists e, (e ∈ merged r) /\ Spec.absorbs table c e) cs.
Proof.
  destruct (run_inv cs table o) as (st & E & _ & _ & _ & HC & _).
  eexists. split; [by apply merge_of_run|]. cbn [merged unmatched].
  apply Forall_forall. intros c Hc. destruct (HC c Hc) as [H|(e & He & Ha)].
  - left. unfold sort_unmatched. by apply sort_by_elem_of.
  - right. exists e. split; [by apply sort_ontology_elem_of|done].
Qed.

End MergerResults.


(** ** Further properties: the expander *)
Section ExpanderLoop.
Import Expander.

Implicit Types (slugs surfaces : gset string) (fdc : gmap string Candidate.t)
  (c : Unmatched.t) (cs : list Unmatched.t) (a : acc) (e : Entry.t).

Lemma expand_step_cases slugs surfaces fdc a c :
  expand_step slugs surfaces fdc a c =
    if Spec.skips slugs surfaces c then
      mkAcc (new_entries a) (S (skipped_existing a)) (skipped_no_fdc a)
    else
      mkAcc (new_entries a ++ [Spec.new_entry surfaces fdc c]) (skipped_existing a)
        (skipped_no_fdc a + if Spec.no_fdc (Spec.new_entry surfaces fdc c) then 1 else 0).
Proof.
  unfold expand_step, Spec.skips.
  case_bool_decide as H1; [done|]. case_bool_decide as H2; [done|].
  cbn [orb]. unfold Spec.no_fdc, Spec.new_entry. cbn [Entry.fdcCandidate].
  f_equal. destruct (fdc !! Py.lower (Unmatched.canonical c)); [lia|].
  destruct (alias_candidate fdc (Unmatched.aliases c)); lia.
Qed.

Lemma expand_fold slugs surfaces fdc cs a :
  fold_left (expand_step slugs surfaces fdc) cs a =
    let kept := List.filter (fun c => negb (Spec.skips slugs surfaces c)) cs in
    mkAcc (new_entries a ++ map (Spec.new_entry surfaces fdc) kept)
      (skipped_existing a + length (List.filter (Spec.skips slugs surfaces) cs))
      (skipped_no_fdc a
       + length (List.filter Spec.no_fdc (map (Spec.new_entry surfaces fdc) kept))).
Proof.
  revert a. induction cs as [|c cs IH]; intros a; cbn [fold_left].
  - destruct a. simpl. by rewrite app_nil_r, !Nat.add_0_r.
  - rewrite IH, expand_step_cases. cbn zeta. cbn [List.filter].
    destruct (Spec.skips slugs surfaces c); cbn [negb new_entries skipped_existing skipped_no_fdc].
    + f_equal. simpl. lia.
    + cbn [map List.filter]. rewrite <- app_assoc. f_equal.
      destruct (Spec.no_fdc (Spec.new_entry surfaces fdc c)); simpl; lia.
Qed.

Lemma process_spec (clusters : list Unmatched.t) fdc (ontology : list Entry.t) (min_count : Z) :
  process clusters fdc ontology min_count =
    let kept :=
      List.filter
        (fun c => negb (Spec.skips (existing_slugs ontology) (existing_surfaces ontology) c))
        (List.filter (fun c => min_count <=? Unmatched.count c) clusters) in
    let new := map (Spec.new_entry (existing_surfaces ontology) fdc) kept in
    mkAcc new
      (length (List.filter (Spec.skips (existing_slugs ontology) (existing_surfaces ontology))
                 (List.filter (fun c => min_count <=? Unmatched.count c) clusters)))
      (length (List.filter Spec.no_fdc new)).
Proof. unfold process. by rewrite expand_fold. Qed.

Lemma filter_split_length {A : Type} (P : A -> bool) (l : list A) :
  (length (List.filter (fun x => negb (P x)) l) + length (List.filter P l) = length l)%nat.
Proof. induction l as [|x l IH]; simpl; [done|]. destruct (P x); simpl; lia. Qed.

(** What the loop that assembles the surface forms appends. *)
Lemma add_alias_fold surfaces (aliases forms : list string) (seen : gset string) :
  (forall k, k ∈ seen <-> k ∈ forms) -> NoDup forms ->
  exists added,
    (fold_left (add_alias surfaces) aliases (forms, seen)).1 = forms ++ added
    /\ NoDup (forms ++ added)
    /\ Forall (fun f => (f ∉ surfaces) /\ exists al, (al ∈ aliases) /\ f = normalize_surface al)
         added
    /\ (forall al, al ∈ aliases ->
          normalize_surface al ∈ forms ++ added \/ normalize_surface al ∈ surfaces).
Proof.
  revert forms seen. induction aliases as [|al aliases IH]; intros forms seen Hseen Hnd.
  - exists []. rewrite app_nil_r. split_and!; try done.
    intros al Hal. by apply elem_of_nil in Hal.
  - cbn [fold_left]. unfold add_alias at 2. cbn [fst snd].
    case_bool_decide as H1; [case_bool_decide as H2|]; cbn [andb].
    + destruct (IH (forms ++ [normalize_surface al]) ({[normalize_surface al]} ∪ seen))
        as (added & E & Hnd' & Hall & Hcov).
      { intros k. rewrite elem_of_union, elem_of_singleton, elem_of_app,
          list_elem_of_singleton, Hseen. tauto. }
      { apply NoDup_app. split_and!; [done| |apply NoDup_singleton].
        intros x Hx Hx'. apply list_elem_of_singleton in Hx' as ->. apply H1. by apply Hseen. }
      exists (normalize_surface al :: added). rewrite <- app_assoc in E, Hnd', Hcov.
      split_and!; [done|done| |].
      * constructor.
        -- split; [done|]. exists al. split; [left|done].
        -- eapply Forall_impl; [exact Hall|]. intros f [Hf (al' & Hal' & ->)].
           split; [done|]. exists al'. split; [by right|done].
      * intros al' Hal'. apply elem_of_cons in Hal' as [->|Hal']; [|by apply Hcov].
        left. apply elem_of_app. right. left.
    + destruct (IH forms seen Hseen Hnd) as (added & E & Hnd' & Hall & Hcov).
      exists added. split_and!; [done|done| |].
      * eapply Forall_impl; [exact Hall|]. intros f [Hf (al' & Hal' & ->)].
        split; [done|]. exists al'. split; [by right|done].
      * intros al' Hal'. apply elem_of_cons in Hal' as [->|Hal']; [|by apply Hcov].
        by right.
    + destruct (IH forms seen Hseen Hnd) as (added & E & Hnd' & Hall & Hcov).
      exists added. split_and!; [done|done| |].
      * eapply Forall_impl; [exact Hall|]. intros f [Hf (al' & Hal' & ->)].
        split; [done|]. exists al'. split; [by right|done].
      * intros al' Hal'. apply elem_of_cons in Hal' as [->|Hal']; [|by apply Hcov].
        left. apply elem_of_app. left. by apply Hseen.
Qed.

Lemma new_entry_forms surfaces fdc c :
  exists added,
    Entry.surfaceForms (Spec.new_entry surfaces fdc c)
      = Some (normalize_surface (Unmatched.canonical c) :: added)
    /\ NoDup (normalize_surface (Unmatched.canonical c) :: added)
    /\ Forall (fun f => (f ∉ surfaces)
                        /\ exists al, (al ∈ Unmatched.aliases c) /\ f = normalize_surface al)
         added
    /\ (forall al, al ∈ Unmatched.aliases c ->
          normalize_surface al ∈ normalize_surface (Unmatched.canonical c) :: added
          \/ normalize_surface al ∈ surfaces).
Proof.
  unfold Spec.new_entry. cbn [Entry.surfaceForms].
  destruct (add_alias_fold surfaces (Unmatched.aliases c)
              [normalize_surface (Unmatched.canonical c)]
              {[normalize_surface (Unmatched.canonical c)]})
    as (added & -> & Hnd & Hall & Hcov).
  - intros k. by rewrite elem_of_singleton, list_elem_of_singleton.
  - apply NoDup_singleton.
  - by exists added.
Qed.

Lemma elem_of_new_entries (clusters : list Unmatched.t) fdc (ontology : list Entry.t)
    (min_count : Z) e :
  e ∈ new_entries (process clusters fdc ontology min_count) <->
  exists c, (c ∈ clusters) /\ min_count <= Unmatched.count c
            /\ (slugify (Unmatched.canonical c) ∉ existing_slugs ontology)
            /\ (normalize_surface (Unmatched.canonical c) ∉ existing_surfaces ontology)
            /\ e = Spec.new_entry (existing_surfaces ontology) fdc c.
Proof.
  rewrite process_spec. cbn zeta. cbn [new_entries].
  rewrite list_elem_of_In, in_map_iff. split.
  - intros (c & <- & Hc). apply filter_In in Hc as [Hc Hskip].
    apply filter_In in Hc as [Hc Hmin]. exists c.
    unfold Spec.skips in Hskip. apply negb_true_iff, orb_false_iff in Hskip as [H1 H2].
    apply bool_decide_eq_false in H1, H2.
    split_and!; try done; [by apply list_elem_of_In|lia].
  - intros (c & Hc & Hmin & H1 & H2 & ->). exists c. split; [done|].
    apply filter_In. split.
    + apply filter_In. split; [by apply list_elem_of_In|]. apply Z.leb_le. lia.
    + unfold Spec.skips. apply negb_true_iff, orb_false_iff.
      split; by apply bool_decide_eq_false.
Qed.

End ExpanderLoop.

Section ExpanderResults.
Import Expander.

Implicit Types (slugs surfaces : gset string) (fdc : gmap string Candidate.t)
  (c : Unmatched.t) (cs : list Unmatched.t) (a : acc) (e : Entry.t).

(** X22: every entry that the expander creates comes from a cluster
    that passes [--min-count] and matches neither a slug nor a surface
    form of the ontology; its slug, display name and recipe count are those
    of the cluster, it has no confirm tokens, and its candidate is that of
    the canonical when there is one, else that of the alias fallback.
    Conversely every such cluster gets an entry. *)
Theorem expander_new_entries (clusters : list Unmatched.t) fdc (ontology : list Entry.t)
    (min_count : Z) :
  Forall (fun e =>
            exists c,
              (c ∈ clusters) /\ min_count <= Unmatched.count c
              /\ Entry.slug e = slugify (Unmatched.canonical c)
              /\ (Entry.slug e ∉ existing_slugs ontology)
              /\ (normalize_surface (Unmatched.canonical c) ∉ existing_surfaces ontology)
              /\ Entry.displayName e = title (Unmatched.canonical c)
              /\ Entry.recipeCount e = Some (Unmatched.count c)
              /\ Entry.confirmTokens e = None
              /\ exists fm,
                   Entry.fdcCandidate e = Some fm
                   /\ (forall m, fdc !! Py.lower (Unmatched.canonical c) = Some m -> fm = Some m)
                   /\ (fdc !! Py.lower (Unmatched.canonical c) = None ->
                       fm = alias_candidate fdc (Unmatched.aliases c)))
    (new_entries (process clusters fdc ontology min_count))
  /\ (forall c,
        c ∈ clusters -> min_count <= Unmatched.count c ->
        slugify (Unmatched.canonical c) ∉ existing_slugs ontology ->
        normalize_surface (Unmatched.canonical c) ∉ existing_surfaces ontology ->
        exists e, (e ∈ new_entries (process clusters fdc ontology min_count))
                  /\ Entry.slug e = slugify (Unmatched.canonical c)
                  /\ Entry.recipeCount e = Some (Unmatched.count c)).
Proof.
  split.
  - apply Forall_forall. intros e He.
    apply elem_of_new_entries in He as (c & Hc & Hmin & H1 & H2 & ->).
    exists c. unfold Spec.new_entry.
    cbn [Entry.slug Entry.displayName Entry.recipeCount Entry.confirmTokens Entry.fdcCandidate].
    split_and!; try done.
    eexists. split; [done|]. split.
    + by intros m ->.
    + by intros ->.
  - intros c Hc Hmin H1 H2. exists (Spec.new_entry (existing_surfaces ontology) fdc c).
    split; [|done]. apply elem_of_new_entries. by exists c.
Qed.

(** X23: the surface forms of a created entry start with the
    normalized canonical, are pairwise distinct, normalized, and none is a
    surface form of the ontology; the others are normalized aliases of the
    cluster, and every alias of the cluster is there unless the ontology
    has it. *)
Theorem expander_surface_forms (clusters : list Unmatched.t) fdc (ontology : list Entry.t)
    (min_count : Z) :
  Forall (fun e =>
            exists c added,
              (c ∈ clusters)
              /\ Entry.slug e = slugify (Unmatched.canonical c)
              /\ Entry.surfaceForms e
                 = Some (normalize_surface (Unmatched.canonical c) :: added)
              /\ NoDup (Entry.forms e)
              /\ Forall (fun f => normalize_surface f = f /\ (f ∉ existing_surfaces ontology))
                   (Entry.forms e)
              /\ Forall (fun f => exists al, (al ∈ Unmatched.aliases c)
                                            /\ f = normalize_surface al) added
              /\ (forall al, al ∈ Unmatched.aliases c ->
                    normalize_surface al ∈ Entry.forms e
                    \/ normalize_surface al ∈ existing_surfaces ontology))
    (new_entries (process clusters fdc ontology min_count)).
Proof.
  apply Forall_forall. intros e He.
  apply elem_of_new_entries in He as (c & Hc & Hmin & H1 & H2 & ->).
  destruct (new_entry_forms (existing_surfaces ontology) fdc c)
    as (added & E & Hnd & Hall & Hcov).
  exists c, added. unfold Entry.forms. rewrite E. cbn [default].
  split; [exact Hc|]. split; [reflexivity|]. split; [reflexivity|]. split; [exact Hnd|].
  split; [|split; [|exact Hcov]].
  - constructor.
    + split; [|exact H2]. apply normalize_surface_fixed.
    + eapply Forall_impl; [exact Hall|]. intros f (Hf & al & _ & ->).
      split; [|exact Hf]. apply normalize_surface_fixed.
  - eapply Forall_impl; [exact Hall|]. intros f (_ & al & Hal & ->). exists al.
    split; [exact Hal|reflexivity].
Qed.

(** X24: the expander's counters add up: created plus skipped is the
    number of clusters that pass [--min-count], [skipped_no_fdc] counts the
    created entries without a candidate; the written ontology is the input
    entries and the created ones, in slug order, and the report lists the
    created entries in non-increasing order of recipe count. *)
Theorem expander_accounting (clusters : list Unmatched.t) fdc (ontology : list Entry.t)
    (min_count : Z) :
  let r := process clusters fdc ontology min_count in
  (length (new_entries r) + skipped_existing r
   = length (List.filter (fun c => (min_count <=? Unmatched.count c)%Z) clusters))%nat
  /\ skipped_no_fdc r = length (List.filter Spec.no_fdc (new_entries r))
  /\ expand clusters fdc ontology min_count ≡ₚ ontology ++ new_entries r
  /\ Spec.ordered (fun x y => String.leb (Entry.slug x) (Entry.slug y))
       (expand clusters fdc ontology min_count)
  /\ Spec.ordered
       (fun x y => default 0 (Entry.recipeCount y) <=? default 0 (Entry.recipeCount x))
       (sort_new (new_entries r)).
Proof.
  cbn zeta. split_and!.
  - rewrite process_spec. cbn zeta. cbn [new_entries skipped_existing].
    rewrite length_map. apply filter_split_length.
  - rewrite process_spec. done.
  - unfold expand, sort_ontology. rewrite sort_by_perm. apply Permutation_app_head.
    apply sort_by_perm.
  - unfold expand, sort_ontology. apply sort_by_ordered. intros x y. apply String.leb_total.
  - apply (sort_by_neg_key (fun x => default 0 (Entry.recipeCount x))).
Qed.

Lemma existing_slugs_elem_of (o : list Entry.t) (s : string) :
  s ∈ existing_slugs o <-> exists e, (e ∈ o) /\ Entry.slug e = s.
Proof.
  unfold existing_slugs. rewrite elem_of_list_to_set, list_elem_of_In, in_map_iff.
  split; intros (e & H1 & H2); exists e; split; try done; by apply list_elem_of_In.
Qed.

Lemma existing_surfaces_elem_of (o : list Entry.t) (k : string) :
  k ∈ existing_surfaces o <-> exists e f, (e ∈ o) /\ (f ∈ Entry.forms e) /\ Py.lower f = k.
Proof.
  unfold existing_surfaces. rewrite elem_of_list_to_set, list_elem_of_In, in_map_iff. split.
  - intros (f & <- & Hf). apply in_concat in Hf as (l & Hl & Hf).
    apply in_map_iff in Hl as (e & <- & He). exists e, f.
    split_and!; try done; by apply list_elem_of_In.
  - intros (e & f & He & Hf & <-). exists f. split; [done|].
    apply in_concat. exists (Entry.forms e). split; [|by apply list_elem_of_In].
    apply in_map. by apply list_elem_of_In.
Qed.

Lemma new_entries_nil (clusters : list Unmatched.t) fdc (ontology : list Entry.t)
    (min_count : Z) :
  (forall c, c ∈ clusters -> min_count <= Unmatched.count c ->
     slugify (Unmatched.canonical c) ∈ existing_slugs ontology
     \/ normalize_surface (Unmatched.canonical c) ∈ existing_surfaces ontology) ->
  new_entries (process clusters fdc ontology min_count) = [].
Proof.
  intros H. destruct (new_entries _) as [|e l] eqn:E; [done|].
  assert (e ∈ new_entries (process clusters fdc ontology min_count)) as He
    by (rewrite E; left).
  apply elem_of_new_entries in He as (c & Hc & Hmin & H1 & H2 & _).
  destruct (H c Hc Hmin); done.
Qed.

(** X25: a second run of the expander on its own output, with the
    same clusters, creates nothing and writes the same ontology. *)
Theorem expand_idempotent (clusters : list Unmatched.t) fdc (ontology : list Entry.t)
    (min_count : Z) :
  let o' := expand clusters fdc ontology min_count in
  new_entries (process clusters fdc o' min_count) = []
  /\ expand clusters fdc o' min_count = o'.
Proof.
  cbn zeta.
  assert (new_entries
            (process clusters fdc (expand clusters fdc ontology min_count) min_count) = [])
    as Hnil.
  { apply new_entries_nil. intros c Hc Hmin.
    assert (forall e, e ∈ ontology ++ new_entries (process clusters fdc ontology min_count) ->
                      e ∈ expand clusters fdc ontology min_count) as Hsub.
    { intros e He. unfold expand, sort_ontology. apply sort_by_elem_of.
      apply elem_of_app in He as [He|He]; apply elem_of_app; [by left|right].
      unfold sort_new. by apply sort_by_elem_of. }
    destruct (decide (slugify (Unmatched.canonical c) ∈ existing_slugs ontology)) as [H1|H1].
    { left. apply existing_slugs_elem_of in H1 as (e & He & Hs).
      apply existing_slugs_elem_of. exists e. split; [|done]. apply Hsub, elem_of_app. by left. }
    destruct (decide (normalize_surface (Unmatched.canonical c) ∈ existing_surfaces ontology))
      as [H2|H2].
    { right. apply existing_surfaces_elem_of in H2 as (e & f & He & Hf & Hk).
      apply existing_surfaces_elem_of. exists e, f. split_and!; try done.
      apply Hsub, elem_of_app. by left. }
    left. apply existing_slugs_elem_of.
    exists (Spec.new_entry (existing_surfaces ontology) fdc c). split; [|done].
    apply Hsub, elem_of_app. right. apply elem_of_new_entries. by exists c. }
  split; [done|].
  unfold expand at 1. rewrite Hnil. cbn [sort_new Py.sort_by]. rewrite app_nil_r.
  unfold expand, sort_ontology. apply sort_by_idempotent. intros a b. apply String.leb_total.
Qed.

(** X21: the alias fallback of the candidate lookup returns the
    candidate of the first alias, in cluster order, that has one, and
    nothing when no alias has one. *)
Theorem alias_candidate_first fdc (aliases : list string) :
  match alias_candidate fdc aliases with
  | Some m =>
      exists l1 al l2,
        aliases = l1 ++ al :: l2
        /\ Forall (fun x => fdc !! Py.lower x = None) l1
        /\ fdc !! Py.lower al = Some m
  | None => Forall (fun x => fdc !! Py.lower x = None) aliases
  end.
Proof.
  induction aliases as [|al aliases IH]; simpl; [constructor|].
  destruct (fdc !! Py.lower al) as [m|] eqn:E.
  - exists [], al, aliases. by split_and!.
  - destruct (alias_candidate fdc aliases) as [m|].
    + destruct IH as (l1 & al' & l2 & -> & Hl1 & Hal).
      exists (al :: l1), al', l2. split_and!; [done|by constructor|done].
    + by constructor.
Qed.

End ExpanderResults.


(** ** Further properties: candidates and lemmas *)
Section Candidates.
Import Expander.

Implicit Types (to_float : string -> option string) (item : gap_item)
  (m : gmap string Candidate.t).

Lemma add_candidate_cases to_float m item :
  add_candidate to_float m item =
    if Spec.has_candidate item then
      c ← Spec.stored to_float item;
      Some (<[Py.lower (ingredient item) := c]> m)
    else Some m.
Proof.
  unfold add_candidate, Spec.has_candidate, Spec.stored.
  destruct (bestCandidate item) as [d|]; [|done].
  destruct (String.eqb d ""); [done|]. cbn [negb mbind option_bind].
  destruct (score item) as [raw|]; [|done]. cbn [mbind option_bind].
  by destruct (to_float raw).
Qed.

Lemma foldM_snoc {A B : Type} (f : A -> B -> option A) (l : list B) (b : B) (a : A) :
  Merger.foldM f a (l ++ [b]) = a' ← Merger.foldM f a l; f a' b.
Proof.
  rewrite foldM_app. destruct (Merger.foldM f a l) as [a'|]; [|done].
  simpl. by destruct (f a' b).
Qed.

Lemma stored_candidate to_float item (c : Candidate.t) :
  Spec.has_candidate item = true -> Spec.stored to_float item = Some c ->
  Candidate.description c <> ""
  /\ Spec.stored to_float item
     = Some (Candidate.mk (Candidate.description c) (candidateCategory item)
               (Candidate.matchScore c)).
Proof.
  unfold Spec.has_candidate, Spec.stored.
  destruct (bestCandidate item) as [d|]; [|done]. cbn [mbind option_bind].
  destruct (score item ≫= to_float) as [f|]; [|done]. cbn [mbind option_bind].
  intros Hd [= <-]. split; [|done]. cbn [Candidate.description]. intros ->. done.
Qed.

(** The candidate map after the items [l]. *)
Lemma fold_candidates to_float (l : list gap_item) :
  match Merger.foldM (add_candidate to_float) ∅ l with
  | Some m =>
      Forall (fun item => is_Some (Spec.stored to_float item))
        (List.filter Spec.has_candidate l)
      /\ forall k,
           m !! k =
             last (List.filter (fun item => String.eqb (Py.lower (ingredient item)) k)
                     (List.filter Spec.has_candidate l))
             ≫= Spec.stored to_float
  | None =>
      Exists (fun item => Spec.stored to_float item = None) (List.filter Spec.has_candidate l)
  end.
Proof.
  induction l as [|item l IH] using rev_ind.
  - simpl. split; [constructor|]. intros k. by rewrite lookup_empty.
  - rewrite foldM_snoc, List.filter_app. cbn [List.filter].
    destruct (Merger.foldM (add_candidate to_float) ∅ l) as [m|]; cbn [mbind option_bind].
    + destruct IH as [Hall Hlook]. rewrite add_candidate_cases.
      destruct (Spec.has_candidate item) eqn:Hhas.
      * destruct (Spec.stored to_float item) as [c|] eqn:Hst; cbn [mbind option_bind].
        -- split.
           ++ apply Forall_app. split; [done|]. constructor; [by eexists|constructor].
           ++ intros k. rewrite List.filter_app. cbn [List.filter].
              destruct (String.eqb_spec (Py.lower (ingredient item)) k) as [->|Hne].
              ** by rewrite lookup_insert_eq, last_snoc.
              ** by rewrite lookup_insert_ne, app_nil_r.
        -- apply Exists_app. right. by constructor.
      * by rewrite !app_nil_r.
    + apply Exists_app. by left.
Qed.

(** X20: [load_fdc_foods] raises exactly when some item with a non-empty
    [bestCandidate] has no ["score"] key or a score that [float] does not
    convert.  Otherwise the map it returns holds, for a key, the candidate
    of the last item, [needs_review] before [no_match], whose lowercased
    ingredient is the key and whose [bestCandidate] is a non-empty string:
    its description, its category and its converted score; every key is
    lowercase and every stored description is non-empty. *)
Theorem load_fdc_foods_lookup to_float (needs_review no_match : list gap_item) :
  let items := List.filter Spec.has_candidate (needs_review ++ no_match) in
  match load_fdc_foods to_float needs_review no_match with
  | Some m =>
      Forall (fun item => is_Some (Spec.stored to_float item)) items
      /\ (forall k,
            m !! k =
              last (List.filter (fun item => String.eqb (Py.lower (ingredient item)) k) items)
              ≫= Spec.stored to_float)
      /\ map_Forall (fun k c => Py.lower k = k /\ Candidate.description c <> "") m
  | None => Exists (fun item => Spec.stored to_float item = None) items
  end.
Proof.
  cbn zeta. unfold load_fdc_foods.
  pose proof (fold_candidates to_float (needs_review ++ no_match)) as H.
  destruct (Merger.foldM (add_candidate to_float) ∅ (needs_review ++ no_match)) as [m|];
    [|exact H].
  destruct H as [Hall Hlook]. split; [exact Hall|]. split; [exact Hlook|].
  intros k c Hk. rewrite Hlook in Hk.
  destruct (last _) as [item|] eqn:E; [|done]. cbn [mbind option_bind] in Hk.
  apply last_Some in E as [l E].
  assert (In item
            (List.filter (fun item => String.eqb (Py.lower (ingredient item)) k)
               (List.filter Spec.has_candidate (needs_review ++ no_match)))) as Hin.
  { rewrite E. apply in_or_app. right. by left. }
  apply filter_In in Hin as [Hin Hkey]. apply filter_In in Hin as [_ Hhas].
  apply String.eqb_eq in Hkey as <-. split; [apply lower_idempotent|].
  by destruct (stored_candidate to_float item c Hhas Hk).
Qed.

End Candidates.

Section Lemmas.

Lemma builder_lemma_fixed (w v : string) :
  Builder.LEMMAS !! w = Some v -> Builder.LEMMAS !! v = None.
Proof.
  unfold Builder.LEMMAS at 1. intros H. apply elem_of_list_to_map_2 in H.
  repeat (apply elem_of_cons in H as [H|H]; [injection H as -> ->; vm_compute; reflexivity|]).
  by apply elem_of_nil in H.
Qed.

Lemma expander_lemma_fixed (w v : string) :
  Expander.LEMMAS !! w = Some v ->
  Expander.LEMMAS !! v = None /\ Spec.token_of Spec.alnum v.
Proof.
  unfold Expander.LEMMAS at 1. intros H. apply elem_of_list_to_map_2 in H.
  repeat (apply elem_of_cons in H as [H|H];
          [injection H as -> ->; split;
           [vm_compute; reflexivity|apply (bool_decide_unpack _); vm_compute; exact I]|]).
  by apply elem_of_nil in H.
Qed.

(** X3: in both lemma tables no lemma is itself a key, so
    [lemmatize] is idempotent in the builder and in the expander. *)
Theorem lemmatize_idempotent (word : string) :
  Builder.lemmatize (Builder.lemmatize word) = Builder.lemmatize word
  /\ Expander.lemmatize (Expander.lemmatize word) = Expander.lemmatize word.
Proof.
  split.
  - unfold Builder.lemmatize at 2 3.
    destruct (Builder.LEMMAS !! word) as [v|] eqn:E; simpl.
    + unfold Builder.lemmatize. by rewrite (builder_lemma_fixed word v E).
    + unfold Builder.lemmatize. by rewrite E.
  - unfold Expander.lemmatize at 2 3.
    destruct (Expander.LEMMAS !! word) as [v|] eqn:E; simpl.
    + unfold Expander.lemmatize. by rewrite (proj1 (expander_lemma_fixed word v E)).
    + unfold Expander.lemmatize. by rewrite E.
Qed.

Lemma alnum_word_char c :
  Expander.word_char c = true -> Py.is_space c = false -> Spec.alnum c = true.
Proof.
  unfold Expander.word_char, Spec.alnum. intros H E. rewrite E in H.
  by destruct (Py.is_lower c), (Py.is_digit c).
Qed.

(** X19: every element of the expander's [tokenize] is a lemma (a
    fixed point of [lemmatize]) of at least two characters, all in
    [[a-z0-9]], and tokenizing is insensitive to the case of the text. *)
Theorem expander_tokens (text : string) :
  set_Forall (fun t => Expander.lemmatize t = t /\ Spec.token_of Spec.alnum t)
    (Expander.tokenize text)
  /\ Expander.tokenize (Py.lower text) = Expander.tokenize text.
Proof.
  split; [|unfold Expander.tokenize; by rewrite lower_idempotent].
  intros t Ht. unfold Expander.tokenize in Ht.
  apply elem_of_list_to_set, list_elem_of_In, in_map_iff in Ht as (w & <- & Hw).
  pose proof (tokens_shape Expander.word_char text eq_refl) as Hshape.
  rewrite Forall_forall in Hshape. apply list_elem_of_In, Hshape in Hw as [Hlen Hchars].
  unfold Expander.lemmatize at 2 3 4.
  destruct (Expander.LEMMAS !! w) as [v|] eqn:E; simpl.
  - destruct (expander_lemma_fixed w v E) as [Hv Htok]. split; [|done].
    unfold Expander.lemmatize. by rewrite Hv.
  - split; [unfold Expander.lemmatize; by rewrite E|]. split; [done|].
    eapply Forall_impl; [exact Hchars|]. intros c [H1 H2]. by apply alnum_word_char.
Qed.

End Lemmas.


(** ** Further properties: display names *)
Section Title.
Import Expander.

Implicit Types (l : list ascii) (c : ascii) (b : bool).

Ltac ascii_cases c :=
  destruct c as [[] [] [] [] [] [] [] []]; vm_compute; try reflexivity; try discriminate.

Lemma upper_of_lower c :
  Py.is_lower c = true ->
  Py.lower_char (ascii_of_N (Py.code c - 32)) = c
  /\ Py.is_lower (ascii_of_N (Py.code c - 32)) = false
  /\ Py.is_upper (ascii_of_N (Py.code c - 32)) = true.
Proof. ascii_cases c; intros _; split_and!; reflexivity. Qed.

Lemma lower_of_upper c :
  Py.is_upper c = true -> Py.is_lower c = false /\ Py.is_lower (Py.lower_char c) = true.
Proof. ascii_cases c; intros _; split; reflexivity. Qed.

Lemma lower_is_fixed c : Py.is_lower c = true -> Py.lower_char c = c.
Proof. ascii_cases c. Qed.

Lemma title_chars_lower b l :
  map Py.lower_char (title_chars b l) = map Py.lower_char l.
Proof.
  revert b. induction l as [|c l IH]; intros b; [done|].
  cbn [title_chars]. destruct (Py.is_lower c) eqn:E1.
  - cbn [map]. rewrite IH. f_equal. destruct b; [done|].
    destruct (upper_of_lower c E1) as (-> & _). by rewrite lower_is_fixed.
  - destruct (Py.is_upper c) eqn:E2; cbn [map]; rewrite IH; f_equal.
    destruct b; [|done]. by rewrite lower_char_fixed by apply lower_char_not_upper.
Qed.

Lemma title_chars_length b l : length (title_chars b l) = length l.
Proof.
  revert b. induction l as [|c l IH]; intros b; [done|].
  cbn [title_chars]. destruct (Py.is_lower c); [|destruct (Py.is_upper c)]; simpl; by rewrite IH.
Qed.

Lemma title_chars_idempotent b l : title_chars b (title_chars b l) = title_chars b l.
Proof.
  revert b. induction l as [|c l IH]; intros b; [done|].
  cbn [title_chars]. destruct (Py.is_lower c) eqn:E1.
  - destruct b; cbn [title_chars].
    + by rewrite E1, IH.
    + destruct (upper_of_lower c E1) as (_ & -> & ->). by rewrite IH.
  - destruct (Py.is_upper c) eqn:E2.
    + destruct b; cbn [title_chars].
      * destruct (lower_of_upper c E2) as (_ & ->). by rewrite IH.
      * by rewrite E1, E2, IH.
    + cbn [title_chars]. by rewrite E1, E2, IH.
Qed.

Lemma title_case (s : string) :
  Py.lower (title s) = Py.lower s
  /\ Py.len (title s) = Py.len s
  /\ title (title s) = title s.
Proof.
  unfold title. split_and!.
  - unfold Py.lower. by rewrite chars_str, title_chars_lower.
  - rewrite len_str, title_chars_length. by rewrite <- len_str, str_chars.
  - by rewrite chars_str, title_chars_idempotent.
Qed.

Lemma title_chars_ascii b l :
  Forall (fun c => (Py.code c <? 128)%N = true) l ->
  Forall (fun c => (Py.code c <? 128)%N = true) (title_chars b l).
Proof.
  intros H. revert b. induction H as [|c l Hc _ IH]; intros b; [constructor|].
  cbn [title_chars]. destruct (Py.is_lower c) eqn:E1.
  - constructor; [|apply IH]. destruct b; [done|]. revert E1. clear. ascii_cases c.
  - destruct (Py.is_upper c) eqn:E2.
    + constructor; [|apply IH]. destruct b; [|done]. revert E2. clear. ascii_cases c.
    + constructor; [done|apply IH].
Qed.

(** X26: for clusters whose canonicals are ASCII text, the display name
    of a created entry is the canonical of its cluster up to the case of
    its letters (same length, same lowercased text); it is ASCII text, and
    title-casing it again changes nothing. *)
Theorem display_name_case_only (clusters : list Unmatched.t) (fdc : gmap string Candidate.t)
    (ontology : list Entry.t) (min_count : Z) :
  Forall (fun cl => Spec.ascii_text (Unmatched.canonical cl)) clusters ->
  Forall (fun e =>
            exists cl : Unmatched.t,
              (cl ∈ clusters)
              /\ Entry.slug e = slugify (Unmatched.canonical cl)
              /\ Spec.ascii_text (Entry.displayName e)
              /\ Py.lower (Entry.displayName e) = Py.lower (Unmatched.canonical cl)
              /\ Py.len (Entry.displayName e) = Py.len (Unmatched.canonical cl)
              /\ title (Entry.displayName e) = Entry.displayName e)
    (new_entries (process clusters fdc ontology min_count)).
Proof.
  intros Hascii. apply Forall_forall. intros e He.
  apply elem_of_new_entries in He as (cl & Hc & _ & _ & _ & ->).
  exists cl. unfold Spec.new_entry. cbn [Entry.slug Entry.displayName].
  destruct (title_case (Unmatched.canonical cl)) as (H1 & H2 & H3).
  split; [exact Hc|]. split; [reflexivity|]. split; [|split; [exact H1|split; [exact H2|exact H3]]].
  rewrite Forall_forall in Hascii. specialize (Hascii cl Hc).
  unfold Spec.ascii_text, title in *. rewrite chars_str. by apply title_chars_ascii.
Qed.

(** [X26] on two clusters that pass the count filter and one that does
    not. *)
Lemma display_name_case_only_witness :
  let clusters := [Unmatched.mk "red onion" 60 ["onion, red"];
                   Unmatched.mk "they're 2nd-best" 55 [];
                   Unmatched.mk "LEEK" 10 []] in
  Forall (fun e =>
            exists cl : Unmatched.t,
              (cl ∈ clusters)
              /\ Entry.slug e = slugify (Unmatched.canonical cl)
              /\ Spec.ascii_text (Entry.displayName e)
              /\ Py.lower (Entry.displayName e) = Py.lower (Unmatched.canonical cl)
              /\ Py.len (Entry.displayName e) = Py.len (Unmatched.canonical cl)
              /\ title (Entry.displayName e) = Entry.displayName e)
    (new_entries (process clusters ∅ [] 50)).
Proof.
  intros clusters. apply (display_name_case_only clusters ∅ [] 50).
  apply (bool_decide_unpack _). vm_compute. exact I.
Defined.

End Title.


(** ** Further properties: the indexes of the merger *)
Section IndexBuild.
Import Merger.

Implicit Types (e : Entry.t) (o : list Entry.t) (k s : string).

Lemma index_forms_lookup_eq (m : gmap string string) e k :
  index_forms m e !! k =
    if bool_decide (k ∈ Spec.lower_forms e) then Some (Entry.slug e) else m !! k.
Proof.
  unfold index_forms, Spec.lower_forms. revert m.
  induction (Entry.forms e) as [|f l IH]; intros m; cbn [fold_left map].
  - rewrite bool_decide_eq_false_2; [done|]. by intros H%elem_of_nil.
  - rewrite IH. case_bool_decide as H1.
    + rewrite bool_decide_eq_true_2; [done|by right].
    + destruct (decide (Py.lower f = k)) as [<-|Hne].
      * rewrite lookup_insert_eq. rewrite bool_decide_eq_true_2; [done|left].
      * rewrite lookup_insert_ne by done. rewrite bool_decide_eq_false_2; [done|].
        intros [->|H]%elem_of_cons; done.
Qed.

Lemma index_surfaces_snoc o e : index_surfaces (o ++ [e]) = index_forms (index_surfaces o) e.
Proof. unfold index_surfaces. by rewrite fold_left_app. Qed.

Lemma index_surfaces_last o k :
  index_surfaces o !! k =
    Entry.slug <$> last (List.filter (fun e => bool_decide (k ∈ Spec.lower_forms e)) o).
Proof.
  induction o as [|e o IH] using rev_ind; [done|].
  rewrite index_surfaces_snoc, index_forms_lookup_eq, List.filter_app. cbn [List.filter].
  destruct (bool_decide (k ∈ Spec.lower_forms e)).
  - by rewrite last_snoc.
  - by rewrite app_nil_r.
Qed.

(** X27: the indexes built from the ontology are last-writer-wins:
    the surface index maps a lowercased surface form to the slug of the
    last entry that has it, and [slug_to_entry] refers, for each slug of
    the ontology, to the last entry with that slug. *)
Theorem index_last_writer_wins o :
  (forall k,
      surface_to_slug (init o) !! k =
        Entry.slug <$> last (List.filter (fun e => bool_decide (k ∈ Spec.lower_forms e)) o))
  /\ (forall s,
        match slug_to_entry (init o) !! s with
        | Some i => is_Some (o !! i) /\ o !! i = Spec.pointed o s
        | None => s ∉ map Entry.slug o
        end).
Proof.
  split.
  - intros k. cbn [init surface_to_slug]. apply index_surfaces_last.
  - intros s. destruct (slug_to_entry (init o) !! s) as [i|] eqn:E.
    + cbn [init slug_to_entry] in E. pose proof (index_slugs_last 0 o ∅ s i E) as H.
      destruct (Spec.pointed o s) as [e|]; [|done].
      destruct H as (j & -> & Hj). rewrite Nat.add_0_l, Hj. split; [by eexists|done].
    + intros Hs. apply init_slug_known in Hs. rewrite E in Hs. by destruct Hs.
Qed.

End IndexBuild.
